(** * pi-mono agent runtime: message transform, compaction cut points,
      tool-call scheduling, event stream and proxy codec

    A shallow embedding of the parts of the runtime that the properties below
    are about, followed by the theorems.  Every definition is a transcription
    of the TypeScript function of the same name. *)

From Stdlib Require Import ZArith Lia Bool Ascii String Sorted.
From stdpp Require Import base option list strings gmap.

Open Scope string_scope.
Open Scope list_scope.

(** ** Data model of [pi-ai] (messages, content blocks, usage)

    A JavaScript string is the sequence of its UTF-16 code units.  The
    embedding writes it as a [string] whose characters are the code units,
    so that [String.length] is [.length]; this covers the strings whose code
    units are below 256, and a string with a code unit above 255 has no
    counterpart here. *)

Module Ai.

(** Arbitrary JSON, as carried by tool-call arguments and tool details. *)
Unset Elimination Schemes.
Inductive Json :=
| JNull
| JBool (b : bool)
| JNum (n : Z)
| JStr (s : string)
| JArr (l : list Json)
| JObj (fields : list (string * Json)).
Set Elimination Schemes.

(** The empty object literal of the source. *)
Definition emptyObject : Json := JObj [].

Inductive StopReason := StopStop | StopLength | StopToolUse | StopAborted | StopError.

Record Usage := {
  u_input : Z;
  u_output : Z;
  u_cacheRead : Z;
  u_cacheWrite : Z;
  u_totalTokens : Z;
  u_cost : Z
}.

Record TextContent := { text : string; textSignature : option string }.
Record ThinkingContent := { thinking : string; thinkingSignature : option string }.
Record ImageContent := { data : string; mimeType : string }.

Record ToolCall := {
  tc_id : string;
  tc_name : string;
  tc_arguments : Json;
  tc_thoughtSignature : option string
}.

(** Content of an assistant message: text | thinking | toolCall. *)
Inductive AssistantBlock :=
| BText (t : TextContent)
| BThinking (t : ThinkingContent)
| BToolCall (t : ToolCall).

(** Content of user, toolResult and custom messages: text | image. *)
Inductive UserBlock :=
| UText (t : TextContent)
| UImage (i : ImageContent).

(** [content: string | (TextContent | ImageContent)[]] *)
Inductive UserContent :=
| CString (s : string)
| CBlocks (bs : list UserBlock).

Record UserMessage := { um_content : UserContent; um_timestamp : Z }.

Record AssistantMessage := {
  am_content : list AssistantBlock;
  am_api : string;
  am_provider : string;
  am_model : string;
  am_usage : Usage;
  am_stopReason : StopReason;
  am_errorMessage : option string;
  am_timestamp : Z
}.

Record ToolResultMessage := {
  tr_toolCallId : string;
  tr_toolName : string;
  tr_content : list UserBlock;
  tr_details : option Json;
  tr_isError : bool;
  tr_timestamp : Z
}.

(** The LM-facing union, discriminated by [role]. *)
Inductive Message :=
| MUser (m : UserMessage)
| MAssistant (m : AssistantMessage)
| MToolResult (m : ToolResultMessage).

(** The fields of [Model] that the runtime compares. *)
Record Model := { m_id : string; m_api : string; m_provider : string }.

(** JavaScript truthiness of an optional string field: present and non-empty. *)
Definition truthy (o : option string) : bool :=
  match o with
  | Some s => negb (String.eqb s "")
  | None => false
  end.

(** The code units below 256 that [String.prototype.trim] removes: the
    white space U+0009, U+000B, U+000C, U+0020, U+00A0 and the line
    terminators U+000A, U+000D.  The others it removes (U+1680,
    U+2000..U+200A, U+2028, U+2029, U+202F, U+205F, U+3000, U+FEFF) are
    above 255. *)
Definition isWhiteSpace (c : ascii) : bool :=
  let n := nat_of_ascii c in
  ((9 <=? n)%nat && (n <=? 13)%nat) || (n =? 32)%nat || (n =? 160)%nat.

(** [s.trim() === ""] *)
Fixpoint trimIsEmpty (s : string) : bool :=
  match s with
  | EmptyString => true
  | String c s' => isWhiteSpace c && trimIsEmpty s'
  end.

(** [content.filter((b) => b.type === "toolCall")] *)
Definition toolCallsOf (content : list AssistantBlock) : list ToolCall :=
  omap (fun b => match b with BToolCall t => Some t | _ => None end) content.

(** [l.length > 0] *)
Definition isNonEmpty {A} (l : list A) : bool :=
  match l with [] => false | _ => true end.

Definition isErrored (a : AssistantMessage) : bool :=
  match am_stopReason a with
  | StopError | StopAborted => true
  | _ => false
  end.

End Ai.

(** ** transformMessages (cross-model message transform) *)

Module Transform.
Import Ai.

(** [normalizeToolCallId?: (id, model, source) => string] *)
Definition Normalizer := string -> Model -> AssistantMessage -> string.

Definition isSameModel (a : AssistantMessage) (model : Model) : bool :=
  String.eqb (am_provider a) (m_provider model)
  && String.eqb (am_api a) (m_api model)
  && String.eqb (am_model a) (m_id model).

(** The callback of [content.flatMap]; it may record an id in [toolCallIdMap],
    which is threaded through as [idMap]. *)
Definition transformBlock (model : Model) (normalizeToolCallId : option Normalizer)
    (assistantMsg : AssistantMessage) (same : bool)
    (idMap : gmap string string) (block : AssistantBlock)
  : gmap string string * list AssistantBlock :=
  match block with
  | BThinking t =>
      if same && truthy (thinkingSignature t) then (idMap, [block])
      else if String.eqb (thinking t) "" || trimIsEmpty (thinking t) then (idMap, [])
      else if same then (idMap, [block])
      else (idMap, [BText {| text := thinking t; textSignature := None |}])
  | BText t =>
      if same then (idMap, [block])
      else (idMap, [BText {| text := text t; textSignature := None |}])
  | BToolCall toolCall =>
      let normalized1 :=
        if negb same && truthy (tc_thoughtSignature toolCall)
        then {| tc_id := tc_id toolCall; tc_name := tc_name toolCall;
                tc_arguments := tc_arguments toolCall; tc_thoughtSignature := None |}
        else toolCall in
      match normalizeToolCallId with
      | Some normalize =>
          if negb same then
            let normalizedId := normalize (tc_id toolCall) model assistantMsg in
            if negb (String.eqb normalizedId (tc_id toolCall)) then
              (<[tc_id toolCall := normalizedId]> idMap,
               [BToolCall {| tc_id := normalizedId; tc_name := tc_name normalized1;
                             tc_arguments := tc_arguments normalized1;
                             tc_thoughtSignature := tc_thoughtSignature normalized1 |}])
            else (idMap, [BToolCall normalized1])
          else (idMap, [BToolCall normalized1])
      | None => (idMap, [BToolCall normalized1])
      end
  end.

(** [assistantMsg.content.flatMap(...)], left to right. *)
Fixpoint transformContent (model : Model) (normalizeToolCallId : option Normalizer)
    (assistantMsg : AssistantMessage) (same : bool)
    (idMap : gmap string string) (content : list AssistantBlock)
  : gmap string string * list AssistantBlock :=
  match content with
  | [] => (idMap, [])
  | block :: rest =>
      let '(idMap1, out) := transformBlock model normalizeToolCallId assistantMsg same idMap block in
      let '(idMap2, outs) := transformContent model normalizeToolCallId assistantMsg same idMap1 rest in
      (idMap2, out ++ outs)
  end.

Definition withContent (a : AssistantMessage) (content : list AssistantBlock) : AssistantMessage :=
  {| am_content := content; am_api := am_api a; am_provider := am_provider a;
     am_model := am_model a; am_usage := am_usage a; am_stopReason := am_stopReason a;
     am_errorMessage := am_errorMessage a; am_timestamp := am_timestamp a |}.

Definition withToolCallId (r : ToolResultMessage) (newId : string) : ToolResultMessage :=
  {| tr_toolCallId := newId; tr_toolName := tr_toolName r; tr_content := tr_content r;
     tr_details := tr_details r; tr_isError := tr_isError r; tr_timestamp := tr_timestamp r |}.

(** The toolResult branch of the first pass. *)
Definition normalizeToolResult (idMap : gmap string string) (r : ToolResultMessage)
  : ToolResultMessage :=
  match idMap !! tr_toolCallId r with
  | Some normalizedId =>
      if negb (String.eqb normalizedId "") && negb (String.eqb normalizedId (tr_toolCallId r))
      then withToolCallId r normalizedId
      else r
  | None => r
  end.

(** The assistant branch of the first pass: [{ ...assistantMsg, content: transformedContent }]. *)
Definition transformAssistant (model : Model) (normalizeToolCallId : option Normalizer)
    (idMap : gmap string string) (assistantMsg : AssistantMessage)
  : gmap string string * AssistantMessage :=
  let same := isSameModel assistantMsg model in
  let '(idMap1, transformedContent) :=
    transformContent model normalizeToolCallId assistantMsg same idMap (am_content assistantMsg) in
  (idMap1, withContent assistantMsg transformedContent).

(** The callback of [messages.map] in the first pass. *)
Definition transformMessage (model : Model) (normalizeToolCallId : option Normalizer)
    (idMap : gmap string string) (msg : Message) : gmap string string * Message :=
  match msg with
  | MUser _ => (idMap, msg)
  | MToolResult r => (idMap, MToolResult (normalizeToolResult idMap r))
  | MAssistant assistantMsg =>
      let '(idMap1, transformed) :=
        transformAssistant model normalizeToolCallId idMap assistantMsg in
      (idMap1, MAssistant transformed)
  end.

(** First pass: [messages.map(...)] with the shared [toolCallIdMap]. *)
Fixpoint firstPassFrom (model : Model) (normalizeToolCallId : option Normalizer)
    (idMap : gmap string string) (messages : list Message)
  : gmap string string * list Message :=
  match messages with
  | [] => (idMap, [])
  | msg :: rest =>
      let '(idMap1, msg') := transformMessage model normalizeToolCallId idMap msg in
      let '(idMap2, rest') := firstPassFrom model normalizeToolCallId idMap1 rest in
      (idMap2, msg' :: rest')
  end.

Definition firstPass (model : Model) (normalizeToolCallId : option Normalizer)
    (messages : list Message) : gmap string string * list Message :=
  firstPassFrom model normalizeToolCallId ∅ messages.

(** The synthetic result pushed for an orphaned tool call; [now] is the
    reading of [Date.now()]. *)
Definition syntheticResult (now : Z) (tc : ToolCall) : ToolResultMessage :=
  {| tr_toolCallId := tc_id tc;
     tr_toolName := tc_name tc;
     tr_content := [UText {| text := "No result provided"; textSignature := None |}];
     tr_details := None;
     tr_isError := true;
     tr_timestamp := now |}.

(** [for (const tc of pendingToolCalls) if (!existingToolResultIds.has(tc.id)) result.push(...)] *)
Definition flushPending (now : Z) (pendingToolCalls : list ToolCall)
    (existingToolResultIds : gset string) : list Message :=
  omap (fun tc =>
          if decide (tc_id tc ∈ existingToolResultIds) then None
          else Some (MToolResult (syntheticResult now tc)))
       pendingToolCalls.

(** The mutable variables of the second pass. *)
Record RepairState := {
  result : list Message;
  pendingToolCalls : list ToolCall;
  existingToolResultIds : gset string
}.

(** The [if (pendingToolCalls.length > 0) { ... }] block shared by the
    assistant and the user branch. *)
Definition flushStep (now : Z) (st : RepairState) : RepairState :=
  if isNonEmpty (pendingToolCalls st) then
    {| result := result st ++ flushPending now (pendingToolCalls st) (existingToolResultIds st);
       pendingToolCalls := [];
       existingToolResultIds := ∅ |}
  else st.

(** One iteration of the second-pass loop. *)
Definition repairStep (now : Z) (st : RepairState) (msg : Message) : RepairState :=
  match msg with
  | MAssistant assistantMsg =>
      let st1 := flushStep now st in
      if isErrored assistantMsg then st1
      else
        let toolCalls := toolCallsOf (am_content assistantMsg) in
        if isNonEmpty toolCalls then
          {| result := result st1 ++ [msg];
             pendingToolCalls := toolCalls;
             existingToolResultIds := ∅ |}
        else
          {| result := result st1 ++ [msg];
             pendingToolCalls := pendingToolCalls st1;
             existingToolResultIds := existingToolResultIds st1 |}
  | MToolResult r =>
      {| result := result st ++ [msg];
         pendingToolCalls := pendingToolCalls st;
         existingToolResultIds := {[ tr_toolCallId r ]} ∪ existingToolResultIds st |}
  | MUser _ =>
      let st1 := flushStep now st in
      {| result := result st1 ++ [msg];
         pendingToolCalls := pendingToolCalls st1;
         existingToolResultIds := existingToolResultIds st1 |}
  end.

Definition initialRepairState : RepairState :=
  {| result := []; pendingToolCalls := []; existingToolResultIds := ∅ |}.

(** Second pass: the [for] loop over [transformed]. *)
Definition secondPass (now : Z) (transformed : list Message) : list Message :=
  result (foldl (repairStep now) initialRepairState transformed).

(** The loop started from given [pendingToolCalls] and [existingToolResultIds]
    with an empty [result]: what the remaining iterations push. *)
Definition repairFrom (now : Z) (pending : list ToolCall) (existing : gset string)
    (msgs : list Message) : list Message :=
  result (foldl (repairStep now)
                {| result := []; pendingToolCalls := pending; existingToolResultIds := existing |}
                msgs).

(** [existingToolResultIds] after the flush block. *)
Definition existingAfterFlush (pending : list ToolCall) (existing : gset string) : gset string :=
  if isNonEmpty pending then ∅ else existing.

Definition transformMessages (now : Z) (messages : list Message) (model : Model)
    (normalizeToolCallId : option Normalizer) : list Message :=
  secondPass now (firstPass model normalizeToolCallId messages).2.

(** Predicates used to state the properties. *)

Definition isToolResultMsg (m : Message) : Prop :=
  match m with MToolResult _ => True | _ => False end.

(** A user or assistant message: what interrupts a run of tool results. *)
Definition isTurnMsg (m : Message) : Prop :=
  match m with MToolResult _ => False | _ => True end.

Definition isUserMsg (m : Message) : Prop :=
  match m with MUser _ => True | _ => False end.

Definition isAssistantWithToolCalls (m : Message) : Prop :=
  match m with
  | MAssistant a => toolCallsOf (am_content a) ≠ []
  | _ => False
  end.

(** The tool call [tc] has a matching toolResult in [post] before the next
    user message or assistant-with-tool-calls. *)
Definition matchedBeforeNextTurn (tc : ToolCall) (post : list Message) : Prop :=
  ∃ mid r rest,
    post = mid ++ MToolResult r :: rest
    ∧ tr_toolCallId r = tc_id tc
    ∧ Forall (fun m => ¬ isUserMsg m ∧ ¬ isAssistantWithToolCalls m) mid.

(** Orphan closure of a message list, as the specification words it. *)
Definition OrphanClosed (out : list Message) : Prop :=
  ∀ pre a post tc,
    out = pre ++ MAssistant a :: post →
    tc ∈ toolCallsOf (am_content a) →
    matchedBeforeNextTurn tc post.

(** The trailing-orphan case as the specification words it: the output
    ends with the last assistant message [a], its tool calls intact, followed
    by tool results only. *)
Definition TrailingKept (a : AssistantMessage) (out : list Message) : Prop :=
  ∃ outPre a' results,
    out = outPre ++ MAssistant a' :: results
    ∧ toolCallsOf (am_content a') = toolCallsOf (am_content a)
    ∧ Forall isToolResultMsg results.

(** A tool call of the assistant message [a] as it is replayed to [model]:
    name and arguments are kept; when [a] comes from another model, the id
    is the normalized id, where a normalizer is given, and a thoughtSignature
    that is not empty is removed. *)
Definition replayedCall (model : Model) (normalizeToolCallId : option Normalizer)
    (a : AssistantMessage) (tc : ToolCall) : ToolCall :=
  let foreign := negb (isSameModel a model) in
  {| tc_id := match normalizeToolCallId with
              | Some normalize => if foreign then normalize (tc_id tc) model a else tc_id tc
              | None => tc_id tc
              end;
     tc_name := tc_name tc;
     tc_arguments := tc_arguments tc;
     tc_thoughtSignature := if foreign && truthy (tc_thoughtSignature tc) then None
                            else tc_thoughtSignature tc |}.

(** A normalizer that leaves its own outputs alone, whatever source message
    it is shown. *)
Definition idempotentNormalizer (model : Model) (normalizeToolCallId : option Normalizer) : Prop :=
  ∀ normalize, normalizeToolCallId = Some normalize →
    ∀ id source source',
      normalize (normalize id model source) model source' = normalize id model source.

Definition notErroredMsg (m : Message) : Prop :=
  match m with
  | MAssistant a => isErrored a = false
  | _ => True
  end.

(** Notions used in the proofs. *)

Definition restart (st : RepairState) : RepairState :=
  {| result := []; pendingToolCalls := pendingToolCalls st;
     existingToolResultIds := existingToolResultIds st |}.

(** A message that the first pass, started with an empty id map, leaves alone. *)
Definition fixedMsg (model : Model) (normalizeToolCallId : option Normalizer)
    (m : Message) : Prop :=
  transformMessage model normalizeToolCallId ∅ m = (∅, m).

(** Ids of the synthetic results of one flush. *)
Definition flushedIds (p : list ToolCall) (e : gset string) : gset string :=
  list_to_set (map tc_id (filter (fun tc => tc_id tc ∉ e) p)).

(** What relates the loop state of a second run (primed) to the state of the
    first run at the same point of the history. *)
Definition settled (p : list ToolCall) (e : gset string)
    (p' : list ToolCall) (e' : gset string) : Prop :=
  ∀ tc, tc ∈ p' → tc_id tc ∈ e' ∨ tc_id tc ∈ flushedIds p e.

End Transform.

(** ** Compaction: token estimate and cut-point search *)

Module Compaction.
Import Ai.

(** [AgentMessage] of the coding agent: the LM messages and the custom
    variants. *)
Inductive AgentMessage :=
| AUser (m : UserMessage)
| AAssistant (m : AssistantMessage)
| AToolResult (m : ToolResultMessage)
| ACustom (customType : string) (content : UserContent)
| ABashExecution (command output : string)
| ABranchSummary (summary : string)
| ACompactionSummary (summary : string).

(** Entries of the session log, discriminated by [type]. *)
Inductive SessionEntry :=
| EMessage (message : AgentMessage)
| EThinkingLevelChange (thinkingLevel : string)
| EModelChange (provider modelId : string)
| ECompaction (summary firstKeptEntryId : string) (tokensBefore : Z)
| EBranchSummary (summary fromId : string)
| ECustom (customType : string)
| ECustomMessage (customType : string) (content : UserContent)
| ELabel (label : string).

Record CutPointResult := {
  firstKeptEntryIndex : nat;
  turnStartIndex : Z;
  isSplitTurn : bool
}.

(** [Math.ceil(chars / 4)] *)
Definition ceilDiv4 (chars : nat) : Z := (Z.of_nat chars + 3) / 4.

Section Estimate.

(** [JSON.stringify], a built-in of the host language. *)
Variable JSON_stringify : Json -> string.

(** The loop of the [user] case: only text blocks are counted. *)
Definition userBlockChars (block : UserBlock) : nat :=
  match block with
  | UText t => String.length (text t)
  | UImage _ => 0
  end.

(** The loop of the [custom] / [toolResult] case: text, and 4800 per image. *)
Definition resultBlockChars (block : UserBlock) : nat :=
  match block with
  | UText t => String.length (text t)
  | UImage _ => 4800
  end.

Definition assistantBlockChars (block : AssistantBlock) : nat :=
  match block with
  | BText t => String.length (text t)
  | BThinking t => String.length (thinking t)
  | BToolCall t => String.length (tc_name t) + String.length (JSON_stringify (tc_arguments t))
  end.

Definition sumChars {A} (f : A -> nat) (l : list A) : nat :=
  foldl (fun chars block => chars + f block)%nat 0%nat l.

(** [estimateTokens]: [chars] adds up [.length] of the texts, the number of
    their code units. *)
Definition estimateTokens (message : AgentMessage) : Z :=
  match message with
  | AUser m =>
      match um_content m with
      | CString s => ceilDiv4 (String.length s)
      | CBlocks blocks => ceilDiv4 (sumChars userBlockChars blocks)
      end
  | AAssistant m => ceilDiv4 (sumChars assistantBlockChars (am_content m))
  | ACustom _ content =>
      match content with
      | CString s => ceilDiv4 (String.length s)
      | CBlocks blocks => ceilDiv4 (sumChars resultBlockChars blocks)
      end
  | AToolResult m => ceilDiv4 (sumChars resultBlockChars (tr_content m))
  | ABashExecution command output => ceilDiv4 (String.length command + String.length output)
  | ABranchSummary summary => ceilDiv4 (String.length summary)
  | ACompactionSummary summary => ceilDiv4 (String.length summary)
  end.

(** What one iteration of the loop of [findValidCutPoints] pushes for
    [entries[i]]: the [switch] first, the [if] after it second. *)
Definition cutPointPushes (entry : SessionEntry) (i : nat) : list nat :=
  (match entry with
   | EMessage (AToolResult _) => []
   | EMessage _ => [i]
   | _ => []
   end)
  ++ (match entry with
      | EBranchSummary _ _ | ECustomMessage _ _ => [i]
      | _ => []
      end).

(** The [for] loop of [findValidCutPoints]; [None] is the TypeError of
    reading [.type] of an index outside the array. *)
Fixpoint findValidCutPointsLoop (entries : list SessionEntry) (i steps : nat)
  : option (list nat) :=
  match steps with
  | O => Some []
  | S steps' =>
      entry ← entries !! i;
      rest ← findValidCutPointsLoop entries (S i) steps';
      Some (cutPointPushes entry i ++ rest)
  end.

Definition findValidCutPoints (entries : list SessionEntry) (startIndex endIndex : nat)
  : option (list nat) :=
  findValidCutPointsLoop entries startIndex (endIndex - startIndex).

Definition startsTurn (entry : SessionEntry) : bool :=
  match entry with
  | EBranchSummary _ _ | ECustomMessage _ _ => true
  | EMessage (AUser _) | EMessage (ABashExecution _ _) => true
  | _ => false
  end.

(** [for (let i = entryIndex; i >= startIndex; i--)], with [i = startIndex + steps - 1]. *)
Fixpoint findTurnStartLoop (entries : list SessionEntry) (startIndex steps : nat) : option Z :=
  match steps with
  | O => Some (-1)%Z
  | S steps' =>
      let i := (startIndex + steps')%nat in
      entry ← entries !! i;
      if startsTurn entry then Some (Z.of_nat i)
      else findTurnStartLoop entries startIndex steps'
  end.

Definition findTurnStartIndex (entries : list SessionEntry) (entryIndex startIndex : nat)
  : option Z :=
  findTurnStartLoop entries startIndex (S entryIndex - startIndex).

(** The backward walk of [findCutPoint]: the index at which the accumulated
    estimate reaches [keepRecentTokens], if it does. *)
Fixpoint budgetWalk (entries : list SessionEntry) (keepRecentTokens : Z)
    (startIndex steps : nat) (accumulatedTokens : Z) : option (option nat) :=
  match steps with
  | O => Some None
  | S steps' =>
      let i := (startIndex + steps')%nat in
      entry ← entries !! i;
      match entry with
      | EMessage message =>
          let accumulated := (accumulatedTokens + estimateTokens message)%Z in
          if (keepRecentTokens <=? accumulated)%Z then Some (Some i)
          else budgetWalk entries keepRecentTokens startIndex steps' accumulated
      | _ => budgetWalk entries keepRecentTokens startIndex steps' accumulatedTokens
      end
  end.

(** The inner [for] over [cutPoints]: the first one at or after [i], else
    the value [cutIndex] already has. *)
Definition closestCutPoint (cutPoints : list nat) (i cutIndex : nat) : nat :=
  default cutIndex (List.find (fun c => (i <=? c)%nat) cutPoints).

(** [while (cutIndex > startIndex) { ... cutIndex--; }] *)
Fixpoint absorbMetadata (entries : list SessionEntry) (startIndex cutIndex : nat)
  : option nat :=
  match cutIndex with
  | O => Some O
  | S prev =>
      if (startIndex <? cutIndex)%nat then
        prevEntry ← entries !! prev;
        match prevEntry with
        | ECompaction _ _ _ => Some cutIndex
        | EMessage _ => Some cutIndex
        | _ => absorbMetadata entries startIndex prev
        end
      else Some cutIndex
  end.

Definition isUserMessageEntry (entry : SessionEntry) : bool :=
  match entry with
  | EMessage (AUser _) => true
  | _ => false
  end.

(** [findCutPoint]. The indices are array positions; [keepRecentTokens] is
    compared with sums of integer estimates, so an integer stands for it.
    [None] is a TypeError on an index outside [entries]. *)
Definition findCutPoint (entries : list SessionEntry) (startIndex endIndex : nat)
    (keepRecentTokens : Z) : option CutPointResult :=
  cutPoints ← findValidCutPoints entries startIndex endIndex;
  match cutPoints with
  | [] => Some {| firstKeptEntryIndex := startIndex; turnStartIndex := (-1)%Z;
                  isSplitTurn := false |}
  | first :: _ =>
      stop ← budgetWalk entries keepRecentTokens startIndex (endIndex - startIndex) 0%Z;
      let cutIndex0 :=
        match stop with
        | Some i => closestCutPoint cutPoints i first
        | None => first
        end in
      cutIndex ← absorbMetadata entries startIndex cutIndex0;
      cutEntry ← entries !! cutIndex;
      let isUserMessage := isUserMessageEntry cutEntry in
      turnStart ← (if isUserMessage then Some (-1)%Z
                   else findTurnStartIndex entries cutIndex startIndex);
      Some {| firstKeptEntryIndex := cutIndex;
              turnStartIndex := turnStart;
              isSplitTurn := negb isUserMessage && negb (turnStart =? -1)%Z |}
  end.

End Estimate.

(** Predicates used to state the properties. *)

(** An entry of a legal cut-point kind. *)
Definition isLegalCutKind (entry : SessionEntry) : bool :=
  match entry with
  | EMessage (AToolResult _) => false
  | EMessage _ => true
  | EBranchSummary _ _ | ECustomMessage _ _ => true
  | _ => false
  end.


(** What the leftward expansion steps over: neither a message nor a compaction. *)
Definition isAbsorbable (entry : SessionEntry) : bool :=
  match entry with
  | EMessage _ | ECompaction _ _ _ => false
  | _ => true
  end.


(** Number of entries kept in the tail [firstKeptEntryIndex, endIndex). *)
Definition retained (endIndex : nat) (r : CutPointResult) : nat :=
  (endIndex - firstKeptEntryIndex r)%nat.

Definition textChars (blocks : list UserBlock) : nat :=
  sum_list (map (fun b => match b with UText t => String.length (text t) | UImage _ => 0%nat end) blocks).

Definition imageCount (blocks : list UserBlock) : nat :=
  sum_list (map (fun b => match b with UImage _ => 1%nat | UText _ => 0%nat end) blocks).

End Compaction.

(** ** Agent loop: executing the tool calls of one assistant message *)

Module AgentLoop.
Import Ai.

(** [AgentToolResult]: what a tool hands back; [details] is [{}] where the
    loop builds the result itself. *)
Record AgentToolResult := { r_content : list UserBlock; r_details : option Json }.

Inductive AgentEvent :=
| agent_start
| agent_end (messages : list Message)
| turn_start
| turn_end (message : Message) (toolResults : list ToolResultMessage)
| message_start (message : Message)
| message_update (message : Message)
| message_end (message : Message)
| tool_execution_start (toolCallId toolName : string) (args : Json)
| tool_execution_update (toolCallId toolName : string) (args : Json)
    (partialResult : AgentToolResult)
| tool_execution_end (toolCallId toolName : string) (result : AgentToolResult)
    (isError : bool).

(** One call of [tool.execute]: the partial results it reports through
    [onUpdate], then a returned result or a thrown error. *)
Inductive ToolOutcome :=
| Returned (result : AgentToolResult)
| Threw (message : string).

Record ToolRun := { updates : list AgentToolResult; outcome : ToolOutcome }.

Record AgentTool := {
  name : string;
  label : string;
  execute : string -> Json -> ToolRun
}.

(** [validateToolArguments]: the validated arguments, or the thrown message. *)
Inductive Validation :=
| Valid (args : Json)
| Invalid (message : string).

(** What the loop acts on: the events pushed to the stream, the tool-call
    ids handed to [tool.execute], and how often the steering source was
    polled. *)
Record World := {
  events : list AgentEvent;
  executed : list string;
  steeringPolls : nat
}.

Definition pushEvent (event : AgentEvent) (w : World) : World :=
  {| events := events w ++ [event]; executed := executed w; steeringPolls := steeringPolls w |}.

Definition pushEvents (evs : list AgentEvent) (w : World) : World :=
  {| events := events w ++ evs; executed := executed w; steeringPolls := steeringPolls w |}.

Section Loop.

(** The reading of [Date.now()]. *)
Variable now : Z.
Variable validateToolArguments : AgentTool -> ToolCall -> Validation.
Variable tools : option (list AgentTool).
(** [getSteeringMessages], as the batch returned by its n-th call. *)
Variable getSteeringMessages : option (nat -> list Message).

(** [tools?.find((t) => t.name === toolCall.name)] *)
Definition findTool (toolCall : ToolCall) : option AgentTool :=
  match tools with
  | Some ts => List.find (fun t => String.eqb (name t) (tc_name toolCall)) ts
  | None => None
  end.

(** The result built in the [catch] block. *)
Definition errorResult (message : string) : AgentToolResult :=
  {| r_content := [UText {| text := message; textSignature := None |}];
     r_details := Some emptyObject |}.

(** The [try] / [catch] of one iteration: the world afterwards, the result
    and [isError]. *)
Definition invokeTool (toolCall : ToolCall) (w : World) : World * AgentToolResult * bool :=
  match findTool toolCall with
  | None =>
      (w, errorResult (String.append "Tool " (String.append (tc_name toolCall) " not found")), true)
  | Some tool =>
      match validateToolArguments tool toolCall with
      | Invalid message => (w, errorResult message, true)
      | Valid validatedArgs =>
          let run := execute tool (tc_id toolCall) validatedArgs in
          let w1 :=
            {| events := events w
                 ++ map (tool_execution_update (tc_id toolCall) (tc_name toolCall)
                                               (tc_arguments toolCall))
                        (updates run);
               executed := executed w ++ [tc_id toolCall];
               steeringPolls := steeringPolls w |} in
          match outcome run with
          | Returned result => (w1, result, false)
          | Threw message => (w1, errorResult message, true)
          end
      end
  end.

Definition toolResultMessageOf (toolCall : ToolCall) (result : AgentToolResult)
    (isError : bool) : ToolResultMessage :=
  {| tr_toolCallId := tc_id toolCall;
     tr_toolName := tc_name toolCall;
     tr_content := r_content result;
     tr_details := r_details result;
     tr_isError := isError;
     tr_timestamp := now |}.

Definition skippedResult : AgentToolResult :=
  {| r_content := [UText {| text := "Skipped due to queued user message.";
                            textSignature := None |}];
     r_details := Some emptyObject |}.

Definition skippedMessage (toolCall : ToolCall) : ToolResultMessage :=
  {| tr_toolCallId := tc_id toolCall;
     tr_toolName := tc_name toolCall;
     tr_content := r_content skippedResult;
     tr_details := Some emptyObject;
     tr_isError := true;
     tr_timestamp := now |}.

Definition skipToolCall (toolCall : ToolCall) (w : World) : World * ToolResultMessage :=
  let w1 := pushEvent (tool_execution_start (tc_id toolCall) (tc_name toolCall)
                                            (tc_arguments toolCall)) w in
  let w2 := pushEvent (tool_execution_end (tc_id toolCall) (tc_name toolCall)
                                          skippedResult true) w1 in
  let toolResultMessage := skippedMessage toolCall in
  let w3 := pushEvent (message_start (MToolResult toolResultMessage)) w2 in
  let w4 := pushEvent (message_end (MToolResult toolResultMessage)) w3 in
  (w4, toolResultMessage).

(** [for (const skipped of remainingCalls) results.push(skipToolCall(skipped, stream))] *)
Fixpoint skipRemaining (remainingCalls : list ToolCall) (w : World)
    (results : list ToolResultMessage) : World * list ToolResultMessage :=
  match remainingCalls with
  | [] => (w, results)
  | skipped :: rest =>
      let '(w1, message) := skipToolCall skipped w in
      skipRemaining rest w1 (results ++ [message])
  end.

(** The [for] loop of [executeToolCalls], on the calls from [index] on. *)
Fixpoint executeToolCallsLoop (toolCalls : list ToolCall) (w : World)
    (results : list ToolResultMessage)
  : World * list ToolResultMessage * option (list Message) :=
  match toolCalls with
  | [] => (w, results, None)
  | toolCall :: remainingCalls =>
      let w1 := pushEvent (tool_execution_start (tc_id toolCall) (tc_name toolCall)
                                                (tc_arguments toolCall)) w in
      let '(w2, result, isError) := invokeTool toolCall w1 in
      let w3 := pushEvent (tool_execution_end (tc_id toolCall) (tc_name toolCall)
                                              result isError) w2 in
      let toolResultMessage := toolResultMessageOf toolCall result isError in
      let results1 := results ++ [toolResultMessage] in
      let w4 := pushEvent (message_end (MToolResult toolResultMessage))
                  (pushEvent (message_start (MToolResult toolResultMessage)) w3) in
      match getSteeringMessages with
      | Some poll =>
          let steering := poll (steeringPolls w4) in
          let w5 := {| events := events w4; executed := executed w4;
                       steeringPolls := S (steeringPolls w4) |} in
          if isNonEmpty steering then
            let '(w6, results2) := skipRemaining remainingCalls w5 results1 in
            (w6, results2, Some steering)
          else executeToolCallsLoop remainingCalls w5 results1
      | None => executeToolCallsLoop remainingCalls w4 results1
      end
  end.

Definition executeToolCalls (assistantMessage : AssistantMessage) (w : World)
  : World * list ToolResultMessage * option (list Message) :=
  executeToolCallsLoop (toolCallsOf (am_content assistantMessage)) w [].

(** What one executed call contributes, read off a run of its iteration in
    an empty world: the events, the tool result message, and the id handed
    to [tool.execute] (none when the tool is missing or validation fails). *)
Definition emptyWorld : World := {| events := []; executed := []; steeringPolls := 0 |}.

Definition callResult (toolCall : ToolCall) : ToolResultMessage :=
  let '(_, result, isError) := invokeTool toolCall emptyWorld in
  toolResultMessageOf toolCall result isError.

Definition callEvents (toolCall : ToolCall) : list AgentEvent :=
  let '(w, result, isError) := invokeTool toolCall emptyWorld in
  tool_execution_start (tc_id toolCall) (tc_name toolCall) (tc_arguments toolCall)
  :: events w
  ++ [ tool_execution_end (tc_id toolCall) (tc_name toolCall) result isError;
       message_start (MToolResult (toolResultMessageOf toolCall result isError));
       message_end (MToolResult (toolResultMessageOf toolCall result isError)) ].

Definition callExecuted (toolCall : ToolCall) : list string :=
  executed (invokeTool toolCall emptyWorld).1.1.

(** The four events of a skipped call. *)
Definition skippedEvents (toolCall : ToolCall) : list AgentEvent :=
  [ tool_execution_start (tc_id toolCall) (tc_name toolCall) (tc_arguments toolCall);
    tool_execution_end (tc_id toolCall) (tc_name toolCall) skippedResult true;
    message_start (MToolResult (skippedMessage toolCall));
    message_end (MToolResult (skippedMessage toolCall)) ].

End Loop.

End AgentLoop.

(** ** EventStream: the queue between a producer and its consumers *)

Module EventStream.

Section Stream.

Context {T R : Type}.
Variable isComplete : T -> bool.
Variable extractResult : T -> R.

(** [IteratorResult<T>]: [{ value, done: false }] or [{ done: true }]. *)
Inductive IteratorResult :=
| Yielded (value : T)
| Finished.

(** The fields of the class; [waiting] holds the resolvers of suspended
    iterators, named by the consumer they belong to, [finalResult] the value
    [finalResultPromise] has been resolved with, and [delivered] what the
    iterators have handed to their consumers so far. *)
Record Stream := {
  queue : list T;
  waiting : list nat;
  done : bool;
  finalResult : option R;
  delivered : list (nat * IteratorResult)
}.

Definition create : Stream :=
  {| queue := []; waiting := []; done := false; finalResult := None; delivered := [] |}.

(** Resolving a promise that is already resolved does nothing. *)
Definition resolveFinalResult (result : R) (fr : option R) : option R :=
  match fr with
  | Some r => Some r
  | None => Some result
  end.

Definition push (event : T) (s : Stream) : Stream :=
  if done s then s
  else
    let done1 := if isComplete event then true else done s in
    let final1 := if isComplete event
                  then resolveFinalResult (extractResult event) (finalResult s)
                  else finalResult s in
    match waiting s with
    | waiter :: rest =>
        {| queue := queue s; waiting := rest; done := done1; finalResult := final1;
           delivered := delivered s ++ [(waiter, Yielded event)] |}
    | [] =>
        {| queue := queue s ++ [event]; waiting := []; done := done1; finalResult := final1;
           delivered := delivered s |}
    end.

(** [end(result?)] *)
Definition finish (result : option R) (s : Stream) : Stream :=
  {| queue := queue s;
     waiting := [];
     done := true;
     finalResult := match result with
                    | Some r => resolveFinalResult r (finalResult s)
                    | None => finalResult s
                    end;
     delivered := delivered s ++ map (fun waiter => (waiter, Finished)) (waiting s) |}.

(** Whether the iterator of [consumer] is suspended on its promise. *)
Definition suspended (consumer : nat) (s : Stream) : bool :=
  existsb (Nat.eqb consumer) (waiting s).

(** One turn of the [while (true)] loop of the async iterator of
    [consumer]: it hands out the head of the queue, or returns, or pushes
    its resolver and suspends; a resolver called later by [push] or [end]
    makes the iterator hand on what it is called with.  An iterator that is
    suspended runs no turn: a call of its [next()] made meanwhile is queued
    by the generator and only becomes a turn after the promise is resolved,
    so on a suspended consumer the step changes nothing. *)
Definition next (consumer : nat) (s : Stream) : Stream :=
  if suspended consumer s then s
  else
    match queue s with
    | event :: rest =>
        {| queue := rest; waiting := waiting s; done := done s; finalResult := finalResult s;
           delivered := delivered s ++ [(consumer, Yielded event)] |}
    | [] =>
        if done s then
          {| queue := []; waiting := waiting s; done := done s; finalResult := finalResult s;
             delivered := delivered s ++ [(consumer, Finished)] |}
        else
          {| queue := []; waiting := waiting s ++ [consumer]; done := done s;
             finalResult := finalResult s; delivered := delivered s |}
    end.

(** What producer and consumers can do to a stream: a call of [push], a
    call of [end], a turn of the iterator of a consumer. *)
Inductive Op :=
| Push (event : T)
| End (result : option R)
| Next (consumer : nat).

Definition step (s : Stream) (op : Op) : Stream :=
  match op with
  | Push event => push event s
  | End result => finish result s
  | Next consumer => next consumer s
  end.

Definition run (ops : list Op) (s : Stream) : Stream := foldl step s ops.



(** What holds of every stream reached from [create]: a consumer only waits
    on an empty queue, and the result promise is unresolved while the stream
    is live. *)
Definition wellFormed (s : Stream) : Prop :=
  (waiting s ≠ [] → queue s = []) ∧ (done s = false → finalResult s = None).

End Stream.

End EventStream.

(** ** Proxy codec: rebuilding the partial message from stripped events *)

Module Proxy.
Import Ai.

(** [ProxyAssistantMessageEvent]: the events on the wire, without [partial]. *)
Inductive ProxyAssistantMessageEvent :=
| px_start
| px_text_start (contentIndex : nat)
| px_text_delta (contentIndex : nat) (delta : string)
| px_text_end (contentIndex : nat) (contentSignature : option string)
| px_thinking_start (contentIndex : nat)
| px_thinking_delta (contentIndex : nat) (delta : string)
| px_thinking_end (contentIndex : nat) (contentSignature : option string)
| px_toolcall_start (contentIndex : nat) (id toolName : string)
| px_toolcall_delta (contentIndex : nat) (delta : string)
| px_toolcall_end (contentIndex : nat)
| px_done (reason : StopReason) (usage : Usage)
| px_error (reason : StopReason) (errorMessage : option string) (usage : Usage).

(** A content block of the client's [partial]: a tool call carries the
    accumulated [partialJson] until [toolcall_end] deletes it. *)
Inductive ClientBlock :=
| KText (t : TextContent)
| KThinking (t : ThinkingContent)
| KToolCall (t : ToolCall) (partialJson : option string).

(** The client's [partial]; [content] is a JavaScript array, whose slots
    may be holes. *)
Record Partial := {
  p_content : list (option ClientBlock);
  p_api : string;
  p_provider : string;
  p_model : string;
  p_usage : Usage;
  p_stopReason : StopReason;
  p_errorMessage : option string;
  p_timestamp : Z
}.

Definition withClientContent (partial : Partial) (content : list (option ClientBlock)) : Partial :=
  {| p_content := content; p_api := p_api partial; p_provider := p_provider partial;
     p_model := p_model partial; p_usage := p_usage partial;
     p_stopReason := p_stopReason partial; p_errorMessage := p_errorMessage partial;
     p_timestamp := p_timestamp partial |}.

(** [array[i] = v]: inside the array the slot is overwritten, beyond its end
    the array grows, with holes in between. *)
Definition assignIndex {A} (l : list (option A)) (i : nat) (v : A) : list (option A) :=
  if decide (i < length l)%nat then <[i := Some v]> l
  else l ++ replicate (i - length l)%nat None ++ [Some v].

(** The [AssistantMessageEvent] that [processProxyEvent] returns; each also
    refers to the [partial] object, which is returned beside it. *)
Inductive RebuiltEvent :=
| rb_start
| rb_text_start (contentIndex : nat)
| rb_text_delta (contentIndex : nat) (delta : string)
| rb_text_end (contentIndex : nat) (content : string)
| rb_thinking_start (contentIndex : nat)
| rb_thinking_delta (contentIndex : nat) (delta : string)
| rb_thinking_end (contentIndex : nat) (content : string)
| rb_toolcall_start (contentIndex : nat)
| rb_toolcall_delta (contentIndex : nat) (delta : string)
| rb_toolcall_end (contentIndex : nat) (toolCall : ToolCall)
| rb_done (reason : StopReason)
| rb_error (reason : StopReason).

(** The three ways [processProxyEvent] comes back. *)
Inductive Processed :=
| Emitted (event : RebuiltEvent) (partial : Partial)
| Ignored (partial : Partial)
| Thrown (message : string).

(** JavaScript falsiness of a JSON value, for [parseStreamingJson(...) || {}]. *)
Definition falsy (v : Json) : bool :=
  match v with
  | JNull => true
  | JBool b => negb b
  | JNum n => (n =? 0)%Z
  | JStr s => String.eqb s ""
  | _ => false
  end.

Section Client.

(** [parseStreamingJson] of pi-ai, the fault-tolerant parser. *)
Variable parseStreamingJson : string -> Json.

Definition parsedArguments (partialJson : string) : Json :=
  let parsed := parseStreamingJson partialJson in
  if falsy parsed then emptyObject else parsed.

(** [partialJson += delta], where a deleted [partialJson] reads as the
    string "undefined". *)
Definition appendPartialJson (partialJson : option string) (delta : string) : string :=
  String.append (default "undefined" partialJson) delta.

Definition processProxyEvent (proxyEvent : ProxyAssistantMessageEvent) (partial : Partial)
  : Processed :=
  match proxyEvent with
  | px_start => Emitted rb_start partial
  | px_text_start contentIndex =>
      Emitted (rb_text_start contentIndex)
        (withClientContent partial
           (assignIndex (p_content partial) contentIndex
              (KText {| text := ""; textSignature := None |})))
  | px_text_delta contentIndex delta =>
      match p_content partial !! contentIndex with
      | Some (Some (KText t)) =>
          Emitted (rb_text_delta contentIndex delta)
            (withClientContent partial
               (<[contentIndex :=
                    Some (KText {| text := String.append (text t) delta;
                                   textSignature := textSignature t |})]>
                  (p_content partial)))
      | _ => Thrown "Received text_delta for non-text content"
      end
  | px_text_end contentIndex contentSignature =>
      match p_content partial !! contentIndex with
      | Some (Some (KText t)) =>
          Emitted (rb_text_end contentIndex (text t))
            (withClientContent partial
               (<[contentIndex :=
                    Some (KText {| text := text t; textSignature := contentSignature |})]>
                  (p_content partial)))
      | _ => Thrown "Received text_end for non-text content"
      end
  | px_thinking_start contentIndex =>
      Emitted (rb_thinking_start contentIndex)
        (withClientContent partial
           (assignIndex (p_content partial) contentIndex
              (KThinking {| thinking := ""; thinkingSignature := None |})))
  | px_thinking_delta contentIndex delta =>
      match p_content partial !! contentIndex with
      | Some (Some (KThinking t)) =>
          Emitted (rb_thinking_delta contentIndex delta)
            (withClientContent partial
               (<[contentIndex :=
                    Some (KThinking {| thinking := String.append (thinking t) delta;
                                       thinkingSignature := thinkingSignature t |})]>
                  (p_content partial)))
      | _ => Thrown "Received thinking_delta for non-thinking content"
      end
  | px_thinking_end contentIndex contentSignature =>
      match p_content partial !! contentIndex with
      | Some (Some (KThinking t)) =>
          Emitted (rb_thinking_end contentIndex (thinking t))
            (withClientContent partial
               (<[contentIndex :=
                    Some (KThinking {| thinking := thinking t;
                                       thinkingSignature := contentSignature |})]>
                  (p_content partial)))
      | _ => Thrown "Received thinking_end for non-thinking content"
      end
  | px_toolcall_start contentIndex id toolName =>
      Emitted (rb_toolcall_start contentIndex)
        (withClientContent partial
           (assignIndex (p_content partial) contentIndex
              (KToolCall {| tc_id := id; tc_name := toolName; tc_arguments := emptyObject;
                            tc_thoughtSignature := None |}
                         (Some ""))))
  | px_toolcall_delta contentIndex delta =>
      match p_content partial !! contentIndex with
      | Some (Some (KToolCall t partialJson)) =>
          let partialJson' := appendPartialJson partialJson delta in
          Emitted (rb_toolcall_delta contentIndex delta)
            (withClientContent partial
               (<[contentIndex :=
                    Some (KToolCall {| tc_id := tc_id t; tc_name := tc_name t;
                                       tc_arguments := parsedArguments partialJson';
                                       tc_thoughtSignature := tc_thoughtSignature t |}
                                    (Some partialJson'))]>
                  (p_content partial)))
      | _ => Thrown "Received toolcall_delta for non-toolCall content"
      end
  | px_toolcall_end contentIndex =>
      match p_content partial !! contentIndex with
      | Some (Some (KToolCall t _)) =>
          Emitted (rb_toolcall_end contentIndex t)
            (withClientContent partial
               (<[contentIndex := Some (KToolCall t None)]> (p_content partial)))
      | _ => Ignored partial
      end
  | px_done reason usage =>
      Emitted (rb_done reason)
        {| p_content := p_content partial; p_api := p_api partial;
           p_provider := p_provider partial; p_model := p_model partial;
           p_usage := usage; p_stopReason := reason;
           p_errorMessage := p_errorMessage partial; p_timestamp := p_timestamp partial |}
  | px_error reason errorMessage usage =>
      Emitted (rb_error reason)
        {| p_content := p_content partial; p_api := p_api partial;
           p_provider := p_provider partial; p_model := p_model partial;
           p_usage := usage; p_stopReason := reason;
           p_errorMessage := errorMessage; p_timestamp := p_timestamp partial |}
  end.

(** The reading loop of [streamProxy] on the events of one stream: the
    [partial] after the last one, or [None] when [processProxyEvent] threw. *)
Fixpoint rebuild (proxyEvents : list ProxyAssistantMessageEvent) (partial : Partial)
  : option Partial :=
  match proxyEvents with
  | [] => Some partial
  | proxyEvent :: rest =>
      match processProxyEvent proxyEvent partial with
      | Emitted _ partial' => rebuild rest partial'
      | Ignored partial' => rebuild rest partial'
      | Thrown _ => None
      end
  end.

End Client.

(** The [partial] that [streamProxy] starts from. *)
Definition initialPartial (model : Model) (now : Z) : Partial :=
  {| p_content := [];
     p_api := m_api model;
     p_provider := m_provider model;
     p_model := m_id model;
     p_usage := {| u_input := 0; u_output := 0; u_cacheRead := 0; u_cacheWrite := 0;
                   u_totalTokens := 0; u_cost := 0 |};
     p_stopReason := StopStop;
     p_errorMessage := None;
     p_timestamp := now |}.

(** Modelled from the spec: the [AssistantMessageEvent] of the direct
    transport (the pi-ai type declaration is not among the sources). Every
    event carries [partial], the snapshot of the message so far. *)
Inductive AssistantMessageEvent :=
| ev_start (partial : AssistantMessage)
| ev_text_start (contentIndex : nat) (partial : AssistantMessage)
| ev_text_delta (contentIndex : nat) (delta : string) (partial : AssistantMessage)
| ev_text_end (contentIndex : nat) (content : string) (partial : AssistantMessage)
| ev_thinking_start (contentIndex : nat) (partial : AssistantMessage)
| ev_thinking_delta (contentIndex : nat) (delta : string) (partial : AssistantMessage)
| ev_thinking_end (contentIndex : nat) (content : string) (partial : AssistantMessage)
| ev_toolcall_start (contentIndex : nat) (partial : AssistantMessage)
| ev_toolcall_delta (contentIndex : nat) (delta : string) (partial : AssistantMessage)
| ev_toolcall_end (contentIndex : nat) (toolCall : ToolCall) (partial : AssistantMessage)
| ev_done (reason : StopReason) (message : AssistantMessage)
| ev_error (reason : StopReason) (error : AssistantMessage).

(** Modelled from the spec: the server side of the codec (the proxy server is
    not among the sources). It drops [partial]; [text_end] / [thinking_end]
    keep only the block's signature, [toolcall_start] is given the id and
    the tool name, [done] / [error] keep only usage (and errorMessage). *)
Definition strip (event : AssistantMessageEvent) : option ProxyAssistantMessageEvent :=
  match event with
  | ev_start _ => Some px_start
  | ev_text_start i _ => Some (px_text_start i)
  | ev_text_delta i delta _ => Some (px_text_delta i delta)
  | ev_text_end i _ partial =>
      match am_content partial !! i with
      | Some (BText t) => Some (px_text_end i (textSignature t))
      | _ => None
      end
  | ev_thinking_start i _ => Some (px_thinking_start i)
  | ev_thinking_delta i delta _ => Some (px_thinking_delta i delta)
  | ev_thinking_end i _ partial =>
      match am_content partial !! i with
      | Some (BThinking t) => Some (px_thinking_end i (thinkingSignature t))
      | _ => None
      end
  | ev_toolcall_start i partial =>
      match am_content partial !! i with
      | Some (BToolCall t) => Some (px_toolcall_start i (tc_id t) (tc_name t))
      | _ => None
      end
  | ev_toolcall_delta i delta _ => Some (px_toolcall_delta i delta)
  | ev_toolcall_end i _ _ => Some (px_toolcall_end i)
  | ev_done reason message => Some (px_done reason (am_usage message))
  | ev_error reason error => Some (px_error reason (am_errorMessage error) (am_usage error))
  end.

Definition stripAll (events : list AssistantMessageEvent)
  : option (list ProxyAssistantMessageEvent) :=
  mapM strip events.

Section Conformance.

Variable parseStreamingJson : string -> Json.

(** Modelled from the spec: a conformant event sequence of one stream, read
    from the content [content] of the previous snapshot and the blocks that
    are [open] (started, not yet ended; a tool call with the JSON fragments
    accumulated so far). A [*_start] appends an empty block at
    [contentIndex]; a [*_delta] appends its delta to that block (for a tool
    call, to the accumulator, which is re-parsed into [arguments]); a
    [*_end] closes the block, whose signature the provider may have set by
    then.  [done] comes last, when every block is closed, with a reason among
    stop, length and toolUse; [error] comes last at any point, also while
    blocks are open (a stream that fails or is cancelled), with the reason
    aborted or error; both carry the message with the content of the last
    snapshot. *)
Fixpoint conformantFrom (content : list AssistantBlock) (open : gmap nat string)
    (events : list AssistantMessageEvent) (final : AssistantMessage) : Prop :=
  match events with
  | [] => False
  | ev_start partial :: rest =>
      am_content partial = content ∧ conformantFrom content open rest final
  | ev_text_start i partial :: rest =>
      i = length content
      ∧ am_content partial = content ++ [BText {| text := ""; textSignature := None |}]
      ∧ conformantFrom (am_content partial) (<[i := ""]> open) rest final
  | ev_text_delta i delta partial :: rest =>
      (∃ t signature,
         content !! i = Some (BText t) ∧ is_Some (open !! i)
         ∧ am_content partial
           = <[i := BText {| text := String.append (text t) delta;
                             textSignature := signature |}]> content)
      ∧ conformantFrom (am_content partial) open rest final
  | ev_text_end i finalText partial :: rest =>
      (∃ t signature,
         content !! i = Some (BText t) ∧ is_Some (open !! i)
         ∧ finalText = text t
         ∧ am_content partial
           = <[i := BText {| text := text t; textSignature := signature |}]> content)
      ∧ conformantFrom (am_content partial) (delete i open) rest final
  | ev_thinking_start i partial :: rest =>
      i = length content
      ∧ am_content partial
        = content ++ [BThinking {| thinking := ""; thinkingSignature := None |}]
      ∧ conformantFrom (am_content partial) (<[i := ""]> open) rest final
  | ev_thinking_delta i delta partial :: rest =>
      (∃ t signature,
         content !! i = Some (BThinking t) ∧ is_Some (open !! i)
         ∧ am_content partial
           = <[i := BThinking {| thinking := String.append (thinking t) delta;
                                 thinkingSignature := signature |}]> content)
      ∧ conformantFrom (am_content partial) open rest final
  | ev_thinking_end i finalText partial :: rest =>
      (∃ t signature,
         content !! i = Some (BThinking t) ∧ is_Some (open !! i)
         ∧ finalText = thinking t
         ∧ am_content partial
           = <[i := BThinking {| thinking := thinking t;
                                 thinkingSignature := signature |}]> content)
      ∧ conformantFrom (am_content partial) (delete i open) rest final
  | ev_toolcall_start i partial :: rest =>
      i = length content
      ∧ (∃ id toolName signature,
           am_content partial
           = content ++ [BToolCall {| tc_id := id; tc_name := toolName;
                                      tc_arguments := emptyObject;
                                      tc_thoughtSignature := signature |}])
      ∧ conformantFrom (am_content partial) (<[i := ""]> open) rest final
  | ev_toolcall_delta i delta partial :: rest =>
      match open !! i with
      | Some accumulated =>
          (∃ t,
             content !! i = Some (BToolCall t)
             ∧ am_content partial
               = <[i := BToolCall
                          {| tc_id := tc_id t; tc_name := tc_name t;
                             tc_arguments :=
                               parsedArguments parseStreamingJson
                                 (String.append accumulated delta);
                             tc_thoughtSignature := tc_thoughtSignature t |}]> content)
          ∧ conformantFrom (am_content partial)
              (<[i := String.append accumulated delta]> open) rest final
      | None => False
      end
  | ev_toolcall_end i toolCall partial :: rest =>
      content !! i = Some (BToolCall toolCall) ∧ is_Some (open !! i)
      ∧ am_content partial = content
      ∧ conformantFrom (am_content partial) (delete i open) rest final
  | ev_done reason message :: rest =>
      rest = [] ∧ open = ∅ ∧ final = message
      ∧ am_content message = content ∧ am_stopReason message = reason
      ∧ isErrored message = false
  | ev_error reason error :: rest =>
      rest = [] ∧ final = error
      ∧ am_content error = content ∧ am_stopReason error = reason
      ∧ isErrored error = true
  end.

(** A conformant sequence of a whole stream, with [final] its last message. *)
Definition conformant (events : list AssistantMessageEvent) (final : AssistantMessage) : Prop :=
  conformantFrom [] ∅ events final.

End Conformance.

(** A server-side block as the client's array holds it once it is closed. *)
Definition asClientBlock (block : AssistantBlock) : ClientBlock :=
  match block with
  | BText t => KText t
  | BThinking t => KThinking t
  | BToolCall t => KToolCall t None
  end.

(** The same, with the tool call's [thoughtSignature] left out. *)
Definition withoutThoughtSignature (block : AssistantBlock) : AssistantBlock :=
  match block with
  | BToolCall t =>
      BToolCall {| tc_id := tc_id t; tc_name := tc_name t; tc_arguments := tc_arguments t;
                   tc_thoughtSignature := None |}
  | _ => block
  end.

(** How the client's array holds a server-side block at index [i] while the
    stream runs: an open text or thinking block has no signature yet, an
    open tool call still has its [partialJson], and a tool call never has a
    [thoughtSignature]. *)
Definition clientView (open : gmap nat string) (i : nat) (block : AssistantBlock) : ClientBlock :=
  match block with
  | BText t =>
      KText (match open !! i with
             | Some _ => {| text := text t; textSignature := None |}
             | None => t
             end)
  | BThinking t =>
      KThinking (match open !! i with
                 | Some _ => {| thinking := thinking t; thinkingSignature := None |}
                 | None => t
                 end)
  | BToolCall t =>
      KToolCall {| tc_id := tc_id t; tc_name := tc_name t; tc_arguments := tc_arguments t;
                   tc_thoughtSignature := None |}
                (open !! i)
  end.

(** The round trip, as the specification words it: the rebuilt message has
    the content, stopReason and usage of the server's final message. *)
Definition RoundTrips (parseStreamingJson : string -> Json) (model : Model) (now : Z)
    (events : list AssistantMessageEvent) (final : AssistantMessage) : Prop :=
  ∃ proxyEvents rebuilt,
    stripAll events = Some proxyEvents
    ∧ rebuild parseStreamingJson proxyEvents (initialPartial model now) = Some rebuilt
    ∧ p_content rebuilt = map (fun b => Some (asClientBlock b)) (am_content final)
    ∧ p_stopReason rebuilt = am_stopReason final
    ∧ p_usage rebuilt = am_usage final.

(** Notions used in the proofs. *)

(** The client's array mirrors the server's content, block by block. *)
Definition mirrors (content : list AssistantBlock) (open : gmap nat string)
    (clientContent : list (option ClientBlock)) : Prop :=
  length clientContent = length content
  ∧ ∀ i block, content !! i = Some block →
      clientContent !! i = Some (Some (clientView open i block)).

(** A slot of the client's array that holds no tool call with a
    [thoughtSignature]. *)
Definition unsignedSlot (slot : option ClientBlock) : Prop :=
  match slot with
  | Some (KToolCall t _) => tc_thoughtSignature t = None
  | _ => True
  end.

End Proxy.

(** ** Concrete histories, sessions and streams used as instances *)

Module Scenarios.
Import Ai Transform Compaction AgentLoop Proxy.

(** A history whose only message is a finished assistant turn with one tool call. *)
Definition zeroUsage : Usage :=
  {| u_input := 0; u_output := 0; u_cacheRead := 0; u_cacheWrite := 0;
     u_totalTokens := 0; u_cost := 0 |}.

Definition callOf (id : string) : ToolCall :=
  {| tc_id := id; tc_name := "ls"; tc_arguments := emptyObject; tc_thoughtSignature := None |}.

Definition assistantOf (provider : string) (content : list AssistantBlock) (sr : StopReason)
  : AssistantMessage :=
  {| am_content := content; am_api := "messages"; am_provider := provider;
     am_model := "m1"; am_usage := zeroUsage; am_stopReason := sr;
     am_errorMessage := None; am_timestamp := 0 |}.

Definition modelA : Model := {| m_id := "m1"; m_api := "messages"; m_provider := "a" |}.

Definition userOf (s : string) : Message :=
  MUser {| um_content := CString s; um_timestamp := 0 |}.

Definition resultOf (id : string) : Message :=
  MToolResult {| tr_toolCallId := id; tr_toolName := "ls";
                 tr_content := [UText {| text := "a.txt"; textSignature := None |}];
                 tr_details := None; tr_isError := false; tr_timestamp := 0 |}.

(** A normalizer that is not idempotent: it appends a character. *)
Definition appendX : Normalizer := fun id _ _ => String.append id "x".

(** A normalizer that cuts ids to at most four characters. *)
Definition take4 : Normalizer := fun id _ _ => String.substring 0 4 id.

(** A history written by provider "b", replayed to [modelA]. *)
Definition foreignHistory : list Message :=
  [ userOf "list files";
    MAssistant (assistantOf "b"
      [BThinking {| thinking := "hm"; thinkingSignature := Some "sig" |};
       BToolCall (callOf "call_123456")] StopToolUse);
    resultOf "call_123456";
    MAssistant (assistantOf "b" [BToolCall (callOf "call_2")] StopToolUse);
    userOf "stop" ].

Definition stringifyStub : Json → string := fun _ => "{}".

Definition userEntry (s : string) : SessionEntry :=
  EMessage (AUser {| um_content := CString s; um_timestamp := 0 |}).

Definition assistantEntry (s : string) : SessionEntry :=
  EMessage (AAssistant
    {| am_content := [BText {| text := s; textSignature := None |}];
       am_api := "messages"; am_provider := "a"; am_model := "m1";
       am_usage := {| u_input := 0; u_output := 0; u_cacheRead := 0; u_cacheWrite := 0;
                      u_totalTokens := 0; u_cost := 0 |};
       am_stopReason := StopStop; am_errorMessage := None; am_timestamp := 0 |}).

Definition toolResultEntry (s : string) : SessionEntry :=
  EMessage (AToolResult
    {| tr_toolCallId := "x"; tr_toolName := "ls";
       tr_content := [UText {| text := s; textSignature := None |}];
       tr_details := None; tr_isError := false; tr_timestamp := 0 |}).

(** Scenario S3: three calls A, B, C of unknown tools; the steering source
    answers after B. *)
Definition callNamed (id : string) : ToolCall :=
  {| tc_id := id; tc_name := "ls"; tc_arguments := emptyObject; tc_thoughtSignature := None |}.

Definition threeCalls : AssistantMessage :=
  {| am_content := [BToolCall (callNamed "A"); BToolCall (callNamed "B");
                    BToolCall (callNamed "C")];
     am_api := "messages"; am_provider := "a"; am_model := "m1";
     am_usage := {| u_input := 0; u_output := 0; u_cacheRead := 0; u_cacheWrite := 0;
                    u_totalTokens := 0; u_cost := 0 |};
     am_stopReason := StopToolUse; am_errorMessage := None; am_timestamp := 0 |}.

Definition lsTool : AgentTool :=
  {| name := "ls"; label := "List files";
     execute := fun _ _ =>
       {| updates := [];
          outcome := Returned
            {| r_content := [UText {| text := "a.txt"; textSignature := None |}];
               r_details := Some emptyObject |} |} |}.



Definition parseStub : string → Json := fun _ => JObj [("path", JStr ".")].

Definition modelB : Model := {| m_id := "m1"; m_api := "messages"; m_provider := "a" |}.

Definition snapshot (content : list AssistantBlock) (reason : StopReason) : AssistantMessage :=
  {| am_content := content; am_api := "messages"; am_provider := "a"; am_model := "m1";
     am_usage := {| u_input := 3; u_output := 5; u_cacheRead := 0; u_cacheWrite := 0;
                    u_totalTokens := 8; u_cost := 0 |};
     am_stopReason := reason; am_errorMessage := None; am_timestamp := 0 |}.

Definition signedCall : ToolCall :=
  {| tc_id := "c1"; tc_name := "ls"; tc_arguments := emptyObject;
     tc_thoughtSignature := Some "sig" |}.

(** A stream with one tool call that carries a [thoughtSignature]. *)
Definition signedCallStream : list AssistantMessageEvent :=
  [ ev_start (snapshot [] StopStop);
    ev_toolcall_start 0 (snapshot [BToolCall signedCall] StopStop);
    ev_toolcall_end 0 signedCall (snapshot [BToolCall signedCall] StopStop);
    ev_done StopToolUse (snapshot [BToolCall signedCall] StopToolUse) ].

(** Scenario S1 with a thinking block and a streamed tool call. *)
Definition sampleStream : list AssistantMessageEvent :=
  [ ev_start (snapshot [] StopStop);
    ev_text_start 0 (snapshot [BText {| text := ""; textSignature := None |}] StopStop);
    ev_text_delta 0 "Hello!"
      (snapshot [BText {| text := "Hello!"; textSignature := None |}] StopStop);
    ev_text_end 0 "Hello!"
      (snapshot [BText {| text := "Hello!"; textSignature := Some "s" |}] StopStop);
    ev_toolcall_start 1
      (snapshot [BText {| text := "Hello!"; textSignature := Some "s" |};
                 BToolCall {| tc_id := "c1"; tc_name := "ls"; tc_arguments := emptyObject;
                              tc_thoughtSignature := None |}] StopStop);
    ev_toolcall_delta 1 "{}"
      (snapshot [BText {| text := "Hello!"; textSignature := Some "s" |};
                 BToolCall {| tc_id := "c1"; tc_name := "ls";
                              tc_arguments := JObj [("path", JStr ".")];
                              tc_thoughtSignature := None |}] StopStop);
    ev_toolcall_end 1
      {| tc_id := "c1"; tc_name := "ls"; tc_arguments := JObj [("path", JStr ".")];
         tc_thoughtSignature := None |}
      (snapshot [BText {| text := "Hello!"; textSignature := Some "s" |};
                 BToolCall {| tc_id := "c1"; tc_name := "ls";
                              tc_arguments := JObj [("path", JStr ".")];
                              tc_thoughtSignature := None |}] StopStop);
    ev_done StopToolUse
      (snapshot [BText {| text := "Hello!"; textSignature := Some "s" |};
                 BToolCall {| tc_id := "c1"; tc_name := "ls";
                              tc_arguments := JObj [("path", JStr ".")];
                              tc_thoughtSignature := None |}] StopToolUse) ].

End Scenarios.

(** ** simple-options: token limits for extended thinking *)

Module SimpleOptions.

Inductive ThinkingLevel := Minimal | Low | Medium | High | XHigh.

(** A key of a [ThinkingBudgets] object: absent, present with the value
    [undefined], or present with a number. *)
Inductive BudgetEntry :=
| Absent
| Undefined
| Value (tokens : Z).

(** [ThinkingBudgets]: a budget per level, each of them optional. *)
Record ThinkingBudgets := {
  b_minimal : BudgetEntry;
  b_low : BudgetEntry;
  b_medium : BudgetEntry;
  b_high : BudgetEntry
}.

(** [Number.MAX_SAFE_INTEGER], 2^53 - 1. *)
Definition MAX_SAFE_INTEGER : Z := 9007199254740991%Z.

(** [Number.isSafeInteger]: on these integers the additions and
    subtractions of the code, which are those of doubles, are exact. *)
Definition isSafeInteger (z : Z) : bool :=
  ((- MAX_SAFE_INTEGER <=? z) && (z <=? MAX_SAFE_INTEGER))%Z.

(** What [adjustMaxTokensForThinking] returns.  Token counts are integers;
    the embedding follows the code as long as every number it meets is a
    safe integer and says [OutsideSafeIntegers] otherwise, where the code
    goes on with rounded doubles. *)
Inductive Adjusted :=
| Tokens (maxTokens thinkingBudget : Z)
| NotANumber
| OutsideSafeIntegers.

(** [effort === "xhigh" ? "high" : effort] *)
Definition clampReasoning (effort : option ThinkingLevel) : option ThinkingLevel :=
  match effort with
  | Some XHigh => Some High
  | _ => effort
  end.

Definition defaultBudgets : ThinkingBudgets :=
  {| b_minimal := Value 1024; b_low := Value 2048;
     b_medium := Value 8192; b_high := Value 16384 |}.

(** One key of [{ ...defaultBudgets, ...customBudgets }]: a key that is
    present in [customBudgets] is copied, also when its value is
    [undefined]. *)
Definition spreadKey (base custom : BudgetEntry) : BudgetEntry :=
  match custom with
  | Absent => base
  | _ => custom
  end.

(** [{ ...base, ...custom }]; spreading [undefined] adds nothing. *)
Definition spread (base : ThinkingBudgets) (custom : option ThinkingBudgets) : ThinkingBudgets :=
  match custom with
  | None => base
  | Some c =>
      {| b_minimal := spreadKey (b_minimal base) (b_minimal c);
         b_low := spreadKey (b_low base) (b_low c);
         b_medium := spreadKey (b_medium base) (b_medium c);
         b_high := spreadKey (b_high base) (b_high c) |}
  end.

(** [budgets[level]]; the object has no key [xhigh], and none for a level
    that is [undefined]. *)
Definition budgetOf (budgets : ThinkingBudgets) (level : option ThinkingLevel) : BudgetEntry :=
  match level with
  | Some Minimal => b_minimal budgets
  | Some Low => b_low budgets
  | Some Medium => b_medium budgets
  | Some High => b_high budgets
  | Some XHigh => Absent
  | None => Absent
  end.

(** [adjustMaxTokensForThinking].  The non-null assertions of the source do
    nothing when the program runs: with a budget that is [undefined] the sum
    is NaN, so is [Math.min] of it, the comparison [maxTokens <=
    thinkingBudget] is false, and the result is [{ maxTokens: NaN,
    thinkingBudget: undefined }]. *)
Definition adjustMaxTokensForThinking (baseMaxTokens modelMaxTokens : Z)
    (reasoningLevel : ThinkingLevel) (customBudgets : option ThinkingBudgets)
  : Adjusted :=
  let budgets := spread defaultBudgets customBudgets in
  let minOutputTokens := 1024%Z in
  let level := clampReasoning (Some reasoningLevel) in
  match budgetOf budgets level with
  | Value thinkingBudget =>
      let maxTokens := Z.min (baseMaxTokens + thinkingBudget) modelMaxTokens in
      if isSafeInteger baseMaxTokens && isSafeInteger modelMaxTokens
         && isSafeInteger thinkingBudget
         && isSafeInteger (baseMaxTokens + thinkingBudget)
         && isSafeInteger (maxTokens - minOutputTokens)
      then
        if (maxTokens <=? thinkingBudget)%Z
        then Tokens maxTokens (Z.max 0 (maxTokens - minOutputTokens))
        else Tokens maxTokens thinkingBudget
      else OutsideSafeIntegers
  | _ => NotANumber
  end.

(** The budget the function starts from: the caller's entry for the
    clamped level where it has one, else the default of that level. *)
Definition requestedBudget (reasoningLevel : ThinkingLevel)
    (customBudgets : option ThinkingBudgets) : BudgetEntry :=
  budgetOf (spread defaultBudgets customBudgets) (clampReasoning (Some reasoningLevel)).

End SimpleOptions.

(** ** api-registry: the table from an api name to its stream functions *)

Module ApiRegistry.
Import Ai.

Section Registry.

(** [Context], [StreamOptions], [SimpleStreamOptions] and
    [AssistantMessageEventStream]. *)
Context {C O OS S : Type}.

Record ApiProvider := {
  api : string;
  stream : Model -> C -> option O -> S;
  streamSimple : Model -> C -> option OS -> S
}.

(** The registered functions either throw an [Error] with a message or
    return the stream. *)
Record ApiProviderInternal := {
  i_api : string;
  i_stream : Model -> C -> option O -> string + S;
  i_streamSimple : Model -> C -> option OS -> string + S
}.

Record RegisteredApiProvider := {
  provider : ApiProviderInternal;
  sourceId : option string
}.

Definition mismatched (modelApi api : string) : string :=
  String.append "Mismatched api: " (String.append modelApi (String.append " expected " api)).

Definition wrapStream (api : string) (stream : Model -> C -> option O -> S)
  : Model -> C -> option O -> string + S :=
  fun model context options =>
    if negb (String.eqb (m_api model) api) then inl (mismatched (m_api model) api)
    else inr (stream model context options).

Definition wrapStreamSimple (api : string) (streamSimple : Model -> C -> option OS -> S)
  : Model -> C -> option OS -> string + S :=
  fun model context options =>
    if negb (String.eqb (m_api model) api) then inl (mismatched (m_api model) api)
    else inr (streamSimple model context options).

Definition registerApiProvider (p : ApiProvider) (sourceId : option string)
    (apiProviderRegistry : gmap string RegisteredApiProvider) : gmap string RegisteredApiProvider :=
  <[ api p := {| provider := {| i_api := api p;
                                i_stream := wrapStream (api p) (stream p);
                                i_streamSimple := wrapStreamSimple (api p) (streamSimple p) |};
                 sourceId := sourceId |} ]> apiProviderRegistry.

(** [apiProviderRegistry.get(api)?.provider] *)
Definition getApiProvider (api : string) (apiProviderRegistry : gmap string RegisteredApiProvider)
  : option ApiProviderInternal :=
  provider <$> apiProviderRegistry !! api.

(** [entry.sourceId === sourceId] *)
Definition fromSource (id : string) (entry : RegisteredApiProvider) : bool :=
  match sourceId entry with
  | Some s => String.eqb s id
  | None => false
  end.

(** Deletes every entry registered under [sourceId]. *)
Definition unregisterApiProviders (id : string) (apiProviderRegistry : gmap string RegisteredApiProvider) : gmap string RegisteredApiProvider :=
  filter (fun kv => fromSource id kv.2 = false) apiProviderRegistry.

Definition clearApiProviders (apiProviderRegistry : gmap string RegisteredApiProvider) : gmap string RegisteredApiProvider := ∅.

(** A call of one of the exported functions that change the registry, and
    the registry after a history of such calls. *)
Inductive RegistryCall :=
| Register (p : ApiProvider) (sourceId : option string)
| Unregister (sourceId : string)
| Clear.

Definition call (apiProviderRegistry : gmap string RegisteredApiProvider) (c : RegistryCall)
  : gmap string RegisteredApiProvider :=
  match c with
  | Register p sourceId => registerApiProvider p sourceId apiProviderRegistry
  | Unregister sourceId => unregisterApiProviders sourceId apiProviderRegistry
  | Clear => clearApiProviders apiProviderRegistry
  end.

Definition calls (history : list RegistryCall) : gmap string RegisteredApiProvider :=
  foldl call ∅ history.

(** The stream functions of the nine built-in providers. *)
Variables streamAnthropic streamOpenAICompletions streamOpenAIResponses
  streamAzureOpenAIResponses streamOpenAICodexResponses streamGoogle
  streamGoogleGeminiCli streamGoogleVertex streamBedrock : Model -> C -> option O -> S.
Variables streamSimpleAnthropic streamSimpleOpenAICompletions streamSimpleOpenAIResponses
  streamSimpleAzureOpenAIResponses streamSimpleOpenAICodexResponses streamSimpleGoogle
  streamSimpleGoogleGeminiCli streamSimpleGoogleVertex streamSimpleBedrock
  : Model -> C -> option OS -> S.

Definition registerBuiltInApiProviders (apiProviderRegistry : gmap string RegisteredApiProvider) : gmap string RegisteredApiProvider :=
  let r1 := registerApiProvider
    {| api := "anthropic-messages"; stream := streamAnthropic;
       streamSimple := streamSimpleAnthropic |} None apiProviderRegistry in
  let r2 := registerApiProvider
    {| api := "openai-completions"; stream := streamOpenAICompletions;
       streamSimple := streamSimpleOpenAICompletions |} None r1 in
  let r3 := registerApiProvider
    {| api := "openai-responses"; stream := streamOpenAIResponses;
       streamSimple := streamSimpleOpenAIResponses |} None r2 in
  let r4 := registerApiProvider
    {| api := "azure-openai-responses"; stream := streamAzureOpenAIResponses;
       streamSimple := streamSimpleAzureOpenAIResponses |} None r3 in
  let r5 := registerApiProvider
    {| api := "openai-codex-responses"; stream := streamOpenAICodexResponses;
       streamSimple := streamSimpleOpenAICodexResponses |} None r4 in
  let r6 := registerApiProvider
    {| api := "google-generative-ai"; stream := streamGoogle;
       streamSimple := streamSimpleGoogle |} None r5 in
  let r7 := registerApiProvider
    {| api := "google-gemini-cli"; stream := streamGoogleGeminiCli;
       streamSimple := streamSimpleGoogleGeminiCli |} None r6 in
  let r8 := registerApiProvider
    {| api := "google-vertex"; stream := streamGoogleVertex;
       streamSimple := streamSimpleGoogleVertex |} None r7 in
  registerApiProvider
    {| api := "bedrock-converse-stream"; stream := streamBedrock;
       streamSimple := streamSimpleBedrock |} None r8.

Definition resetApiProviders (apiProviderRegistry : gmap string RegisteredApiProvider) : gmap string RegisteredApiProvider :=
  registerBuiltInApiProviders (clearApiProviders apiProviderRegistry).

End Registry.

(** The api names of the built-in providers. *)
Definition builtInApis : list string :=
  [ "anthropic-messages"; "openai-completions"; "openai-responses";
    "azure-openai-responses"; "openai-codex-responses"; "google-generative-ai";
    "google-gemini-cli"; "google-vertex"; "bedrock-converse-stream" ].

End ApiRegistry.

(** ** Compaction: context usage and the preparation of a compaction *)

Module CompactionPrepare.
Import Ai Compaction.

Record CompactionSettings := {
  enabled : bool;
  reserveTokens : Z;
  keepRecentTokens : Z
}.

Definition DEFAULT_COMPACTION_SETTINGS : CompactionSettings :=
  {| enabled := true; reserveTokens := 16384%Z; keepRecentTokens := 20000%Z |}.

(** The message an entry contributes to the context, if it does. *)
Definition getMessageFromEntry (entry : SessionEntry) : option AgentMessage :=
  match entry with
  | EMessage message => Some message
  | ECustomMessage customType content => Some (ACustom customType content)
  | EBranchSummary summary _ => Some (ABranchSummary summary)
  | ECompaction summary _ _ => Some (ACompactionSummary summary)
  | _ => None
  end.

(** [usage.totalTokens || usage.input + usage.output + usage.cacheRead + usage.cacheWrite] *)
Definition calculateContextTokens (usage : Usage) : Z :=
  if (u_totalTokens usage =? 0)%Z
  then (u_input usage + u_output usage + u_cacheRead usage + u_cacheWrite usage)%Z
  else u_totalTokens usage.

Definition getAssistantUsage (msg : AgentMessage) : option Usage :=
  match msg with
  | AAssistant assistantMsg =>
      match am_stopReason assistantMsg with
      | StopAborted | StopError => None
      | _ => Some (am_usage assistantMsg)
      end
  | _ => None
  end.

(** [for (let i = entries.length - 1; i >= 0; i--)], with [i = steps - 1]. *)
Fixpoint getLastAssistantUsageLoop (entries : list SessionEntry) (steps : nat) : option Usage :=
  match steps with
  | O => None
  | S i =>
      match entries !! i with
      | Some (EMessage message) =>
          match getAssistantUsage message with
          | Some usage => Some usage
          | None => getLastAssistantUsageLoop entries i
          end
      | _ => getLastAssistantUsageLoop entries i
      end
  end.

Definition getLastAssistantUsage (entries : list SessionEntry) : option Usage :=
  getLastAssistantUsageLoop entries (length entries).

Record ContextUsageEstimate := {
  tokens : Z;
  usageTokens : Z;
  trailingTokens : Z;
  lastUsageIndex : option nat
}.

(** [for (let i = messages.length - 1; i >= 0; i--)], with [i = steps - 1]. *)
Fixpoint getLastAssistantUsageInfoLoop (messages : list AgentMessage) (steps : nat)
  : option (Usage * nat) :=
  match steps with
  | O => None
  | S i =>
      match messages !! i ≫= getAssistantUsage with
      | Some usage => Some (usage, i)
      | None => getLastAssistantUsageInfoLoop messages i
      end
  end.

Definition getLastAssistantUsageInfo (messages : list AgentMessage) : option (Usage * nat) :=
  getLastAssistantUsageInfoLoop messages (length messages).

Section Estimate.

Variable JSON_stringify : Json -> string.

(** [for (...) estimated += estimateTokens(message)] *)
Definition sumEstimates (messages : list AgentMessage) : Z :=
  foldl (fun estimated message => (estimated + estimateTokens JSON_stringify message)%Z)
        0%Z messages.

Definition estimateContextTokens (messages : list AgentMessage) : ContextUsageEstimate :=
  match getLastAssistantUsageInfo messages with
  | None =>
      let estimated := sumEstimates messages in
      {| tokens := estimated; usageTokens := 0%Z; trailingTokens := estimated;
         lastUsageIndex := None |}
  | Some (usage, index) =>
      let usageTokens := calculateContextTokens usage in
      let trailingTokens := sumEstimates (drop (S index) messages) in
      {| tokens := (usageTokens + trailingTokens)%Z; usageTokens := usageTokens;
         trailingTokens := trailingTokens; lastUsageIndex := Some index |}
  end.

Definition shouldCompact (contextTokens contextWindow : Z) (settings : CompactionSettings)
  : bool :=
  if negb (enabled settings) then false
  else (contextWindow - reserveTokens settings <? contextTokens)%Z.

(** An entry of the session path: the entry and its [id], which sessions
    written before ids were introduced lack. *)
Record PathEntry := { id : option string; entry : SessionEntry }.

Definition isCompactionEntry (e : SessionEntry) : bool :=
  match e with
  | ECompaction _ _ _ => true
  | _ => false
  end.

(** [for (let i = pathEntries.length - 1; i >= 0; i--)] looking for the last
    compaction entry, with [i = steps - 1]; [-1] when there is none. *)
Fixpoint findPrevCompactionIndex (pathEntries : list PathEntry) (steps : nat) : Z :=
  match steps with
  | O => (-1)%Z
  | S i =>
      match pathEntries !! i with
      | Some e => if isCompactionEntry (entry e) then Z.of_nat i
                  else findPrevCompactionIndex pathEntries i
      | None => findPrevCompactionIndex pathEntries i
      end
  end.

(** [for (let i = from; i < to; i++) { const msg = getMessageFromEntry(pathEntries[i]);
    if (msg) out.push(msg); }]; [None] is the TypeError of an index outside
    the array. *)
Fixpoint collectMessagesLoop (pathEntries : list PathEntry) (i steps : nat)
  : option (list AgentMessage) :=
  match steps with
  | O => Some []
  | S steps' =>
      e ← pathEntries !! i;
      rest ← collectMessagesLoop pathEntries (S i) steps';
      Some (match getMessageFromEntry (entry e) with
            | Some msg => msg :: rest
            | None => rest
            end)
  end.

Definition collectMessages (pathEntries : list PathEntry) (from to : Z)
  : option (list AgentMessage) :=
  if (to <=? from)%Z then Some []
  else if (from <? 0)%Z then None
  else collectMessagesLoop pathEntries (Z.to_nat from) (Z.to_nat (to - from)).

(** [FileOperations] and the two functions of [utils.ts] that fill it. *)
Context {FileOperations : Type}.
Variable extractFileOperations : list AgentMessage -> list PathEntry -> Z -> FileOperations.
Variable extractFileOpsFromMessage : AgentMessage -> FileOperations -> FileOperations.

Record CompactionPreparation := {
  cp_firstKeptEntryId : string;
  cp_messagesToSummarize : list AgentMessage;
  cp_turnPrefixMessages : list AgentMessage;
  cp_isSplitTurn : bool;
  cp_tokensBefore : Z;
  cp_previousSummary : option string;
  cp_fileOps : FileOperations;
  cp_settings : CompactionSettings
}.

(** [prepareCompaction]; [None] is [undefined] or a TypeError. *)
Definition prepareCompaction (pathEntries : list PathEntry) (settings : CompactionSettings)
  : option CompactionPreparation :=
  if match last pathEntries with
     | Some e => isCompactionEntry (entry e)
     | None => false
     end
  then None
  else
    let prevCompactionIndex := findPrevCompactionIndex pathEntries (length pathEntries) in
    let boundaryStart := Z.to_nat (prevCompactionIndex + 1) in
    let boundaryEnd := length pathEntries in
    let usageStart := if (0 <=? prevCompactionIndex)%Z then prevCompactionIndex else 0%Z in
    usageMessages ← collectMessages pathEntries usageStart (Z.of_nat boundaryEnd);
    let tokensBefore := tokens (estimateContextTokens usageMessages) in
    cutPoint ← findCutPoint JSON_stringify (map entry pathEntries) boundaryStart boundaryEnd
                 (keepRecentTokens settings);
    firstKeptEntry ← pathEntries !! firstKeptEntryIndex cutPoint;
    if negb (truthy (id firstKeptEntry)) then None
    else
      firstKeptEntryId ← id firstKeptEntry;
      let historyEnd := if isSplitTurn cutPoint then turnStartIndex cutPoint
                        else Z.of_nat (firstKeptEntryIndex cutPoint) in
      messagesToSummarize ← collectMessages pathEntries (Z.of_nat boundaryStart) historyEnd;
      turnPrefixMessages ←
        (if isSplitTurn cutPoint
         then collectMessages pathEntries (turnStartIndex cutPoint)
                (Z.of_nat (firstKeptEntryIndex cutPoint))
         else Some []);
      let previousSummary :=
        if (0 <=? prevCompactionIndex)%Z
        then match pathEntries !! Z.to_nat prevCompactionIndex with
             | Some {| entry := ECompaction summary _ _ |} => Some summary
             | _ => None
             end
        else None in
      let fileOps0 :=
        extractFileOperations messagesToSummarize pathEntries prevCompactionIndex in
      let fileOps :=
        if isSplitTurn cutPoint
        then foldl (fun ops msg => extractFileOpsFromMessage msg ops) fileOps0 turnPrefixMessages
        else fileOps0 in
      Some {| cp_firstKeptEntryId := firstKeptEntryId;
              cp_messagesToSummarize := messagesToSummarize;
              cp_turnPrefixMessages := turnPrefixMessages;
              cp_isSplitTurn := isSplitTurn cutPoint;
              cp_tokensBefore := tokensBefore;
              cp_previousSummary := previousSummary;
              cp_fileOps := fileOps;
              cp_settings := settings |}.

End Estimate.

(** Notions used to state the properties. *)

(** The sum of the estimates of a list of messages. *)
Definition totalEstimate (JSON_stringify : Json -> string) (messages : list AgentMessage) : Z :=
  foldr (fun message acc => (estimateTokens JSON_stringify message + acc)%Z) 0%Z messages.

(** The messages contributed by the entries at positions [from, to). *)
Definition messagesBetween (pathEntries : list PathEntry) (from to : nat) : list AgentMessage :=
  omap (fun e => getMessageFromEntry (entry e)) (take (to - from) (drop from pathEntries)).

End CompactionPrepare.

(** ** messages: the coding agent's own message kinds and their conversion *)

Module Messages.
Import Ai.

(** A line feed. *)
Definition nl : string := String "010"%char EmptyString.

Definition COMPACTION_SUMMARY_PREFIX : string :=
  String.append "The conversation history before this point was compacted into the following summary:"
    (String.append nl (String.append nl (String.append "<summary>" nl))).

Definition COMPACTION_SUMMARY_SUFFIX : string := String.append nl "</summary>".

Definition BRANCH_SUMMARY_PREFIX : string :=
  String.append "The following is a summary of a branch that this conversation came back from:"
    (String.append nl (String.append nl (String.append "<summary>" nl))).

Definition BRANCH_SUMMARY_SUFFIX : string := "</summary>".

Record BashExecutionMessage := {
  command : string;
  output : string;
  exitCode : option Z;
  cancelled : bool;
  truncated : bool;
  fullOutputPath : option string;
  be_timestamp : Z;
  excludeFromContext : option bool
}.

Record CustomMessage := {
  customType : string;
  cm_content : UserContent;
  display : bool;
  cm_details : option Json;
  cm_timestamp : Z
}.

Record BranchSummaryMessage := { bs_summary : string; fromId : string; bs_timestamp : Z }.

Record CompactionSummaryMessage := {
  cs_summary : string;
  tokensBefore : Z;
  cs_timestamp : Z
}.

(** [AgentMessage]: the LM messages and the four kinds added by declaration
    merging. *)
Inductive AgentMessage :=
| Llm (m : Message)
| BashExecution (m : BashExecutionMessage)
| Custom (m : CustomMessage)
| BranchSummary (m : BranchSummaryMessage)
| CompactionSummary (m : CompactionSummaryMessage).

Definition textBlock (s : string) : UserBlock := UText {| text := s; textSignature := None |}.

Section Convert.

(** How a template literal prints a number. *)
Variable numberToString : Z -> string.

Definition bashExecutionToText (msg : BashExecutionMessage) : string :=
  let text0 := String.append "Ran `" (String.append (command msg) (String.append "`" nl)) in
  let text1 :=
    if negb (String.eqb (output msg) "")
    then String.append text0
           (String.append "```" (String.append nl (String.append (output msg)
              (String.append nl "```"))))
    else String.append text0 "(no output)" in
  let text2 :=
    if cancelled msg
    then String.append text1 (String.append nl (String.append nl "(command cancelled)"))
    else match exitCode msg with
         | Some code =>
             if negb (code =? 0)%Z
             then String.append text1
                    (String.append nl (String.append nl
                       (String.append "Command exited with code " (numberToString code))))
             else text1
         | None => text1
         end in
  if truncated msg && truthy (fullOutputPath msg)
  then String.append text2
         (String.append nl (String.append nl
            (String.append "[Output truncated. Full output: "
               (String.append (default "" (fullOutputPath msg)) "]"))))
  else text2.

(** The callback of [messages.map]: the converted message, or [undefined]. *)
Definition convertMessage (m : AgentMessage) : option Message :=
  match m with
  | BashExecution b =>
      if default false (excludeFromContext b) then None
      else Some (MUser {| um_content := CBlocks [textBlock (bashExecutionToText b)];
                          um_timestamp := be_timestamp b |})
  | Custom c =>
      let content :=
        match cm_content c with
        | CString s => [textBlock s]
        | CBlocks blocks => blocks
        end in
      Some (MUser {| um_content := CBlocks content; um_timestamp := cm_timestamp c |})
  | BranchSummary b =>
      Some (MUser {| um_content :=
                       CBlocks [textBlock (String.append BRANCH_SUMMARY_PREFIX
                                  (String.append (bs_summary b) BRANCH_SUMMARY_SUFFIX))];
                     um_timestamp := bs_timestamp b |})
  | CompactionSummary c =>
      Some (MUser {| um_content :=
                       CBlocks [textBlock (String.append COMPACTION_SUMMARY_PREFIX
                                  (String.append (cs_summary c) COMPACTION_SUMMARY_SUFFIX))];
                     um_timestamp := cs_timestamp c |})
  | Llm m => Some m
  end.

(** [messages.map(...).filter((m) => m !== undefined)] *)
Definition convertToLlm (messages : list AgentMessage) : list Message :=
  omap id (map convertMessage messages).

End Convert.

(** Notions used to state the properties. *)

(** A bash execution marked as not for the model. *)
Definition isExcluded (m : AgentMessage) : bool :=
  match m with
  | BashExecution b => default false (excludeFromContext b)
  | _ => false
  end.

(** An LM message that is not a user message, as it stands in the input. *)
Definition modelTurnOf (m : AgentMessage) : option Message :=
  match m with
  | Llm (MAssistant a) => Some (MAssistant a)
  | Llm (MToolResult r) => Some (MToolResult r)
  | _ => None
  end.

Definition modelTurn (m : Message) : option Message :=
  match m with
  | MUser _ => None
  | _ => Some m
  end.

End Messages.

(** ** Strings of the host language *)

Module Js.
Import Ai.

(** [s.startsWith(p)] *)
Definition startsWith (p s : string) : bool := String.prefix p s.

(** [s.slice(n)] for [n >= 0]. *)
Fixpoint slice (n : nat) (s : string) : string :=
  match n, s with
  | O, _ => s
  | S n', String _ rest => slice n' rest
  | S _, EmptyString => EmptyString
  end.

Fixpoint trimStart (s : string) : string :=
  match s with
  | String c rest => if isWhiteSpace c then trimStart rest else s
  | EmptyString => EmptyString
  end.

Fixpoint trimEnd (s : string) : string :=
  match s with
  | String c rest =>
      let rest' := trimEnd rest in
      if isWhiteSpace c && String.eqb rest' "" then EmptyString else String c rest'
  | EmptyString => EmptyString
  end.

(** [s.trim()] *)
Definition trim (s : string) : string := trimEnd (trimStart s).

(** [s.replace(/c/g, by)] for a single character [c]. *)
Fixpoint replaceAll (c : ascii) (by_ : string) (s : string) : string :=
  match s with
  | String a rest =>
      if Ascii.eqb a c then String.append by_ (replaceAll c by_ rest)
      else String a (replaceAll c by_ rest)
  | EmptyString => EmptyString
  end.

(** [map.get(key)] on a [Map] kept in insertion order. *)
Fixpoint mapGet {V} (key : string) (m : list (string * V)) : option V :=
  match m with
  | [] => None
  | (k, v) :: rest => if String.eqb k key then Some v else mapGet key rest
  end.

(** The double quote. *)
Definition quote : ascii := "034"%char.

(** [s.endsWith(suffix)]: some tail of [s] is [suffix]. *)
Fixpoint endsWith (suffix s : string) : bool :=
  String.eqb s suffix
  || match s with
     | String _ rest => endsWith suffix rest
     | EmptyString => false
     end.

(** [s.includes(sub)]: some tail of [s] starts with [sub]. *)
Fixpoint includes (sub s : string) : bool :=
  startsWith sub s
  || match s with
     | String _ rest => includes sub rest
     | EmptyString => false
     end.

Fixpoint allChars (p : ascii -> bool) (s : string) : bool :=
  match s with
  | String c rest => p c && allChars p rest
  | EmptyString => true
  end.

End Js.

(** ** resource-loader: merging paths and removing duplicate prompts *)

Module ResourceLoader.
Import Ai Js.

Record Collision := {
  resourceType : string;
  c_name : string;
  winnerPath : string;
  loserPath : string
}.

Record ResourceDiagnostic := {
  d_type : string;
  d_message : string;
  d_path : string;
  d_collision : option Collision
}.

Section Loader.

(** [this.cwd], [homedir()], [join] and [resolve] of [node:path]. *)
Variables cwd homedir : string.
Variables join resolve : string -> string -> string.

Definition resolveResourcePath (p : string) : string :=
  let trimmed := trim p in
  let expanded :=
    if String.eqb trimmed "~" then homedir
    else if startsWith "~/" trimmed then join homedir (slice 2 trimmed)
    else if startsWith "~" trimmed then join homedir (slice 1 trimmed)
    else trimmed in
  resolve cwd expanded.

Record MergeState := { merged : list string; seen : gset string }.

(** The body of the loop of [mergePaths]. *)
Definition mergeStep (st : MergeState) (p : string) : MergeState :=
  let resolved := resolveResourcePath p in
  if decide (resolved ∈ seen st) then st
  else {| merged := merged st ++ [resolved]; seen := {[ resolved ]} ∪ seen st |}.

Definition mergePaths (primary additional : list string) : list string :=
  merged (foldl mergeStep {| merged := []; seen := ∅ |} (primary ++ additional)).

End Loader.

Section Prompts.

(** [PromptTemplate], of which the loader reads [name] and [filePath]. *)
Context {PromptTemplate : Type}.
Variable name : PromptTemplate -> string.
Variable filePath : PromptTemplate -> string.

Record DedupeState := {
  seenPrompts : list (string * PromptTemplate);
  diagnostics : list ResourceDiagnostic
}.

Definition collisionMessage (shown : string) : string :=
  String.append "name " (String quote (String.append shown (String quote " collision"))).

(** The body of the loop of [dedupePrompts]. *)
Definition dedupeStep (st : DedupeState) (prompt : PromptTemplate) : DedupeState :=
  match mapGet (name prompt) (seenPrompts st) with
  | Some existing =>
      {| seenPrompts := seenPrompts st;
         diagnostics := diagnostics st
           ++ [ {| d_type := "collision";
                   d_message := collisionMessage (String.append "/" (name prompt));
                   d_path := filePath prompt;
                   d_collision := Some {| resourceType := "prompt";
                                          c_name := name prompt;
                                          winnerPath := filePath existing;
                                          loserPath := filePath prompt |} |} ] |}
  | None =>
      {| seenPrompts := seenPrompts st ++ [(name prompt, prompt)];
         diagnostics := diagnostics st |}
  end.

(** [dedupePrompts]: the prompts kept, [Array.from(seen.values())], and the
    diagnostics. *)
Definition dedupePrompts (prompts : list PromptTemplate)
  : list PromptTemplate * list ResourceDiagnostic :=
  let st := foldl dedupeStep {| seenPrompts := []; diagnostics := [] |} prompts in
  (map snd (seenPrompts st), diagnostics st).

(** What holds of the state of the loop of [dedupePrompts] once the prompts
    [processed] have gone through it. *)
Definition dedupeInv (processed : list PromptTemplate) (st : DedupeState) : Prop :=
  Forall (fun kv => kv.1 = name kv.2) (seenPrompts st)
  ∧ NoDup (map fst (seenPrompts st))
  ∧ (∀ w, w ∈ map snd (seenPrompts st) →
       ∃ pre post, processed = pre ++ w :: post ∧ Forall (fun q => name q ≠ name w) pre)
  ∧ (∀ p, p ∈ processed → ∃ w, w ∈ map snd (seenPrompts st) ∧ name w = name p)
  ∧ length (seenPrompts st) + length (diagnostics st) = length processed
  ∧ (∀ d, d ∈ diagnostics st →
       ∃ w l, w ∈ map snd (seenPrompts st) ∧ l ∈ processed ∧ name w = name l
              ∧ d_path d = filePath l
              ∧ d_collision d = Some {| resourceType := "prompt"; c_name := name l;
                                        winnerPath := filePath w;
                                        loserPath := filePath l |}).

End Prompts.

End ResourceLoader.

(** ** skills: names, ignore rules, prompt rendering and loading *)

Module Skills.
Import Ai Js ResourceLoader.

Record Skill := {
  sk_name : string;
  sk_description : string;
  sk_filePath : string;
  sk_baseDir : string;
  sk_source : string;
  sk_disableModelInvocation : bool
}.

Record LoadSkillsResult := {
  skills : list Skill;
  r_diagnostics : list ResourceDiagnostic
}.

Definition MAX_NAME_LENGTH : nat := 64.

Definition MAX_DESCRIPTION_LENGTH : nat := 1024.

(** The class [[a-z0-9-]]. *)
Definition isNameChar (c : ascii) : bool :=
  let n := nat_of_ascii c in
  ((97 <=? n)%nat && (n <=? 122)%nat) || ((48 <=? n)%nat && (n <=? 57)%nat) || (n =? 45)%nat.

(** [/^[a-z0-9-]+$/.test(name)] *)
Definition matchesNamePattern (name : string) : bool :=
  negb (String.eqb name "") && allChars isNameChar name.

Definition quoted (s : string) : string :=
  String quote (String.append s (String quote EmptyString)).

Section Validate.

(** How a template literal prints a number. *)
Variable numberToString : nat -> string.

Definition validateName (name parentDirName : string) : list string :=
  (if negb (String.eqb name parentDirName)
   then [String.append "name "
           (String.append (quoted name)
              (String.append " does not match parent directory " (quoted parentDirName)))]
   else [])
  ++ (if (MAX_NAME_LENGTH <? String.length name)%nat
      then [String.append "name exceeds "
              (String.append (numberToString MAX_NAME_LENGTH)
                 (String.append " characters ("
                    (String.append (numberToString (String.length name)) ")")))]
      else [])
  ++ (if negb (matchesNamePattern name)
      then ["name contains invalid characters (must be lowercase a-z, 0-9, hyphens only)"]
      else [])
  ++ (if startsWith "-" name || endsWith "-" name
      then ["name must not start or end with a hyphen"]
      else [])
  ++ (if includes "--" name
      then ["name must not contain consecutive hyphens"]
      else []).

Definition validateDescription (description : option string) : list string :=
  if negb (truthy description) || String.eqb (trim (default "" description)) ""
  then ["description is required"]
  else if (MAX_DESCRIPTION_LENGTH <? String.length (default "" description))%nat
       then [String.append "description exceeds "
               (String.append (numberToString MAX_DESCRIPTION_LENGTH)
                  (String.append " characters ("
                     (String.append (numberToString (String.length (default "" description)))
                        ")")))]
       else [].

End Validate.

(** [prefixIgnorePattern]; [None] is [null]. *)
Definition prefixIgnorePattern (line prefix : string) : option string :=
  let trimmed := trim line in
  if String.eqb trimmed "" then None
  else if startsWith "#" trimmed && negb (startsWith "\#" trimmed) then None
  else
    let '(pattern, negated) :=
      if startsWith "!" line then (slice 1 line, true)
      else if startsWith "\!" line then (slice 1 line, false)
      else (line, false) in
    let pattern1 := if startsWith "/" pattern then slice 1 pattern else pattern in
    let prefixed := if negb (String.eqb prefix "") then String.append prefix pattern1
                    else pattern1 in
    Some (if negated then String.append "!" prefixed else prefixed).

(** [escapeXml]: five replacements, one after the other. *)
Definition escapeXml (str : string) : string :=
  replaceAll "'" "&apos;"
    (replaceAll quote "&quot;"
       (replaceAll ">" "&gt;"
          (replaceAll "<" "&lt;"
             (replaceAll "&" "&amp;" str)))).

Section Load.

(** [realpathSync]; [None] where it throws. *)
Variable realpathSync : string -> option string.

Record LoadState := {
  skillMap : list (string * Skill);
  realPathSet : gset string;
  allDiagnostics : list ResourceDiagnostic;
  collisionDiagnostics : list ResourceDiagnostic
}.

Definition realPathOf (skill : Skill) : string :=
  match realpathSync (sk_filePath skill) with
  | Some realPath => realPath
  | None => sk_filePath skill
  end.

Definition collisionOf (existing skill : Skill) : ResourceDiagnostic :=
  {| d_type := "collision";
     d_message := collisionMessage (sk_name skill);
     d_path := sk_filePath skill;
     d_collision := Some {| resourceType := "skill";
                            c_name := sk_name skill;
                            winnerPath := sk_filePath existing;
                            loserPath := sk_filePath skill |} |}.

(** The body of the loop of [addSkills]. *)
Definition addSkill (st : LoadState) (skill : Skill) : LoadState :=
  let realPath := realPathOf skill in
  if decide (realPath ∈ realPathSet st) then st
  else
    match mapGet (sk_name skill) (skillMap st) with
    | Some existing =>
        {| skillMap := skillMap st; realPathSet := realPathSet st;
           allDiagnostics := allDiagnostics st;
           collisionDiagnostics := collisionDiagnostics st ++ [collisionOf existing skill] |}
    | None =>
        {| skillMap := skillMap st ++ [(sk_name skill, skill)];
           realPathSet := {[ realPath ]} ∪ realPathSet st;
           allDiagnostics := allDiagnostics st;
           collisionDiagnostics := collisionDiagnostics st |}
    end.

(** [addSkills], the closure of [loadSkills] that merges one load result
    into the maps. *)
Definition addSkills (st : LoadState) (result : LoadSkillsResult) : LoadState :=
  foldl addSkill
    {| skillMap := skillMap st; realPathSet := realPathSet st;
       allDiagnostics := allDiagnostics st ++ r_diagnostics result;
       collisionDiagnostics := collisionDiagnostics st |}
    (skills result).

(** The maps [loadSkills] starts from. *)
Definition initialState : LoadState :=
  {| skillMap := []; realPathSet := ∅; allDiagnostics := []; collisionDiagnostics := [] |}.

(** What [loadSkills] returns from the maps. *)
Definition loadResult (st : LoadState) : LoadSkillsResult :=
  {| skills := map snd (skillMap st);
     r_diagnostics := allDiagnostics st ++ collisionDiagnostics st |}.

(** What holds of the maps of [loadSkills] once the skills [processed] have
    gone through [addSkills]. *)
Definition loadInv (processed : list Skill) (st : LoadState) : Prop :=
  Forall (fun kv => kv.1 = sk_name kv.2) (skillMap st)
  ∧ NoDup (map fst (skillMap st))
  ∧ NoDup (map realPathOf (map snd (skillMap st)))
  ∧ (∀ x, x ∈ realPathSet st ↔ x ∈ map realPathOf (map snd (skillMap st)))
  ∧ (∀ skill, skill ∈ processed →
       realPathOf skill ∈ map realPathOf (map snd (skillMap st))
       ∨ ∃ winner, winner ∈ map snd (skillMap st) ∧ sk_name winner = sk_name skill
                   ∧ collisionOf winner skill ∈ collisionDiagnostics st)
  ∧ (∀ d, d ∈ collisionDiagnostics st →
       ∃ winner skill, winner ∈ map snd (skillMap st) ∧ skill ∈ processed
                       ∧ sk_name winner = sk_name skill ∧ d = collisionOf winner skill).

End Load.

(** Notions used to state the properties. *)

(** The characters of a string. *)
Definition chars (s : string) : list ascii := list_ascii_of_string s.

(** A character with a meaning in XML markup that [escapeXml] must not let
    through. *)
Definition isMarkup (c : ascii) : bool :=
  Ascii.eqb c "<" || Ascii.eqb c ">" || Ascii.eqb c quote || Ascii.eqb c "'".

(** The class [[a-z0-9]]. *)
Definition isAlnum (c : ascii) : bool :=
  let n := nat_of_ascii c in
  ((97 <=? n)%nat && (n <=? 122)%nat) || ((48 <=? n)%nat && (n <=? 57)%nat).

(** A non-empty run of lowercase letters and digits. *)
Definition isWord (w : string) : Prop := w ≠ "" ∧ allChars isAlnum w = true.

(** [words.join("-")] *)
Fixpoint joinHyphen (words : list string) : string :=
  match words with
  | [] => ""
  | [w] => w
  | w :: rest => String.append w (String.append "-" (joinHyphen rest))
  end.

(** What [escapeXml] makes of one character. *)
Definition escapeChar (c : ascii) : string :=
  if Ascii.eqb c "&" then "&amp;"
  else if Ascii.eqb c "<" then "&lt;"
  else if Ascii.eqb c ">" then "&gt;"
  else if Ascii.eqb c quote then "&quot;"
  else if Ascii.eqb c "'" then "&apos;"
  else String c EmptyString.

End Skills.

(** ** Notions used to state further properties of the modules above *)

Module Views.
Import Ai.

(** The message, if it is a user message. *)
Definition asUser (m : Message) : option UserMessage :=
  match m with MUser u => Some u | _ => None end.

Definition asAssistant (m : Message) : option AssistantMessage :=
  match m with MAssistant a => Some a | _ => None end.

Definition asToolResult (m : Message) : option ToolResultMessage :=
  match m with MToolResult r => Some r | _ => None end.

Section Requests.
Import EventStream.
Context {T R : Type}.
Variable isComplete : T -> bool.
Variable extractResult : T -> R.

(** How many turns the iterator of [consumer] runs while [ops] are applied
    to [s]: the turns asked of it while it is not suspended. *)
Fixpoint turnsOf (consumer : nat) (ops : list (@Op T R)) (s : @Stream T R) : nat :=
  match ops with
  | [] => 0
  | op :: rest =>
      (match op with
       | Next c => if Nat.eqb c consumer && negb (suspended c s) then 1 else 0
       | _ => 0
       end)
      + turnsOf consumer rest (step isComplete extractResult s op)
  end.

(** How many answers, events or the end of the stream, [consumer] has got. *)
Definition answersTo (consumer : nat) (s : @Stream T R) : nat :=
  length (List.filter (fun d => Nat.eqb d.1 consumer) (delivered s)).

(** How many resolvers of [consumer] are waiting. *)
Definition pendingOf (consumer : nat) (s : @Stream T R) : nat :=
  length (List.filter (fun w => Nat.eqb w consumer) (waiting s)).

End Requests.

Section Slots.
Import Proxy.

(** The content slot an event of the wire addresses, if any. *)
Definition contentIndexOf (event : ProxyAssistantMessageEvent) : option nat :=
  match event with
  | px_text_start i | px_text_delta i _ | px_text_end i _
  | px_thinking_start i | px_thinking_delta i _ | px_thinking_end i _
  | px_toolcall_start i _ _ | px_toolcall_delta i _ | px_toolcall_end i => Some i
  | px_start | px_done _ _ | px_error _ _ _ => None
  end.

End Slots.

End Views.

(** ** Concrete inputs used where a property is instantiated *)

Module Fixtures.
Import Ai Compaction CompactionPrepare ApiRegistry Proxy.

Definition usage8 : Usage :=
  {| u_input := 3; u_output := 5; u_cacheRead := 0; u_cacheWrite := 0;
     u_totalTokens := 8; u_cost := 0 |}.

Definition userSays (s : string) : AgentMessage :=
  AUser {| um_content := CString s; um_timestamp := 0 |}.

Definition assistantSays (s : string) (sr : StopReason) (usage : Usage) : AgentMessage :=
  AAssistant {| am_content := [BText {| text := s; textSignature := None |}];
                am_api := "messages"; am_provider := "a"; am_model := "m1";
                am_usage := usage; am_stopReason := sr;
                am_errorMessage := None; am_timestamp := 0 |}.

(** A path of one turn: a prompt, the reply and a tool result. *)
Definition turnPath : list PathEntry :=
  [ {| id := Some "e0"; entry := EMessage (userSays "aaaa") |};
    {| id := Some "e1"; entry := EMessage (assistantSays "bbbb" StopStop usage8) |};
    {| id := Some "e2";
       entry := EMessage (AToolResult
         {| tr_toolCallId := "x"; tr_toolName := "ls";
            tr_content := [UText {| text := "cccc"; textSignature := None |}];
            tr_details := None; tr_isError := false; tr_timestamp := 0 |}) |} ].

Definition keepTwo : CompactionSettings :=
  {| enabled := true; reserveTokens := 16384%Z; keepRecentTokens := 2%Z |}.

(** File operations counted rather than collected. *)
Definition countOperations : list AgentMessage -> list PathEntry -> Z -> nat :=
  fun _ _ _ => 0%nat.

Definition countOperation : AgentMessage -> nat -> nat := fun _ n => S n.

Definition turnPathPrepared : CompactionPreparation :=
  {| cp_firstKeptEntryId := "e1";
     cp_messagesToSummarize := [];
     cp_turnPrefixMessages := [userSays "aaaa"];
     cp_isSplitTurn := true;
     cp_tokensBefore := 9%Z;
     cp_previousSummary := None;
     cp_fileOps := 1%nat;
     cp_settings := keepTwo |}.

(** A provider whose streams are numbers, to tell two providers apart. *)
Definition numberedProvider (name : string) (n : nat) : @ApiProvider unit unit unit nat :=
  {| api := name; stream := fun _ _ _ => n; streamSimple := fun _ _ _ => n |}.

(** A short reply as it arrives on the wire, and the message rebuilt from it. *)
Definition wireReply : list ProxyAssistantMessageEvent :=
  [ px_start; px_text_start 0; px_text_delta 0 "Hi"; px_text_end 0 None;
    px_done StopStop usage8 ].

Definition wireReplyRebuilt : Partial :=
  {| p_content := [Some (KText {| text := "Hi"; textSignature := None |})];
     p_api := "messages"; p_provider := "a"; p_model := "m1";
     p_usage := usage8; p_stopReason := StopStop; p_errorMessage := None;
     p_timestamp := 0 |}.

End Fixtures.

(** * Properties *)

Open Scope nat_scope.

Module TransformProofs.
Import Ai Transform Scenarios.

Section SecondPass.
Variable now : Z.

Lemma flushStep_eq st :
  flushStep now st
  = {| result := result st ++ flushPending now (pendingToolCalls st) (existingToolResultIds st);
       pendingToolCalls := [];
       existingToolResultIds :=
         existingAfterFlush (pendingToolCalls st) (existingToolResultIds st) |}.
Proof.
  unfold flushStep, existingAfterFlush. destruct st as [res [|tc p] e]; simpl; [|done].
  by rewrite app_nil_r.
Qed.

Lemma repairStep_restart st m :
  repairStep now st m
  = {| result := result st ++ result (repairStep now (restart st) m);
       pendingToolCalls := pendingToolCalls (repairStep now (restart st) m);
       existingToolResultIds := existingToolResultIds (repairStep now (restart st) m) |}.
Proof.
  destruct m as [u|a|r]; simpl; rewrite ?flushStep_eq; simpl.
  - by rewrite app_assoc.
  - destruct (isErrored a); [done|].
    destruct (isNonEmpty (toolCallsOf (am_content a))); simpl; by rewrite app_assoc.
  - done.
Qed.

(** The loop only ever appends to [result]. *)
Lemma foldl_repairStep_result msgs : ∀ st,
  result (foldl (repairStep now) st msgs)
  = result st ++ repairFrom now (pendingToolCalls st) (existingToolResultIds st) msgs.
Proof.
  unfold repairFrom.
  induction msgs as [|m msgs IH]; intros st; simpl.
  - by rewrite app_nil_r.
  - rewrite IH. symmetry. rewrite IH. symmetry.
    rewrite (repairStep_restart st m). simpl. by rewrite app_assoc.
Qed.

Lemma repairFrom_nil p e : repairFrom now p e [] = [].
Proof. done. Qed.

Lemma repairFrom_toolResult p e r rest :
  repairFrom now p e (MToolResult r :: rest)
  = MToolResult r :: repairFrom now p ({[ tr_toolCallId r ]} ∪ e) rest.
Proof. unfold repairFrom at 1. simpl. by rewrite foldl_repairStep_result. Qed.

Lemma repairFrom_user p e u rest :
  repairFrom now p e (MUser u :: rest)
  = flushPending now p e ++ MUser u :: repairFrom now [] (existingAfterFlush p e) rest.
Proof.
  unfold repairFrom at 1. simpl. rewrite foldl_repairStep_result. simpl.
  rewrite flushStep_eq. simpl.
  by rewrite <- app_assoc.
Qed.

Lemma repairFrom_errored p e a rest :
  isErrored a = true →
  repairFrom now p e (MAssistant a :: rest)
  = flushPending now p e ++ repairFrom now [] (existingAfterFlush p e) rest.
Proof.
  intros Ha. unfold repairFrom at 1. simpl. rewrite Ha, foldl_repairStep_result.
  by rewrite flushStep_eq.
Qed.

Lemma repairFrom_calls p e a rest :
  isErrored a = false → toolCallsOf (am_content a) ≠ [] →
  repairFrom now p e (MAssistant a :: rest)
  = flushPending now p e ++ MAssistant a :: repairFrom now (toolCallsOf (am_content a)) ∅ rest.
Proof.
  intros Ha Hc. unfold repairFrom at 1. simpl. rewrite Ha.
  destruct (toolCallsOf (am_content a)) eqn:E; [done|]. simpl.
  rewrite foldl_repairStep_result. simpl. rewrite flushStep_eq. simpl.
  by rewrite <- app_assoc.
Qed.

Lemma repairFrom_plain p e a rest :
  isErrored a = false → toolCallsOf (am_content a) = [] →
  repairFrom now p e (MAssistant a :: rest)
  = flushPending now p e ++ MAssistant a :: repairFrom now [] (existingAfterFlush p e) rest.
Proof.
  intros Ha Hc. unfold repairFrom at 1. simpl. rewrite Ha, Hc. simpl.
  rewrite foldl_repairStep_result. simpl.
  rewrite flushStep_eq. simpl.
  by rewrite <- app_assoc.
Qed.

Lemma secondPass_repairFrom msgs : secondPass now msgs = repairFrom now [] ∅ msgs.
Proof. done. Qed.

Lemma Forall_flushPending p e : Forall isToolResultMsg (flushPending now p e).
Proof.
  unfold flushPending. induction p as [|tc p IH]; simpl; [constructor|].
  destruct (decide _); simpl; [done|]. by constructor.
Qed.

Lemma flushPending_elem p e tc :
  tc ∈ p → tc_id tc ∉ e → MToolResult (syntheticResult now tc) ∈ flushPending now p e.
Proof.
  intros Hin Hne. unfold flushPending. apply list_elem_of_omap.
  exists tc. split; [done|]. by rewrite decide_False.
Qed.

Lemma repairFrom_app l1 : ∀ l2 p e,
  repairFrom now p e (l1 ++ l2)
  = repairFrom now p e l1
    ++ repairFrom now
         (pendingToolCalls (foldl (repairStep now)
            {| result := []; pendingToolCalls := p; existingToolResultIds := e |} l1))
         (existingToolResultIds (foldl (repairStep now)
            {| result := []; pendingToolCalls := p; existingToolResultIds := e |} l1))
         l2.
Proof.
  intros l2 p e. unfold repairFrom at 1. rewrite foldl_app.
  by rewrite foldl_repairStep_result.
Qed.

(** A run of tool results is copied through and only feeds [existingToolResultIds]. *)
Lemma repairFrom_toolResults rs : ∀ p e,
  repairFrom now p e (map MToolResult rs) = map MToolResult rs.
Proof.
  induction rs as [|r rs IH]; intros p e; simpl; [done|].
  by rewrite repairFrom_toolResult, IH.
Qed.

(** Once a user or assistant message is met, every pending call is resolved
    by a tool result that precedes any other user or assistant message. *)
Lemma pending_resolved post : ∀ p e tc,
  Exists isTurnMsg post → tc ∈ p →
  tc_id tc ∈ e
  ∨ ∃ mid r rest,
      repairFrom now p e post = mid ++ MToolResult r :: rest
      ∧ Forall isToolResultMsg mid
      ∧ tr_toolCallId r = tc_id tc
      ∧ (MToolResult r ∈ post ∨ r = syntheticResult now tc).
Proof.
  induction post as [|m post IH]; intros p e tc Hex Hin.
  - by apply Exists_nil in Hex.
  - destruct (decide (tc_id tc ∈ e)) as [He|He]; [by left|]. right.
    assert (Hflush : ∃ l1 l2,
      flushPending now p e = l1 ++ MToolResult (syntheticResult now tc) :: l2
      ∧ Forall isToolResultMsg l1).
    { destruct (list_elem_of_split _ _ (flushPending_elem p e tc Hin He)) as (l1 & l2 & Heq).
      exists l1, l2. split; [done|].
      pose proof (Forall_flushPending p e) as HF. rewrite Heq in HF.
      by apply Forall_app in HF as [? _]. }
    destruct Hflush as (l1 & l2 & Heq & Hl1).
    destruct m as [u|a|r].
    + rewrite repairFrom_user, Heq, <- app_assoc. simpl.
      eexists l1, _, _. split; [done|]. repeat split; auto.
    + destruct (isErrored a) eqn:Ha.
      * rewrite repairFrom_errored, Heq, <- app_assoc by done. simpl.
        eexists l1, _, _. split; [done|]. repeat split; auto.
      * destruct (decide (toolCallsOf (am_content a) = [])) as [Hc|Hc].
        -- rewrite repairFrom_plain, Heq, <- app_assoc by done. simpl.
           eexists l1, _, _. split; [done|]. repeat split; auto.
        -- rewrite repairFrom_calls, Heq, <- app_assoc by done. simpl.
           eexists l1, _, _. split; [done|]. repeat split; auto.
    + rewrite repairFrom_toolResult.
      apply Exists_cons in Hex as [[]|Hex].
      destruct (decide (tr_toolCallId r = tc_id tc)) as [Hid|Hid].
      * exists [], r, (repairFrom now p ({[tr_toolCallId r]} ∪ e) post).
        repeat split; auto. left. apply list_elem_of_here.
      * destruct (IH p ({[tr_toolCallId r]} ∪ e) tc Hex Hin)
          as [Hin'|(mid & r' & rest & Heq' & Hmid & Hid' & Hsrc)].
        -- apply elem_of_union in Hin' as [Hin'|Hin']; [|done].
           apply elem_of_singleton in Hin'. by symmetry in Hin'.
        -- exists (MToolResult r :: mid), r', rest. rewrite Heq'.
           repeat split; auto.
           ++ by constructor.
           ++ destruct Hsrc as [Hsrc|Hsrc]; [left|by right].
              by apply list_elem_of_further.
Qed.

Lemma repairFrom_notErrored msgs : ∀ p e,
  Forall notErroredMsg (repairFrom now p e msgs).
Proof.
  induction msgs as [|m msgs IH]; intros p e; [constructor|].
  assert (HF : Forall notErroredMsg (flushPending now p e)).
  { eapply Forall_impl; [apply Forall_flushPending|]. by intros [| |]. }
  destruct m as [u|a|r].
  - rewrite repairFrom_user. apply Forall_app. split; [done|]. by constructor.
  - destruct (isErrored a) eqn:Ha.
    + rewrite repairFrom_errored by done. apply Forall_app. by split.
    + destruct (decide (toolCallsOf (am_content a) = [])) as [Hc|Hc].
      * rewrite repairFrom_plain by done. apply Forall_app. split; [done|]. by constructor.
      * rewrite repairFrom_calls by done. apply Forall_app. split; [done|]. by constructor.
  - rewrite repairFrom_toolResult. by constructor.
Qed.

End SecondPass.

(** C1 (as stated) fails: a trailing assistant keeps its unresolved tool call. *)
Lemma orphan_closure_fails_trailing :
  ¬ OrphanClosed
      (transformMessages 0 [MAssistant (assistantOf "a" [BToolCall (callOf "x")] StopToolUse)]
                         modelA None).
Proof.
  intros Hclosed.
  destruct (Hclosed [] (assistantOf "a" [BToolCall (callOf "x")] StopToolUse) [] (callOf "x"))
    as (mid & r & rest & Heq & _).
  - reflexivity.
  - apply list_elem_of_here.
  - by destruct mid.
Qed.

(** C1 (amended): orphan closure for every retained assistant message that is
    followed by a later user or assistant message.  In the output, each of
    its tool-call ids has a matching toolResult after the assistant message
    and before any other user or assistant message; that result is a
    toolResult of the history or a synthetic result that carries the id and
    the name of the call, the single text block "No result provided" and
    isError = true.  Tool calls of a trailing assistant message (no later
    user or assistant message) get no synthetic result: the output ends with
    the assistant message and the tool results that follow it. *)
Theorem orphan_closure_when_followed now H model norm pre a post tc :
  (firstPass model norm H).2 = pre ++ MAssistant a :: post →
  isErrored a = false →
  tc ∈ toolCallsOf (am_content a) →
  (Exists isTurnMsg post →
   ∃ outPre mid r rest,
     transformMessages now H model norm = outPre ++ MAssistant a :: mid ++ MToolResult r :: rest
     ∧ secondPass now (pre ++ [MAssistant a]) = outPre ++ [MAssistant a]
     ∧ Forall isToolResultMsg mid
     ∧ tr_toolCallId r = tc_id tc
     ∧ (MToolResult r ∈ post
        ∨ (tr_toolName r = tc_name tc
           ∧ tr_content r = [UText {| text := "No result provided"; textSignature := None |}]
           ∧ tr_details r = None
           ∧ tr_isError r = true
           ∧ tr_timestamp r = now))
     ∧ matchedBeforeNextTurn tc (mid ++ MToolResult r :: rest))
  ∧ (Forall isToolResultMsg post →
     ∃ outPre,
       transformMessages now H model norm = outPre ++ MAssistant a :: post
       ∧ secondPass now (pre ++ [MAssistant a]) = outPre ++ [MAssistant a]).
Proof.
  intros HT Ha Hin.
  assert (Hc : toolCallsOf (am_content a) ≠ []) by (intros E; rewrite E in Hin; inversion Hin).
  unfold transformMessages. rewrite HT, !secondPass_repairFrom.
  rewrite !repairFrom_app.
  set (st := foldl (repairStep now) _ pre).
  rewrite !(repairFrom_calls _ _ _ a) by done. simpl.
  split.
  - intros Hex.
    destruct (pending_resolved now post (toolCallsOf (am_content a)) ∅ tc Hex Hin)
      as [Hin'|(mid & r & rest & Heq & Hmid & Hid & Hsrc)]; [set_solver|].
    exists (repairFrom now [] ∅ pre
            ++ flushPending now (pendingToolCalls st) (existingToolResultIds st)), mid, r, rest.
    rewrite Heq, <- !app_assoc. split; [done|]. split; [done|]. split; [done|].
    split; [done|]. split.
    + destruct Hsrc as [Hsrc| ->]; [by left|right]. by cbn.
    + unfold matchedBeforeNextTurn. exists mid, r, rest. split; [done|]. split; [done|].
      eapply Forall_impl; [exact Hmid|].
      intros [u|a'|r'] Hm; simpl in *; try done. split; intros [].
  - intros Hpost.
    assert (Hrs : ∃ rs, post = map MToolResult rs).
    { clear -Hpost. induction Hpost as [|m post Hm _ [rs ->]]; [by exists []|].
      destruct m as [u|a|r]; try done. by exists (r :: rs). }
    destruct Hrs as [rs ->]. rewrite repairFrom_toolResults.
    exists (repairFrom now [] ∅ pre
            ++ flushPending now (pendingToolCalls st) (existingToolResultIds st)).
    by rewrite <- !app_assoc.
Qed.

(** C2: no assistant message with stopReason error or aborted survives the
    transform. *)
Theorem drop_errored now H model norm :
  Forall notErroredMsg (transformMessages now H model norm).
Proof. unfold transformMessages. rewrite secondPass_repairFrom. apply repairFrom_notErrored. Qed.


Section FirstPass.
Variable model : Model.
Variable norm : option Normalizer.

Lemma firstPassFrom_app l1 : ∀ l2 idMap,
  firstPassFrom model norm idMap (l1 ++ l2)
  = ((firstPassFrom model norm (firstPassFrom model norm idMap l1).1 l2).1,
     (firstPassFrom model norm idMap l1).2
     ++ (firstPassFrom model norm (firstPassFrom model norm idMap l1).1 l2).2).
Proof.
  induction l1 as [|m l1 IH]; intros l2 idMap; simpl.
  - by destruct (firstPassFrom model norm idMap l2).
  - destruct (transformMessage model norm idMap m) as [idMap1 m'].
    rewrite IH.
    by destruct (firstPassFrom model norm idMap1 l1) as [idMap2 l1'].
Qed.

Lemma firstPassFrom_cons idMap m l :
  firstPassFrom model norm idMap (m :: l)
  = ((firstPassFrom model norm (transformMessage model norm idMap m).1 l).1,
     (transformMessage model norm idMap m).2
     :: (firstPassFrom model norm (transformMessage model norm idMap m).1 l).2).
Proof.
  cbn [firstPassFrom].
  destruct (transformMessage model norm idMap m) as [idMap1 m']. cbn [fst snd].
  by destruct (firstPassFrom model norm idMap1 l).
Qed.

Lemma transformMessage_assistant idMap a :
  transformMessage model norm idMap (MAssistant a)
  = ((transformAssistant model norm idMap a).1,
     MAssistant (transformAssistant model norm idMap a).2).
Proof.
  cbn [transformMessage]. by destruct (transformAssistant model norm idMap a).
Qed.

Lemma firstPassFrom_toolResults rs : ∀ idMap,
  firstPassFrom model norm idMap (map MToolResult rs)
  = (idMap, map (λ r, MToolResult (normalizeToolResult idMap r)) rs).
Proof.
  induction rs as [|r rs IH]; intros idMap; simpl; [done|]. by rewrite IH.
Qed.

Lemma toolCallsOf_app c1 c2 : toolCallsOf (c1 ++ c2) = toolCallsOf c1 ++ toolCallsOf c2.
Proof. apply omap_app. Qed.

Lemma transformBlock_calls a same idMap b :
  map tc_name (toolCallsOf (transformBlock model norm a same idMap b).2)
  = map tc_name (toolCallsOf [b])
  ∧ map tc_arguments (toolCallsOf (transformBlock model norm a same idMap b).2)
    = map tc_arguments (toolCallsOf [b]).
Proof.
  destruct b as [t|t|t]; simpl.
  - by destruct same.
  - by repeat case_match.
  - destruct norm as [f|]; simpl.
    + destruct same; simpl; [done|].
      destruct (String.eqb (f (tc_id t) model a) (tc_id t)); simpl;
        by destruct (truthy (tc_thoughtSignature t)).
    + by destruct (negb same && truthy (tc_thoughtSignature t)).
Qed.

Lemma transformContent_cons a same idMap b c :
  transformContent model norm a same idMap (b :: c)
  = ((transformContent model norm a same (transformBlock model norm a same idMap b).1 c).1,
     (transformBlock model norm a same idMap b).2
     ++ (transformContent model norm a same (transformBlock model norm a same idMap b).1 c).2).
Proof.
  cbn [transformContent].
  destruct (transformBlock model norm a same idMap b) as [idMap1 out]. cbn [fst snd].
  by destruct (transformContent model norm a same idMap1 c).
Qed.

Lemma transformContent_calls a same c : ∀ idMap,
  map tc_name (toolCallsOf (transformContent model norm a same idMap c).2)
  = map tc_name (toolCallsOf c)
  ∧ map tc_arguments (toolCallsOf (transformContent model norm a same idMap c).2)
    = map tc_arguments (toolCallsOf c).
Proof.
  induction c as [|b c IH]; intros idMap; [done|].
  rewrite transformContent_cons. cbn [snd].
  destruct (transformBlock_calls a same idMap b) as [Hn Ha].
  destruct (IH (transformBlock model norm a same idMap b).1) as [IHn IHa].
  change (b :: c) with ([b] ++ c).
  rewrite !toolCallsOf_app, !map_app. by rewrite Hn, Ha, IHn, IHa.
Qed.

Lemma transformAssistant_stopReason idMap a :
  am_stopReason (transformAssistant model norm idMap a).2 = am_stopReason a.
Proof.
  unfold transformAssistant.
  by destruct (transformContent model norm a (isSameModel a model) idMap (am_content a)).
Qed.

Lemma transformAssistant_calls idMap a :
  map tc_name (toolCallsOf (am_content (transformAssistant model norm idMap a).2))
  = map tc_name (toolCallsOf (am_content a))
  ∧ map tc_arguments (toolCallsOf (am_content (transformAssistant model norm idMap a).2))
    = map tc_arguments (toolCallsOf (am_content a)).
Proof.
  unfold transformAssistant.
  pose proof (transformContent_calls a (isSameModel a model) (am_content a) idMap) as H.
  by destruct (transformContent model norm a (isSameModel a model) idMap (am_content a)).
Qed.

Lemma transformBlock_replayed a idMap b :
  toolCallsOf (transformBlock model norm a (isSameModel a model) idMap b).2
  = map (replayedCall model norm a) (toolCallsOf [b]).
Proof.
  destruct b as [t|t|t]; cbn [transformBlock].
  - by destruct (isSameModel a model).
  - by repeat case_match.
  - unfold replayedCall.
    destruct t as [id name args sig]. cbn [tc_id tc_name tc_arguments tc_thoughtSignature].
    destruct (isSameModel a model); cbn [negb andb].
    + by destruct norm.
    + destruct norm as [f|].
      * destruct (String.eqb_spec (f id model a) id) as [Heq|Hne]; cbn.
        -- rewrite Heq. by destruct (truthy sig).
        -- by destruct (truthy sig).
      * cbn. by destruct (truthy sig).
Qed.

Lemma transformContent_replayed a c : ∀ idMap,
  toolCallsOf (transformContent model norm a (isSameModel a model) idMap c).2
  = map (replayedCall model norm a) (toolCallsOf c).
Proof.
  induction c as [|b c IH]; intros idMap; [done|].
  rewrite transformContent_cons. cbn [snd].
  change (b :: c) with ([b] ++ c).
  rewrite !toolCallsOf_app, map_app. by rewrite transformBlock_replayed, IH.
Qed.

Lemma transformAssistant_replayed idMap a :
  toolCallsOf (am_content (transformAssistant model norm idMap a).2)
  = map (replayedCall model norm a) (toolCallsOf (am_content a)).
Proof.
  unfold transformAssistant.
  pose proof (transformContent_replayed a (am_content a) idMap) as H.
  by destruct (transformContent model norm a (isSameModel a model) idMap (am_content a)).
Qed.

End FirstPass.

Section Idempotence.
Variable model : Model.
Variable norm : option Normalizer.
Hypothesis Hnorm : idempotentNormalizer model norm.

Lemma transformBlock_fixed a same idMap b b' a2 idMap2 :
  b' ∈ (transformBlock model norm a same idMap b).2 →
  transformBlock model norm a2 same idMap2 b' = (idMap2, [b']).
Proof using Hnorm.
  destruct b as [t|t|t]; cbn [transformBlock].
  - destruct same; cbn [snd]; intros ->%list_elem_of_singleton; done.
  - destruct same; cbn [andb orb negb].
    + destruct (truthy (thinkingSignature t)) eqn:Hs.
      * cbn [snd]. intros ->%list_elem_of_singleton. cbn [transformBlock andb]. by rewrite Hs.
      * destruct (String.eqb (thinking t) "" || trimIsEmpty (thinking t)) eqn:Hb;
          cbn [snd]; [by intros ?%elem_of_nil|].
        intros ->%list_elem_of_singleton. cbn [transformBlock andb]. by rewrite Hs, Hb.
    + destruct (String.eqb (thinking t) "" || trimIsEmpty (thinking t));
        cbn [snd]; [by intros ?%elem_of_nil|].
      by intros ->%list_elem_of_singleton.
  - destruct same; cbn [negb andb].
    + destruct norm; cbn [snd]; by intros ->%list_elem_of_singleton.
    + destruct norm as [f|] eqn:Hf.
      * pose proof (Hnorm f eq_refl) as Hidem.
        destruct (String.eqb (f (tc_id t) model a) (tc_id t)) eqn:Heq; cbn [negb snd].
        -- apply String.eqb_eq in Heq.
           assert (Hfix : ∀ a3, f (tc_id t) model a3 = tc_id t).
           { intros a3. rewrite <- Heq at 1. rewrite Hidem. done. }
           destruct (truthy (tc_thoughtSignature t)) eqn:Hs;
             intros ->%list_elem_of_singleton; cbn [transformBlock negb andb];
             cbn [tc_thoughtSignature tc_id truthy]; rewrite ?Hs, Hfix, String.eqb_refl; done.
        -- destruct (truthy (tc_thoughtSignature t)) eqn:Hs;
             intros ->%list_elem_of_singleton; cbn [transformBlock negb andb];
             cbn [tc_thoughtSignature tc_id truthy]; rewrite ?Hs, Hidem, String.eqb_refl; done.
      * cbn [snd]. destruct (truthy (tc_thoughtSignature t)) eqn:Hs;
          intros ->%list_elem_of_singleton; cbn [transformBlock negb andb];
          cbn [tc_thoughtSignature truthy]; rewrite ?Hs; done.
Qed.

Lemma transformContent_fixed a same c : ∀ idMap,
  (∀ b idMap', b ∈ c → transformBlock model norm a same idMap' b = (idMap', [b])) →
  transformContent model norm a same idMap c = (idMap, c).
Proof.
  induction c as [|b c IH]; intros idMap Hfix; [done|].
  rewrite transformContent_cons, (Hfix b idMap) by apply list_elem_of_here.
  cbn [fst snd]. rewrite IH; [done|].
  intros b' idMap' Hb'. apply Hfix. by apply list_elem_of_further.
Qed.

Lemma transformContent_output_fixed a same a2 c : ∀ idMap b' idMap2,
  b' ∈ (transformContent model norm a same idMap c).2 →
  transformBlock model norm a2 same idMap2 b' = (idMap2, [b']).
Proof using Hnorm.
  induction c as [|b c IH]; intros idMap b' idMap2; [by intros ?%elem_of_nil|].
  rewrite transformContent_cons. cbn [snd]. intros [Hb|Hb]%elem_of_app.
  - by eapply transformBlock_fixed.
  - by eapply IH.
Qed.

Lemma transformAssistant_fixed idMap a idMap2 :
  transformAssistant model norm idMap2 (transformAssistant model norm idMap a).2
  = (idMap2, (transformAssistant model norm idMap a).2).
Proof using Hnorm.
  unfold transformAssistant at 2 3.
  destruct (transformContent model norm a (isSameModel a model) idMap (am_content a))
    as [idMap1 c1] eqn:Ec.
  cbn [snd]. unfold transformAssistant.
  change (isSameModel (withContent a c1) model) with (isSameModel a model).
  cbn [am_content withContent].
  rewrite transformContent_fixed; [done|].
  intros b idMap' Hb. eapply transformContent_output_fixed. by rewrite Ec.
Qed.

Lemma normalizeToolResult_empty r : normalizeToolResult ∅ r = r.
Proof. unfold normalizeToolResult. by rewrite lookup_empty. Qed.

Lemma firstPassFrom_outputs_fixed msgs : ∀ idMap,
  Forall (fixedMsg model norm) (firstPassFrom model norm idMap msgs).2.
Proof using Hnorm.
  induction msgs as [|m msgs IH]; intros idMap; [constructor|].
  rewrite firstPassFrom_cons. cbn [snd]. constructor; [|apply IH].
  destruct m as [u|a|r]; unfold fixedMsg.
  - done.
  - rewrite transformMessage_assistant. cbn [snd].
    by rewrite transformMessage_assistant, transformAssistant_fixed.
  - cbn [transformMessage snd]. by rewrite normalizeToolResult_empty.
Qed.

Lemma firstPass_fixed msgs :
  Forall (fixedMsg model norm) msgs → firstPass model norm msgs = (∅, msgs).
Proof.
  unfold firstPass. induction 1 as [|m msgs Hm _ IH]; [done|].
  by rewrite firstPassFrom_cons, Hm; cbn [fst snd]; rewrite IH.
Qed.

Lemma repairFrom_Forall (P : Message → Prop) now msgs : ∀ p e,
  (∀ tc, P (MToolResult (syntheticResult now tc))) →
  Forall P msgs → Forall P (repairFrom now p e msgs).
Proof.
  intros p e Hsyn HP. revert p e.
  assert (HF : ∀ p e, Forall P (flushPending now p e)).
  { intros p e. unfold flushPending. apply Forall_forall. intros m Hm.
    apply list_elem_of_omap in Hm as (tc & _ & Htc).
    destruct (decide _); simplify_eq. apply Hsyn. }
  induction HP as [|m msgs Hm _ IH]; intros p e; [constructor|].
  destruct m as [u|a|r].
  - rewrite repairFrom_user. apply Forall_app. split; [done|]. by constructor.
  - destruct (isErrored a) eqn:Ha.
    + rewrite repairFrom_errored by done. apply Forall_app. by split.
    + destruct (decide (toolCallsOf (am_content a) = [])) as [Hc|Hc].
      * rewrite repairFrom_plain by done. apply Forall_app. split; [done|]. by constructor.
      * rewrite repairFrom_calls by done. apply Forall_app. split; [done|]. by constructor.
  - rewrite repairFrom_toolResult. by constructor.
Qed.

End Idempotence.

Section SecondPassIdempotence.
Variables now now2 : Z.

Lemma elem_of_flushedIds id p e :
  id ∈ flushedIds p e ↔ (id ∉ e) ∧ ∃ tc, tc ∈ p ∧ tc_id tc = id.
Proof.
  unfold flushedIds. rewrite elem_of_list_to_set, list_elem_of_fmap. split.
  - intros (tc & -> & [Hne Hin]%list_elem_of_filter). eauto.
  - intros (Hne & tc & Hin & <-). exists tc. split; [done|].
    by apply list_elem_of_filter.
Qed.

(** Re-reading the synthetic results of a flush only records their ids. *)
Lemma repairFrom_flushed p e rest : ∀ p' e',
  repairFrom now2 p' e' (flushPending now p e ++ rest)
  = flushPending now p e ++ repairFrom now2 p' (flushedIds p e ∪ e') rest.
Proof.
  unfold flushPending, flushedIds.
  induction p as [|tc p IH]; intros p' e'; simpl.
  - by rewrite (left_id_L ∅ (∪)).
  - rewrite filter_cons. destruct (decide (tc_id tc ∈ e)) as [Hin|Hin]; simpl.
    + rewrite decide_False by (intros ?; done). apply IH.
    + rewrite decide_True by done. simpl.
      rewrite repairFrom_toolResult. simpl. rewrite IH. do 2 f_equal.
      by rewrite (assoc_L (∪)), (comm_L (∪) _ {[tc_id tc]}).
Qed.

Lemma flushPending_covered p e :
  (∀ tc, tc ∈ p → tc_id tc ∈ e) → flushPending now2 p e = [].
Proof.
  intros Hcov. unfold flushPending. induction p as [|tc p IH]; [done|]. simpl.
  rewrite decide_True by (apply Hcov, list_elem_of_here).
  apply IH. intros tc' Htc'. apply Hcov. by apply list_elem_of_further.
Qed.

Lemma settled_covered p e p' e' :
  settled p e p' e' → ∀ tc, tc ∈ p' → tc_id tc ∈ flushedIds p e ∪ e'.
Proof. intros HR tc Htc. destruct (HR tc Htc); set_solver. Qed.

Lemma settled_nil p e e' : settled p e [] e'.
Proof. intros tc Htc. by apply elem_of_nil in Htc. Qed.

Lemma repairFrom_idem msgs : ∀ p e p' e',
  settled p e p' e' →
  repairFrom now2 p' e' (repairFrom now p e msgs) = repairFrom now p e msgs.
Proof.
  induction msgs as [|m msgs IH]; intros p e p' e' HR; [done|].
  pose proof (settled_covered _ _ _ _ HR) as Hcov.
  destruct m as [u|a|r].
  - rewrite repairFrom_user, repairFrom_flushed, repairFrom_user.
    rewrite flushPending_covered by done. simpl.
    by rewrite IH by apply settled_nil.
  - destruct (isErrored a) eqn:Ha.
    + rewrite repairFrom_errored, repairFrom_flushed by done.
      rewrite IH; [done|]. intros tc Htc. left. by apply Hcov.
    + destruct (decide (toolCallsOf (am_content a) = [])) as [Hc|Hc].
      * rewrite repairFrom_plain, repairFrom_flushed, repairFrom_plain by done.
        rewrite flushPending_covered by done. simpl.
        by rewrite IH by apply settled_nil.
      * rewrite repairFrom_calls, repairFrom_flushed, repairFrom_calls by done.
        rewrite flushPending_covered by done. simpl.
        rewrite IH; [done|]. intros tc Htc. right.
        apply elem_of_flushedIds. split; [set_solver|]. eauto.
  - rewrite !repairFrom_toolResult. rewrite IH; [done|].
    intros tc Htc. destruct (HR tc Htc) as [Hin|Hin]; [left; set_solver|].
    destruct (decide (tc_id tc = tr_toolCallId r)) as [->|Hne]; [left; set_solver|].
    right. apply elem_of_flushedIds in Hin as (Hnin & tc2 & Htc2 & Heq).
    apply elem_of_flushedIds. split; [set_solver|]. eauto.
Qed.

End SecondPassIdempotence.



(** C5 (as stated) fails: with a normalizer that is not idempotent the second
    application rewrites the ids again. *)
Lemma transform_not_idempotent :
  transformMessages 0
    (transformMessages 0
       [MAssistant (assistantOf "b" [BToolCall (callOf "a")] StopToolUse)] modelA (Some appendX))
    modelA (Some appendX)
  ≠ transformMessages 0
      [MAssistant (assistantOf "b" [BToolCall (callOf "a")] StopToolUse)] modelA (Some appendX).
Proof. vm_compute. discriminate. Qed.

(** C5 (amended): with no normalizer, or with an idempotent one, a second
    application of the transform with the same target model changes
    nothing, whatever the clock reads. *)
Theorem transform_idempotent now now2 H model norm :
  idempotentNormalizer model norm →
  transformMessages now2 (transformMessages now H model norm) model norm
  = transformMessages now H model norm.
Proof.
  intros Hnorm. unfold transformMessages at 1.
  rewrite (firstPass_fixed model norm).
  - cbn [snd]. unfold transformMessages. rewrite !secondPass_repairFrom.
    apply repairFrom_idem, settled_nil.
  - unfold transformMessages. rewrite secondPass_repairFrom.
    apply repairFrom_Forall.
    + intros tc. unfold fixedMsg. cbn [transformMessage].
      by rewrite normalizeToolResult_empty.
    + by apply firstPassFrom_outputs_fixed.
Qed.

Lemma transform_idempotent_witness :
  idempotentNormalizer modelA (Some take4)
  ∧ transformMessages 2 (transformMessages 1 foreignHistory modelA (Some take4))
      modelA (Some take4)
    = transformMessages 1 foreignHistory modelA (Some take4).
Proof.
  assert (Hn : idempotentNormalizer modelA (Some take4)).
  { intros f [= <-] id source source'. unfold take4.
    generalize 4%nat. intros n. revert id.
    induction n as [|n IH]; intros [|c id]; simpl; try done. by rewrite IH. }
  split; [exact Hn|].
  apply (transform_idempotent 1 2 foreignHistory modelA (Some take4) Hn).
Defined.

Lemma orphan_closure_when_followed_witness :
  ∃ outPre mid r rest,
    transformMessages 1 foreignHistory modelA (Some take4)
    = outPre
      ++ MAssistant (assistantOf "b" [BToolCall (callOf "call")] StopToolUse)
      :: mid ++ MToolResult r :: rest
    ∧ tr_toolCallId r = "call"
    ∧ tr_content r = [UText {| text := "No result provided"; textSignature := None |}]
    ∧ tr_isError r = true.
Proof.
  destruct (proj1 (orphan_closure_when_followed 1 foreignHistory modelA (Some take4)
    [ userOf "list files";
      MAssistant (assistantOf "b" [BText {| text := "hm"; textSignature := None |};
                                   BToolCall (callOf "call")] StopToolUse);
      resultOf "call" ]
    (assistantOf "b" [BToolCall (callOf "call")] StopToolUse)
    [ userOf "stop" ]
    (callOf "call") eq_refl eq_refl (list_elem_of_here _ _))
    (Exists_cons_hd isTurnMsg (userOf "stop") [] I))
    as (outPre & mid & r & rest & Heq & _ & _ & Hid & Hsrc & _).
  exists outPre, mid, r, rest. split; [exact Heq|]. split; [exact Hid|].
  destruct Hsrc as [Hsrc|(_ & Hcontent & _ & Herr & _)]; [|by split].
  apply list_elem_of_singleton in Hsrc. discriminate Hsrc.
Defined.

(** C10 (as stated) fails: a trailing assistant message with stopReason
    error is dropped together with its tool calls, so the output does not end
    with it. *)
Lemma trailing_errored_assistant_dropped :
  transformMessages 0
    [userOf "hi"; MAssistant (assistantOf "a" [BToolCall (callOf "x")] StopError)]
    modelA None
  = [userOf "hi"]
  ∧ ¬ TrailingKept (assistantOf "a" [BToolCall (callOf "x")] StopError)
        (transformMessages 0
           [userOf "hi"; MAssistant (assistantOf "a" [BToolCall (callOf "x")] StopError)]
           modelA None).
Proof.
  split; [reflexivity|].
  intros (outPre & a' & results & Heq & _).
  change (transformMessages 0 _ modelA None) with [userOf "hi"] in Heq.
  destruct outPre as [|m [|m' outPre]]; discriminate Heq.
Qed.

(** C10 (amended): when only tool results follow the last assistant message,
    the transform emits no synthetic result for its calls.  The output is
    what the loop had produced up to (and including) the flush for earlier
    calls, then the assistant message itself unless it is errored or aborted,
    then exactly the trailing tool results of the history, their ids
    rewritten by the first pass.  A kept assistant message keeps its stop
    reason and its tool calls, each with its name and arguments; for a
    message of another model the id of a call is the normalized one and a
    thoughtSignature that is not empty is removed. *)
Theorem trailing_tool_calls_not_flushed now model norm pre a rs :
  let H := pre ++ MAssistant a :: map MToolResult rs in
  let before := foldl (repairStep now) initialRepairState (firstPass model norm pre).2 in
  let a' := (transformAssistant model norm (firstPass model norm pre).1 a).2 in
  transformMessages now H model norm
  = result (flushStep now before)
    ++ (if isErrored a then [] else [MAssistant a'])
    ++ map (λ r, MToolResult (normalizeToolResult (firstPass model norm H).1 r)) rs
  ∧ toolCallsOf (am_content a')
    = map (replayedCall model norm a) (toolCallsOf (am_content a))
  ∧ map tc_name (toolCallsOf (am_content a')) = map tc_name (toolCallsOf (am_content a))
  ∧ map tc_arguments (toolCallsOf (am_content a')) = map tc_arguments (toolCallsOf (am_content a))
  ∧ am_stopReason a' = am_stopReason a
  ∧ (isErrored a = false → isSameModel a model = true →
     TrailingKept a (transformMessages now H model norm)).
Proof.
  intros H before a'.
  assert (Hout : transformMessages now H model norm
    = result (flushStep now before)
      ++ (if isErrored a then [] else [MAssistant a'])
      ++ map (λ r, MToolResult (normalizeToolResult (firstPass model norm H).1 r)) rs);
    [|split; [exact Hout|]; split; [|split; [|split; [|split]]];
      [apply transformAssistant_replayed|apply transformAssistant_calls
      |apply transformAssistant_calls|apply transformAssistant_stopReason|]].
  2: { intros He Hsame. rewrite Hout, He. unfold TrailingKept.
       eexists _, a', _. split; [reflexivity|]. split.
       - unfold a'. rewrite transformAssistant_replayed.
         rewrite <- (map_id (toolCallsOf (am_content a))) at 2.
         apply map_ext. intros [id name args sig]. unfold replayedCall. rewrite Hsame.
         cbn. by destruct norm.
       - generalize (firstPass model norm H).1. clear. intros idMap.
         induction rs as [|r rs' IH]; cbn; [constructor|]. constructor; [exact I|exact IH]. }
  assert (Hsr : isErrored a' = isErrored a).
  { unfold isErrored, a'. by rewrite transformAssistant_stopReason. }
  unfold transformMessages, firstPass, H.
  rewrite firstPassFrom_app, firstPassFrom_cons, transformMessage_assistant.
  rewrite firstPassFrom_toolResults. cbn [fst snd].
  fold (firstPass model norm pre). fold a'.
  set (idMap1 := (transformAssistant model norm (firstPass model norm pre).1 a).1).
  rewrite secondPass_repairFrom, repairFrom_app.
  fold initialRepairState. fold before.
  rewrite flushStep_eq. cbn [result].
  change (repairFrom now [] ∅ (firstPass model norm pre).2) with (result before).
  rewrite <- app_assoc. f_equal.
  rewrite <- Hsr.
  rewrite <- (map_map (normalizeToolResult idMap1) MToolResult).
  destruct (isErrored a') eqn:He.
  - rewrite repairFrom_errored by done. f_equal. apply repairFrom_toolResults.
  - destruct (decide (toolCallsOf (am_content a') = [])) as [Hc|Hc].
    + rewrite repairFrom_plain by done. by rewrite repairFrom_toolResults.
    + rewrite repairFrom_calls by done. by rewrite repairFrom_toolResults.
Qed.

Lemma trailing_tool_calls_not_flushed_witness :
  TrailingKept (assistantOf "a" [BToolCall (callOf "x")] StopToolUse)
    (transformMessages 0
       ([userOf "hi"]
        ++ MAssistant (assistantOf "a" [BToolCall (callOf "x")] StopToolUse)
        :: map MToolResult [])
       modelA None).
Proof.
  destruct (trailing_tool_calls_not_flushed 0 modelA None [userOf "hi"]
              (assistantOf "a" [BToolCall (callOf "x")] StopToolUse) [])
    as (_ & _ & _ & _ & _ & Hkept).
  apply Hkept; reflexivity.
Defined.

End TransformProofs.

Module CompactionProofs.
Import Ai Compaction Scenarios.

Section CutPoint.
Variable JSON_stringify : Json → string.
Variable entries : list SessionEntry.

Lemma cutPointPushes_spec entry i :
  cutPointPushes entry i = if isLegalCutKind entry then [i] else [].
Proof. destruct entry as [[]| | | | | | |]; reflexivity. Qed.

(** The valid cut points are in range, increasing, and of a legal kind. *)
Lemma findValidCutPointsLoop_spec steps : ∀ i cutPoints,
  findValidCutPointsLoop entries i steps = Some cutPoints →
  (i + steps ≤ length entries ∨ steps = 0)
  ∧ StronglySorted lt cutPoints
  ∧ ∀ c, c ∈ cutPoints →
      i ≤ c < i + steps
      ∧ ∃ entry, entries !! c = Some entry ∧ isLegalCutKind entry = true.
Proof.
  induction steps as [|steps IH]; intros i cutPoints; simpl.
  - intros [= <-]. split; [by right|]. split; [constructor|].
    by intros c ?%elem_of_nil.
  - destruct (entries !! i) as [entry|] eqn:Hi; simpl; [|done].
    destruct (findValidCutPointsLoop entries (S i) steps) as [rest|] eqn:Hrest;
      simpl; [|done].
    intros [= <-]. destruct (IH _ _ Hrest) as (Hlen & Hsorted & Hrange).
    apply lookup_lt_Some in Hi as Hlt.
    split; [left; destruct Hlen; lia|].
    rewrite cutPointPushes_spec. destruct (isLegalCutKind entry) eqn:Hk; simpl.
    + split.
      * constructor; [done|]. apply Forall_forall. intros c Hc.
        destruct (Hrange c Hc) as [? _]. lia.
      * intros c [->|Hc]%elem_of_cons.
        -- split; [lia|]. eauto.
        -- destruct (Hrange c Hc) as [? ?]. split; [lia|done].
    + split; [done|]. intros c Hc. destruct (Hrange c Hc) as [? ?]. split; [lia|done].
Qed.

Lemma findValidCutPointsLoop_total steps : ∀ i,
  i + steps ≤ length entries → is_Some (findValidCutPointsLoop entries i steps).
Proof.
  induction steps as [|steps IH]; intros i Hlen; simpl; [by eexists|].
  destruct (lookup_lt_is_Some_2 entries i) as [entry ->]; [lia|]. simpl.
  destruct (IH (S i)) as [rest ->]; [lia|]. simpl. by eexists.
Qed.

Lemma budgetWalk_total k s steps : ∀ acc,
  s + steps ≤ length entries → is_Some (budgetWalk JSON_stringify entries k s steps acc).
Proof.
  induction steps as [|steps IH]; intros acc Hlen; simpl; [by eexists|].
  destruct (lookup_lt_is_Some_2 entries (s + steps)) as [entry ->]; [lia|]. simpl.
  destruct entry; try (apply IH; lia).
  destruct (_ <=? _)%Z; [by eexists|apply IH; lia].
Qed.

Lemma budgetWalk_range k s steps : ∀ acc i,
  budgetWalk JSON_stringify entries k s steps acc = Some (Some i) → s ≤ i < s + steps.
Proof.
  induction steps as [|steps IH]; intros acc i; simpl; [done|].
  destruct (entries !! (s + steps)) as [entry|]; simpl; [|done].
  destruct entry; try (intros H%IH; lia).
  destruct (_ <=? _)%Z; [intros [= <-]; lia|intros H%IH; lia].
Qed.

(** A larger budget is reached no later in the backward walk, that is, at a
    smaller or equal index, if at all. *)
Lemma budgetWalk_mono k1 k2 s steps : ∀ acc i2,
  (k1 ≤ k2)%Z →
  budgetWalk JSON_stringify entries k2 s steps acc = Some (Some i2) →
  ∃ i1, budgetWalk JSON_stringify entries k1 s steps acc = Some (Some i1) ∧ i2 ≤ i1.
Proof.
  induction steps as [|steps IH]; intros acc i2 Hk; simpl; [done|].
  destruct (entries !! (s + steps)) as [entry|]; simpl; [|done].
  destruct entry; try (by apply IH).
  destruct (k2 <=? _)%Z eqn:H2.
  - intros [= <-]. apply Z.leb_le in H2.
    rewrite (proj2 (Z.leb_le _ _)) by lia. eauto.
  - destruct (k1 <=? _)%Z eqn:H1.
    + intros Hw%budgetWalk_range. eexists. split; [done|]. lia.
    + by apply IH.
Qed.

Lemma closestCutPoint_elem cutPoints i first :
  first ∈ cutPoints → closestCutPoint cutPoints i first ∈ cutPoints.
Proof.
  intros Hfirst. unfold closestCutPoint.
  destruct (List.find _ cutPoints) as [c|] eqn:Hfind; simpl; [|done].
  apply List.find_some in Hfind as [Hin _]. by apply list_elem_of_In.
Qed.

Lemma find_sorted_le cutPoints : ∀ i c,
  StronglySorted lt cutPoints → c ∈ cutPoints → i ≤ c →
  ∃ c', List.find (λ c, (i <=? c)%nat) cutPoints = Some c' ∧ i ≤ c' ≤ c.
Proof.
  induction cutPoints as [|x cutPoints IH]; intros i c Hsorted Hc Hle.
  - by apply elem_of_nil in Hc.
  - apply StronglySorted_inv in Hsorted as [Hsorted Hall]. simpl.
    destruct (i <=? x)%nat eqn:Hx.
    + apply Nat.leb_le in Hx. exists x. split; [done|]. split; [done|].
      apply elem_of_cons in Hc as [->|Hc]; [done|].
      rewrite Forall_forall in Hall. specialize (Hall c Hc). lia.
    + apply Nat.leb_gt in Hx. apply elem_of_cons in Hc as [->|Hc]; [lia|].
      by apply IH.
Qed.

Lemma absorbMetadata_spec s c : ∀ c',
  absorbMetadata entries s c = Some c' →
  c' ≤ c ∧ (s ≤ c → s ≤ c')
  ∧ ∀ j, c' ≤ j < c → ∃ entry, entries !! j = Some entry ∧ isAbsorbable entry = true.
Proof.
  induction c as [|prev IH]; intros c'.
  - intros [= <-]. split; [lia|]. split; [lia|]. intros j ?. lia.
  - cbn [absorbMetadata]. destruct (s <? S prev) eqn:Hs.
    + apply Nat.ltb_lt in Hs.
      destruct (entries !! prev) as [entry|] eqn:Hprev; simpl; [|done].
      assert (Hstop : Some (S prev) = Some c' →
        c' ≤ S prev ∧ (s ≤ S prev → s ≤ c')
        ∧ ∀ j, c' ≤ j < S prev → ∃ entry, entries !! j = Some entry ∧ isAbsorbable entry = true).
      { intros [= <-]. split; [lia|]. split; [lia|]. intros j ?. lia. }
      destruct entry; try exact Hstop;
        (intros (Hle & Hge & Habs)%IH; split; [lia|]; split; [lia|];
         intros j Hj; destruct (decide (j = prev)) as [->|Hne];
         [eexists; split; [exact Hprev|reflexivity]|apply Habs; lia]).
    + intros [= <-]. split; [lia|]. split; [lia|]. intros j ?. lia.
Qed.

Lemma absorbMetadata_total s c :
  c ≤ length entries → is_Some (absorbMetadata entries s c).
Proof.
  induction c as [|prev IH]; intros Hlen; [by eexists|].
  cbn [absorbMetadata]. destruct (s <? S prev); [|by eexists].
  destruct (lookup_lt_is_Some_2 entries prev) as [entry ->]; [lia|]. simpl.
  destruct entry; try (apply IH; lia); by eexists.
Qed.

Lemma absorbMetadata_mono s c1 : ∀ c2 r1 r2,
  c2 ≤ c1 →
  absorbMetadata entries s c1 = Some r1 → absorbMetadata entries s c2 = Some r2 → r2 ≤ r1.
Proof.
  induction c1 as [|prev IH]; intros c2 r1 r2 Hle H1 H2.
  - assert (c2 = 0) as -> by lia. simplify_eq. lia.
  - destruct (decide (c2 = S prev)) as [->|Hne]; [simplify_eq; lia|].
    pose proof (absorbMetadata_spec s c2 r2 H2) as (Hr2 & _).
    cbn [absorbMetadata] in H1. destruct (s <? S prev).
    + destruct (entries !! prev) as [entry|]; simpl in H1; [|done].
      destruct entry; try (injection H1 as <-; lia);
        (eapply (IH c2); [lia|exact H1|exact H2]).
    + injection H1 as <-. lia.
Qed.

Lemma findTurnStartLoop_total s steps :
  s + steps ≤ length entries → is_Some (findTurnStartLoop entries s steps).
Proof.
  induction steps as [|steps IH]; intros Hlen; simpl; [by eexists|].
  destruct (lookup_lt_is_Some_2 entries (s + steps)) as [entry ->]; [lia|]. simpl.
  destruct (startsTurn entry); [by eexists|apply IH; lia].
Qed.

Lemma sorted_head_le first cutPoints c :
  StronglySorted lt (first :: cutPoints) → c ∈ first :: cutPoints → first ≤ c.
Proof.
  intros [_ Hall]%StronglySorted_inv [->|Hc]%elem_of_cons; [done|].
  rewrite Forall_forall in Hall. specialize (Hall c Hc). lia.
Qed.

End CutPoint.




(** C4 fails on the code: with a tool result at the end of the range, the
    budget 1 is reached on the tool result itself, no valid cut point lies at
    or after it, and the cut falls back to the first valid cut point, so
    everything is kept; the larger budget 2 keeps less. *)
Lemma keep_recent_not_monotone :
  ∃ r1 r2,
    findCutPoint stringifyStub [userEntry "aaaa"; assistantEntry "bbbb"; toolResultEntry "cccc"]
      0 3 1 = Some r1
    ∧ findCutPoint stringifyStub [userEntry "aaaa"; assistantEntry "bbbb"; toolResultEntry "cccc"]
        0 3 2 = Some r2
    ∧ firstKeptEntryIndex r1 = 0 ∧ firstKeptEntryIndex r2 = 1
    ∧ retained 3 r2 < retained 3 r1.
Proof.
  eexists _, _. split; [reflexivity|]. split; [reflexivity|].
  split; [reflexivity|]. split; [reflexivity|]. vm_compute. lia.
Qed.

(** Keep-recent monotonicity away from that fallback: when, for the smaller
    budget, the backward walk stops at an index that has a valid cut point
    at or after it (or never stops), a larger budget keeps at least as many
    entries. *)
Theorem keep_recent_monotone str entries s e k1 k2 r1 r2 :
  (k1 ≤ k2)%Z →
  findCutPoint str entries s e k1 = Some r1 →
  findCutPoint str entries s e k2 = Some r2 →
  (∀ i cutPoints,
     budgetWalk str entries k1 s (e - s) 0 = Some (Some i) →
     findValidCutPoints entries s e = Some cutPoints →
     ∃ c, c ∈ cutPoints ∧ i ≤ c) →
  firstKeptEntryIndex r2 ≤ firstKeptEntryIndex r1 ∧ retained e r1 ≤ retained e r2.
Proof.
  intros Hk H1 H2 Hcover.
  enough (firstKeptEntryIndex r2 ≤ firstKeptEntryIndex r1) by (unfold retained; lia).
  unfold findCutPoint in H1, H2.
  destruct (findValidCutPoints entries s e) as [cutPoints|] eqn:Hcps; [|done].
  simpl in H1, H2. destruct cutPoints as [|first cutPoints].
  { injection H1 as <-. injection H2 as <-. done. }
  destruct (findValidCutPointsLoop_spec entries _ _ _ Hcps) as (_ & Hsorted & _).
  destruct (budgetWalk str entries k1 s (e - s) 0%Z) as [stop1|] eqn:Hw1; [|done].
  destruct (budgetWalk str entries k2 s (e - s) 0%Z) as [stop2|] eqn:Hw2; [|done].
  simpl in H1, H2.
  set (c1 := match stop1 with
             | Some i => closestCutPoint (first :: cutPoints) i first | None => first end) in H1.
  set (c2 := match stop2 with
             | Some i => closestCutPoint (first :: cutPoints) i first | None => first end) in H2.
  assert (Hc1 : c1 ∈ first :: cutPoints).
  { unfold c1. destruct stop1; [|apply list_elem_of_here].
    apply closestCutPoint_elem, list_elem_of_here. }
  assert (Hc : c2 ≤ c1).
  { unfold c2. destruct stop2 as [i2|]; [|by eapply sorted_head_le].
    destruct (budgetWalk_mono str entries k1 k2 s (e - s) 0%Z i2 Hk Hw2) as (i1 & Hw1' & Hi).
    rewrite Hw1 in Hw1'. injection Hw1' as ->.
    destruct (Hcover i1 _ eq_refl eq_refl) as (c & Hcin & Hci).
    destruct (find_sorted_le _ i1 c Hsorted Hcin Hci) as (c1' & Hf1 & Hc1').
    assert (c1 = c1') as -> by (unfold c1, closestCutPoint; by rewrite Hf1).
    destruct (find_sorted_le _ i2 c1' Hsorted Hc1 ltac:(lia)) as (c2' & Hf2 & Hc2').
    unfold closestCutPoint. rewrite Hf2. simpl. lia. }
  destruct (absorbMetadata entries s c1) as [cut1|] eqn:Ha1; [|done].
  destruct (absorbMetadata entries s c2) as [cut2|] eqn:Ha2; [|done].
  simpl in H1, H2.
  pose proof (absorbMetadata_mono entries s c1 c2 cut1 cut2 Hc Ha1 Ha2) as Hcut.
  destruct (entries !! cut1) as [e1|]; [|done].
  destruct (entries !! cut2) as [e2|]; [|done].
  simpl in H1, H2.
  destruct (if isUserMessageEntry e1 then _ else _); [|done].
  destruct (if isUserMessageEntry e2 then _ else _); [|done].
  simpl in H1, H2. injection H1 as <-. injection H2 as <-. done.
Qed.

Lemma keep_recent_monotone_witness :
  firstKeptEntryIndex {| firstKeptEntryIndex := 1; turnStartIndex := 0; isSplitTurn := true |}
  ≤ firstKeptEntryIndex {| firstKeptEntryIndex := 2; turnStartIndex := 0; isSplitTurn := true |}
  ∧ retained 3 {| firstKeptEntryIndex := 2; turnStartIndex := 0; isSplitTurn := true |}
    ≤ retained 3 {| firstKeptEntryIndex := 1; turnStartIndex := 0; isSplitTurn := true |}.
Proof.
  apply (keep_recent_monotone stringifyStub
           [userEntry "aaaa"; assistantEntry "bbbb"; assistantEntry "cccc"] 0 3 1 2).
  - lia.
  - reflexivity.
  - reflexivity.
  - intros i cutPoints [= <-] [= <-]. exists 2. split; [|lia].
    apply list_elem_of_further, list_elem_of_further, list_elem_of_here.
Defined.


Section Tokens.
Variable JSON_stringify : Json → string.

Lemma sumChars_sum_list {A} (f : A → nat) l : sumChars f l = sum_list (map f l).
Proof.
  unfold sumChars.
  enough (∀ acc, foldl (λ chars block, chars + f block) acc l = acc + sum_list (map f l))
    as -> by done.
  induction l as [|x l IH]; intros acc; simpl; [lia|]. rewrite IH. lia.
Qed.

Lemma userBlockChars_sum blocks : sumChars userBlockChars blocks = textChars blocks.
Proof. by rewrite sumChars_sum_list. Qed.

Lemma resultBlockChars_sum blocks :
  sumChars resultBlockChars blocks = textChars blocks + 4800 * imageCount blocks.
Proof.
  rewrite sumChars_sum_list. unfold textChars, imageCount.
  induction blocks as [|[t|i] blocks IH]; cbn -[Nat.mul Nat.add]; unfold id in *; lia.
Qed.

Lemma ceilDiv4_images chars n :
  ceilDiv4 (chars + 4800 * n) = (ceilDiv4 chars + 1200 * Z.of_nat n)%Z.
Proof.
  unfold ceilDiv4.
  replace (Z.of_nat (chars + 4800 * n) + 3)%Z
    with (Z.of_nat chars + 3 + (1200 * Z.of_nat n) * 4)%Z by lia.
  by rewrite Z.div_add.
Qed.

(** C6 fails on the code for user messages.  The [toolResult] and [custom]
    branches add 1,200 tokens per image to the rounded-up quarter of the
    text length; the [user] branch counts text only, so a user message made
    of one image is estimated at 0 tokens. *)
Theorem estimateTokens_user_images_not_counted blocks ts id name details isErr customType img :
  estimateTokens JSON_stringify
    (AToolResult {| tr_toolCallId := id; tr_toolName := name; tr_content := blocks;
                    tr_details := details; tr_isError := isErr; tr_timestamp := ts |})
  = (ceilDiv4 (textChars blocks) + 1200 * Z.of_nat (imageCount blocks))%Z
  ∧ estimateTokens JSON_stringify (ACustom customType (CBlocks blocks))
    = (ceilDiv4 (textChars blocks) + 1200 * Z.of_nat (imageCount blocks))%Z
  ∧ estimateTokens JSON_stringify (AUser {| um_content := CBlocks blocks; um_timestamp := ts |})
    = ceilDiv4 (textChars blocks)
  ∧ estimateTokens JSON_stringify
      (AUser {| um_content := CBlocks [UImage img]; um_timestamp := ts |}) = 0%Z
  ∧ estimateTokens JSON_stringify
      (AToolResult {| tr_toolCallId := id; tr_toolName := name; tr_content := [UImage img];
                      tr_details := details; tr_isError := isErr; tr_timestamp := ts |}) = 1200%Z.
Proof.
  cbn [estimateTokens um_content tr_content].
  rewrite userBlockChars_sum, resultBlockChars_sum, ceilDiv4_images.
  repeat split; reflexivity.
Qed.

End Tokens.

End CompactionProofs.

Module AgentLoopProofs.
Import Ai AgentLoop Scenarios.

Ltac normalize_app :=
  repeat (rewrite <- ?app_assoc; cbn [app flat_map map length]);
  solve [reflexivity | lia].

Section Loop.
Variable now : Z.
Variable validateToolArguments : AgentTool → ToolCall → Validation.
Variable tools : option (list AgentTool).


(** An iteration only appends to the world it starts from. *)
Lemma invokeTool_frame toolCall w :
  invokeTool validateToolArguments tools toolCall w
  = ({| events := events w ++ events (invokeTool validateToolArguments tools toolCall emptyWorld).1.1;
        executed := executed w ++ executed (invokeTool validateToolArguments tools toolCall emptyWorld).1.1;
        steeringPolls := steeringPolls w |},
     (invokeTool validateToolArguments tools toolCall emptyWorld).1.2,
     (invokeTool validateToolArguments tools toolCall emptyWorld).2).
Proof.
  unfold invokeTool.
  destruct (findTool tools toolCall) as [tool|]; simpl.
  - destruct (validateToolArguments tool toolCall) as [args|msg]; simpl.
    + destruct (outcome (execute tool (tc_id toolCall) args)); simpl; done.
    + destruct w; simpl. by rewrite !app_nil_r.
  - destruct w; simpl. by rewrite !app_nil_r.
Qed.

Lemma world_eq ev ev' ex ex' n n' :
  ev = ev' → ex = ex' → n = n' →
  {| events := ev; executed := ex; steeringPolls := n |}
  = {| events := ev'; executed := ex'; steeringPolls := n' |}.
Proof. by intros -> -> ->. Qed.

Lemma outcome_eq (w w' : World) (rs rs' : list ToolResultMessage) (st : option (list Message)) :
  w = w' → rs = rs' → (w, rs, st) = (w', rs', st).
Proof. by intros -> ->. Qed.

Lemma skipRemaining_spec rest : ∀ w results,
  skipRemaining now rest w results
  = ({| events := events w ++ flat_map (skippedEvents now) rest;
        executed := executed w;
        steeringPolls := steeringPolls w |},
     results ++ map (skippedMessage now) rest).
Proof.
  induction rest as [|tc rest IH]; intros w results; simpl.
  - destruct w; simpl. by rewrite !app_nil_r.
  - rewrite IH. simpl. by rewrite <- !app_assoc.
Qed.

Section Steering.
Variable poll : nat → list Message.



End Steering.
End Loop.


End AgentLoopProofs.

Module EventStreamProofs.
Import EventStream.

Section Stream.
Context {T R : Type}.
Variable isComplete : T → bool.
Variable extractResult : T → R.


Lemma wellFormed_create : wellFormed (@create T R).
Proof. by split. Qed.

Lemma wellFormed_step s op :
  wellFormed s → wellFormed (step isComplete extractResult s op).
Proof.
  intros [Hw Hd]. destruct op as [event|result|consumer]; simpl.
  - unfold push. destruct (done s) eqn:Hdone; [split; [done|intros ?; congruence]|].
    destruct (waiting s) as [|waiter rest] eqn:Hwait; simpl.
    + split; [intros Hne; by destruct Hne|].
      destruct (isComplete event); [done|]. intros _. by apply Hd.
    + split; [intros _; by apply Hw|].
      destruct (isComplete event); [done|]. intros _. by apply Hd.
  - split; [intros Hne; by destruct Hne|done].
  - unfold next. destruct (suspended consumer s); [done|].
    destruct (queue s) as [|event rest] eqn:Hq; simpl.
    + destruct (done s) eqn:Hdone; simpl; (split; [done|]); [done|].
      intros _. by apply Hd.
    + split; [|done]. intros Hne. by apply Hw in Hne.
Qed.

Lemma wellFormed_run ops : ∀ s,
  wellFormed s → wellFormed (run isComplete extractResult ops s).
Proof.
  induction ops as [|op ops IH]; intros s Hs; [done|].
  apply IH, wellFormed_step, Hs.
Qed.








End Stream.


End EventStreamProofs.

Module ProxyProofs.
Import Ai Proxy Scenarios.

Section RoundTrip.
Variable parseStreamingJson : string → Json.

Lemma clientView_other open open' i block :
  open' !! i = open !! i → clientView open' i block = clientView open i block.
Proof. intros H. destruct block; simpl; by rewrite H. Qed.

Lemma assignIndex_end {A} (l : list (option A)) v : assignIndex l (length l) v = l ++ [Some v].
Proof.
  unfold assignIndex. rewrite decide_False by lia. by rewrite Nat.sub_diag.
Qed.

(** Appending a freshly started block on both sides. *)
Lemma mirrors_start content open clientContent block :
  mirrors content open clientContent →
  mirrors (content ++ [block]) (<[length content := ""]> open)
          (clientContent ++ [Some (clientView (<[length content := ""]> open)
                                              (length content) block)]).
Proof.
  intros [Hlen Hm]. split; [rewrite !length_app; simpl; lia|].
  intros i b Hi. destruct (decide (i = length content)) as [->|Hne].
  - rewrite list_lookup_middle in Hi by done. injection Hi as <-.
    by rewrite list_lookup_middle.
  - assert (Hlt : i < length content).
    { apply lookup_lt_Some in Hi. rewrite length_app in Hi. simpl in Hi. lia. }
    rewrite lookup_app_l in Hi by done. rewrite lookup_app_l by lia.
    rewrite (Hm i b Hi). do 2 f_equal. symmetry.
    apply clientView_other. by rewrite lookup_insert_ne.
Qed.

(** Replacing the block at an index on both sides. *)
Lemma mirrors_update content open open' clientContent i old block :
  mirrors content open clientContent →
  content !! i = Some old →
  (∀ j, j ≠ i → open' !! j = open !! j) →
  mirrors (<[i := block]> content) open'
          (<[i := Some (clientView open' i block)]> clientContent).
Proof.
  intros [Hlen Hm] Hold Hopen. split; [by rewrite !length_insert|].
  apply lookup_lt_Some in Hold as Hlt.
  intros j b Hj. destruct (decide (j = i)) as [->|Hne].
  - rewrite list_lookup_insert_eq in Hj by done. injection Hj as <-.
    by rewrite list_lookup_insert_eq by lia.
  - rewrite list_lookup_insert_ne in Hj by done.
    rewrite list_lookup_insert_ne by done.
    rewrite (Hm j b Hj). do 2 f_equal. symmetry. by apply clientView_other, Hopen.
Qed.

Lemma mirrors_closed content clientContent :
  mirrors content ∅ clientContent →
  clientContent = map (λ b, Some (asClientBlock (withoutThoughtSignature b))) content.
Proof.
  intros [Hlen Hm]. apply list_eq. intros i. rewrite list_lookup_fmap.
  destruct (content !! i) as [b|] eqn:Hb; simpl.
  - rewrite (Hm i b Hb). do 2 f_equal. destruct b; simpl; by rewrite ?lookup_empty.
  - apply lookup_ge_None. apply lookup_ge_None in Hb. lia.
Qed.

Lemma rebuild_step event proxyEvent emitted events partial partial' (Q : Partial → Prop) :
  strip event = Some proxyEvent →
  processProxyEvent parseStreamingJson proxyEvent partial = Emitted emitted partial' →
  (∃ proxyEvents rebuilt,
     stripAll events = Some proxyEvents
     ∧ rebuild parseStreamingJson proxyEvents partial' = Some rebuilt ∧ Q rebuilt) →
  ∃ proxyEvents rebuilt,
    stripAll (event :: events) = Some proxyEvents
    ∧ rebuild parseStreamingJson proxyEvents partial = Some rebuilt ∧ Q rebuilt.
Proof.
  intros Hstrip Hproc (proxyEvents & rebuilt & Hall & Hre & HQ).
  exists (proxyEvent :: proxyEvents), rebuilt. split; [|split; [|done]].
  - unfold stripAll in *. cbn [mapM]. rewrite Hstrip. simpl. by rewrite Hall.
  - cbn [rebuild]. by rewrite Hproc.
Qed.

Lemma mirrors_lookup content open partial i block :
  mirrors content open (p_content partial) →
  content !! i = Some block →
  p_content partial !! i = Some (Some (clientView open i block)).
Proof. intros [_ Hm]. apply Hm. Qed.

(** The client follows a conformant stream without throwing and ends with
    an array that mirrors the server's content; after [done] every block is
    closed. *)
Lemma rebuild_conformant events : ∀ content open partial final,
  conformantFrom parseStreamingJson content open events final →
  mirrors content open (p_content partial) →
  ∃ proxyEvents rebuilt,
    stripAll events = Some proxyEvents
    ∧ rebuild parseStreamingJson proxyEvents partial = Some rebuilt
    ∧ (∃ openFinal, mirrors (am_content final) openFinal (p_content rebuilt)
                    ∧ (isErrored final = false → openFinal = ∅))
    ∧ p_stopReason rebuilt = am_stopReason final
    ∧ p_usage rebuilt = am_usage final.
Proof.
  induction events as [|event events IH]; intros content open partial final Hconf Hm;
    [done|].
  destruct event as [p|i p|i delta p|i finalText p|i p|i delta p|i finalText p
                    |i p|i delta p|i toolCall p|reason message|reason error];
    cbn [conformantFrom] in Hconf.
  - (* start *)
    destruct Hconf as [Hp Hrest].
    eapply rebuild_step; [reflexivity|reflexivity|]. by eapply IH.
  - (* text_start *)
    destruct Hconf as (-> & Hp & Hrest).
    eapply rebuild_step; [reflexivity|reflexivity|].
    eapply IH; [exact Hrest|simpl].
    rewrite Hp. destruct Hm as [Hlen Hmm]. rewrite <- Hlen, assignIndex_end, Hlen.
    pose proof (mirrors_start content open (p_content partial)
                  (BText {| text := ""; textSignature := None |}) (conj Hlen Hmm)) as Hs.
    simpl in Hs. by rewrite lookup_insert_eq in Hs.
  - (* text_delta *)
    destruct Hconf as ((t & signature & Hi & [acc Hopen] & Hp) & Hrest).
    pose proof (mirrors_lookup _ _ _ _ _ Hm Hi) as Hc. simpl in Hc. rewrite Hopen in Hc.
    eapply rebuild_step; [reflexivity|cbn [processProxyEvent]; by rewrite Hc|].
    eapply IH; [exact Hrest|simpl]. rewrite Hp.
    pose proof (mirrors_update _ open open _ i _
                  (BText {| text := String.append (text t) delta;
                            textSignature := signature |}) Hm Hi ltac:(done)) as Hu.
    simpl in Hu. by rewrite Hopen in Hu.
  - (* text_end *)
    destruct Hconf as ((t & signature & Hi & [acc Hopen] & -> & Hp) & Hrest).
    pose proof (mirrors_lookup _ _ _ _ _ Hm Hi) as Hc. simpl in Hc. rewrite Hopen in Hc.
    apply lookup_lt_Some in Hi as Hlt.
    eapply rebuild_step;
      [cbn [strip]; rewrite Hp, list_lookup_insert_eq by done; reflexivity
      |cbn [processProxyEvent]; by rewrite Hc|].
    eapply IH; [exact Hrest|simpl]. rewrite Hp.
    pose proof (mirrors_update _ open (delete i open) _ i _
                  (BText {| text := text t; textSignature := signature |}) Hm Hi
                  ltac:(intros j Hj; by rewrite lookup_delete_ne)) as Hu.
    simpl in Hu. by rewrite lookup_delete_eq in Hu.
  - (* thinking_start *)
    destruct Hconf as (-> & Hp & Hrest).
    eapply rebuild_step; [reflexivity|reflexivity|].
    eapply IH; [exact Hrest|simpl].
    rewrite Hp. destruct Hm as [Hlen Hmm]. rewrite <- Hlen, assignIndex_end, Hlen.
    pose proof (mirrors_start content open (p_content partial)
                  (BThinking {| thinking := ""; thinkingSignature := None |})
                  (conj Hlen Hmm)) as Hs.
    simpl in Hs. by rewrite lookup_insert_eq in Hs.
  - (* thinking_delta *)
    destruct Hconf as ((t & signature & Hi & [acc Hopen] & Hp) & Hrest).
    pose proof (mirrors_lookup _ _ _ _ _ Hm Hi) as Hc. simpl in Hc. rewrite Hopen in Hc.
    eapply rebuild_step; [reflexivity|cbn [processProxyEvent]; by rewrite Hc|].
    eapply IH; [exact Hrest|simpl]. rewrite Hp.
    pose proof (mirrors_update _ open open _ i _
                  (BThinking {| thinking := String.append (thinking t) delta;
                                thinkingSignature := signature |}) Hm Hi ltac:(done)) as Hu.
    simpl in Hu. by rewrite Hopen in Hu.
  - (* thinking_end *)
    destruct Hconf as ((t & signature & Hi & [acc Hopen] & -> & Hp) & Hrest).
    pose proof (mirrors_lookup _ _ _ _ _ Hm Hi) as Hc. simpl in Hc. rewrite Hopen in Hc.
    apply lookup_lt_Some in Hi as Hlt.
    eapply rebuild_step;
      [cbn [strip]; rewrite Hp, list_lookup_insert_eq by done; reflexivity
      |cbn [processProxyEvent]; by rewrite Hc|].
    eapply IH; [exact Hrest|simpl]. rewrite Hp.
    pose proof (mirrors_update _ open (delete i open) _ i _
                  (BThinking {| thinking := thinking t; thinkingSignature := signature |})
                  Hm Hi ltac:(intros j Hj; by rewrite lookup_delete_ne)) as Hu.
    simpl in Hu. by rewrite lookup_delete_eq in Hu.
  - (* toolcall_start *)
    destruct Hconf as (-> & (id & toolName & signature & Hp) & Hrest).
    eapply rebuild_step;
      [cbn [strip]; rewrite Hp, list_lookup_middle by done; reflexivity|reflexivity|].
    eapply IH; [exact Hrest|simpl].
    rewrite Hp. destruct Hm as [Hlen Hmm]. rewrite <- Hlen, assignIndex_end, Hlen.
    pose proof (mirrors_start content open (p_content partial)
                  (BToolCall {| tc_id := id; tc_name := toolName;
                                tc_arguments := emptyObject;
                                tc_thoughtSignature := signature |})
                  (conj Hlen Hmm)) as Hs.
    simpl in Hs. by rewrite lookup_insert_eq in Hs.
  - (* toolcall_delta *)
    destruct (open !! i) as [accumulated|] eqn:Hopen; [|done].
    destruct Hconf as ((t & Hi & Hp) & Hrest).
    pose proof (mirrors_lookup _ _ _ _ _ Hm Hi) as Hc. simpl in Hc. rewrite Hopen in Hc.
    eapply rebuild_step; [reflexivity|cbn [processProxyEvent]; by rewrite Hc|].
    eapply IH; [exact Hrest|simpl]. rewrite Hp.
    pose proof (mirrors_update _ open (<[i := String.append accumulated delta]> open) _ i _
                  (BToolCall {| tc_id := tc_id t; tc_name := tc_name t;
                                tc_arguments :=
                                  parsedArguments parseStreamingJson
                                    (String.append accumulated delta);
                                tc_thoughtSignature := tc_thoughtSignature t |})
                  Hm Hi ltac:(intros j Hj; by rewrite lookup_insert_ne)) as Hu.
    simpl in Hu. by rewrite lookup_insert_eq in Hu.
  - (* toolcall_end *)
    destruct Hconf as (Hi & [acc Hopen] & Hp & Hrest).
    pose proof (mirrors_lookup _ _ _ _ _ Hm Hi) as Hc. simpl in Hc. rewrite Hopen in Hc.
    eapply rebuild_step; [reflexivity|cbn [processProxyEvent]; by rewrite Hc|].
    eapply IH; [exact Hrest|simpl]. rewrite Hp.
    pose proof (mirrors_update _ open (delete i open) _ i _ (BToolCall toolCall) Hm Hi
                  ltac:(intros j Hj; by rewrite lookup_delete_ne)) as Hu.
    simpl in Hu. rewrite lookup_delete_eq in Hu. by rewrite list_insert_id in Hu.
  - (* done *)
    destruct Hconf as (-> & -> & -> & Hc & Hr & _).
    eexists [_], _. split; [reflexivity|]. split; [reflexivity|]. simpl.
    rewrite Hc. split; [by exists ∅|]. by split.
  - (* error *)
    destruct Hconf as (-> & -> & Hc & Hr & He).
    eexists [_], _. split; [reflexivity|]. split; [reflexivity|]. simpl.
    rewrite Hc. split; [|by split].
    exists open. split; [done|]. intros Hn. congruence.
Qed.

(** Stripping a conformant event sequence and rebuilding it with
    [processProxyEvent] never throws and reproduces the final message's
    stopReason and usage; after [done] it reproduces the content blocks
    (text and thinking with their signatures, tool calls with id, name and
    parsed arguments), except that a tool call's [thoughtSignature] is not
    carried over. *)
Lemma proxy_round_trip model now events final :
  conformant parseStreamingJson events final →
  ∃ proxyEvents rebuilt,
    stripAll events = Some proxyEvents
    ∧ rebuild parseStreamingJson proxyEvents (initialPartial model now) = Some rebuilt
    ∧ (isErrored final = false →
       p_content rebuilt
       = map (λ b, Some (asClientBlock (withoutThoughtSignature b))) (am_content final))
    ∧ p_stopReason rebuilt = am_stopReason final
    ∧ p_usage rebuilt = am_usage final.
Proof.
  intros Hconf.
  destruct (rebuild_conformant events [] ∅ (initialPartial model now) final Hconf)
    as (proxyEvents & rebuilt & Hs & Hr & (openFinal & Hm & Hopen) & Hsr & Hu).
  { split; [done|]. intros i block Hi. by rewrite lookup_nil in Hi. }
  exists proxyEvents, rebuilt. split; [done|]. split; [done|]. split; [|done].
  intros He. apply mirrors_closed. by rewrite <- (Hopen He).
Qed.

Lemma unsignedSlot_assignIndex (l : list (option ClientBlock)) i v :
  Forall unsignedSlot l → unsignedSlot (Some v) → Forall unsignedSlot (assignIndex l i v).
Proof.
  intros Hl Hv. unfold assignIndex. destruct (decide (i < length l)).
  - by apply Forall_insert.
  - apply Forall_app. split; [done|]. apply Forall_app. split; [|by constructor].
    by apply Forall_replicate.
Qed.

(** Whatever event arrives, [processProxyEvent] leaves the tool calls of
    the client's array without a [thoughtSignature]. *)
Lemma processProxyEvent_unsigned proxyEvent partial :
  Forall unsignedSlot (p_content partial) →
  match processProxyEvent parseStreamingJson proxyEvent partial with
  | Emitted _ partial' | Ignored partial' => Forall unsignedSlot (p_content partial')
  | Thrown _ => True
  end.
Proof.
  intros Hu.
  destruct proxyEvent as [|i|i delta|i signature|i|i delta|i signature
                         |i id toolName|i delta|i|reason usage|reason errorMessage usage];
    cbn [processProxyEvent]; try done;
    try (cbn [withClientContent p_content]; by apply unsignedSlot_assignIndex).
  all: destruct (p_content partial !! i) as [[[t|t|t partialJson]|]|] eqn:Hi; try done;
    cbn [withClientContent p_content]; apply Forall_insert; try done.
  all: exact (proj1 (Forall_lookup _ _) Hu _ _ Hi).
Qed.

Lemma rebuild_unsigned proxyEvents : ∀ partial rebuilt,
  Forall unsignedSlot (p_content partial) →
  rebuild parseStreamingJson proxyEvents partial = Some rebuilt →
  Forall unsignedSlot (p_content rebuilt).
Proof.
  induction proxyEvents as [|proxyEvent proxyEvents IH]; intros partial rebuilt Hu Hr.
  - by injection Hr as <-.
  - cbn [rebuild] in Hr.
    pose proof (processProxyEvent_unsigned proxyEvent partial Hu) as Hstep.
    destruct (processProxyEvent parseStreamingJson proxyEvent partial);
      [by eapply IH|by eapply IH|done].
Qed.

(** C9: the round trip fails for every message that holds a tool call with
    a [thoughtSignature].  The events on the wire have no field for it
    (the signatures of text and thinking blocks travel as
    [contentSignature]) and [processProxyEvent] creates every tool call
    without one, so whatever events the server sends, the rebuilt content
    differs from the content of the server's final message. *)
Theorem proxy_round_trip_loses_thoughtSignature model now events final t signature :
  BToolCall t ∈ am_content final →
  tc_thoughtSignature t = Some signature →
  ¬ RoundTrips parseStreamingJson model now events final.
Proof.
  intros Hin Hsig (proxyEvents & rebuilt & _ & Hrebuild & Hcontent & _).
  assert (Hu : Forall unsignedSlot (p_content rebuilt)).
  { eapply rebuild_unsigned; [|exact Hrebuild]. constructor. }
  rewrite Hcontent in Hu.
  assert (Hslot : unsignedSlot (Some (asClientBlock (BToolCall t)))).
  { eapply (proj1 (Forall_forall _ _) Hu).
    apply (list_elem_of_fmap_2 (λ b, Some (asClientBlock b))). exact Hin. }
  cbn in Hslot. congruence.
Qed.

End RoundTrip.

(** A conformant stream with a signed tool call, what it is on the wire,
    and what the client rebuilds from it. *)
Lemma proxy_round_trip_loses_thoughtSignature_witness :
  conformant parseStub signedCallStream (snapshot [BToolCall signedCall] StopToolUse)
  ∧ stripAll signedCallStream
    = Some [px_start; px_toolcall_start 0 "c1" "ls"; px_toolcall_end 0;
            px_done StopToolUse (am_usage (snapshot [BToolCall signedCall] StopToolUse))]
  ∧ (p_content <$> rebuild parseStub
                     [px_start; px_toolcall_start 0 "c1" "ls"; px_toolcall_end 0;
                      px_done StopToolUse
                        (am_usage (snapshot [BToolCall signedCall] StopToolUse))]
                     (initialPartial modelB 0))
    = Some [Some (KToolCall {| tc_id := "c1"; tc_name := "ls"; tc_arguments := emptyObject;
                               tc_thoughtSignature := None |} None)]
  ∧ ¬ RoundTrips parseStub modelB 0 signedCallStream
        (snapshot [BToolCall signedCall] StopToolUse).
Proof.
  split; [|split; [reflexivity|split; [reflexivity|]]].
  - unfold conformant, signedCallStream. cbn [conformantFrom am_content snapshot length].
    split; [done|]. split; [done|]. split; [by exists "c1", "ls", (Some "sig")|].
    split; [done|]. split; [by eexists|]. split; [done|].
    split; [done|]. split; [|done]. by rewrite delete_insert_eq, delete_empty.
  - apply (proxy_round_trip_loses_thoughtSignature parseStub modelB 0 signedCallStream
             (snapshot [BToolCall signedCall] StopToolUse) signedCall "sig").
    + apply list_elem_of_here.
    + reflexivity.
Defined.

(** The round trip of scenario S1. *)
Lemma proxy_round_trip_sample :
  ∃ proxyEvents rebuilt,
    stripAll sampleStream = Some proxyEvents
    ∧ rebuild parseStub proxyEvents (initialPartial modelB 0) = Some rebuilt
    ∧ p_content rebuilt
      = [ Some (KText {| text := "Hello!"; textSignature := Some "s" |});
          Some (KToolCall {| tc_id := "c1"; tc_name := "ls";
                             tc_arguments := JObj [("path", JStr ".")];
                             tc_thoughtSignature := None |} None) ]
    ∧ p_stopReason rebuilt = StopToolUse
    ∧ p_usage rebuilt = {| u_input := 3; u_output := 5; u_cacheRead := 0; u_cacheWrite := 0;
                           u_totalTokens := 8; u_cost := 0 |}.
Proof.
  destruct (proxy_round_trip parseStub modelB 0 sampleStream
           (snapshot [BText {| text := "Hello!"; textSignature := Some "s" |};
                      BToolCall {| tc_id := "c1"; tc_name := "ls";
                                   tc_arguments := JObj [("path", JStr ".")];
                                   tc_thoughtSignature := None |}] StopToolUse))
    as (proxyEvents & rebuilt & H1 & H2 & H3 & H4 & H5).
  - unfold conformant, sampleStream. cbn [conformantFrom am_content snapshot length app].
    split; [done|]. split; [done|]. split; [done|].
    split; [eexists _, _; split; [reflexivity|]; split; [by eexists|reflexivity]|].
    split; [eexists _, _; split; [reflexivity|]; split; [by eexists|]; split; reflexivity|].
    split; [done|]. split; [by eexists _, _, _|].
    rewrite lookup_insert_eq.
    split; [eexists; split; reflexivity|].
    split; [done|]. split; [by eexists|]. split; [done|].
    split; [done|]. split; [|done].
    by rewrite !delete_insert_eq, !delete_empty.
  - exists proxyEvents, rebuilt. split; [done|]. split; [done|].
    split; [exact (H3 eq_refl)|]. by split.
Qed.

End ProxyProofs.

Module SimpleOptionsProofs.
Import SimpleOptions.

(** For a positive base limit, a positive model limit and a non-negative
    thinking budget, all safe integers with a safe sum,
    [adjustMaxTokensForThinking] returns numbers: the result never exceeds
    the model limit and always leaves room for output,
    [0 <= thinkingBudget < maxTokens <= modelMaxTokens]. *)
Theorem adjustMaxTokensForThinking_bounds base modelMax level customBudgets budget :
  (0 < base)%Z → (0 < modelMax ≤ MAX_SAFE_INTEGER)%Z →
  requestedBudget level customBudgets = Value budget → (0 ≤ budget)%Z →
  (base + budget ≤ MAX_SAFE_INTEGER)%Z →
  ∃ maxTokens thinkingBudget,
    adjustMaxTokensForThinking base modelMax level customBudgets
    = Tokens maxTokens thinkingBudget
    ∧ maxTokens = Z.min (base + budget) modelMax
    ∧ (0 ≤ thinkingBudget < maxTokens)%Z
    ∧ (maxTokens ≤ modelMax)%Z
    ∧ (thinkingBudget ≤ budget)%Z.
Proof.
  intros Hb Hm Hreq Hbud Hsum.
  unfold adjustMaxTokensForThinking. unfold requestedBudget in Hreq. rewrite Hreq.
  assert (Hsafe : ∀ z, (- MAX_SAFE_INTEGER ≤ z ≤ MAX_SAFE_INTEGER)%Z → isSafeInteger z = true).
  { intros z Hz. unfold isSafeInteger. apply andb_true_iff. split; apply Z.leb_le; lia. }
  unfold MAX_SAFE_INTEGER in *.
  rewrite !Hsafe by lia. cbn [andb].
  destruct (Z.leb_spec (Z.min (base + budget) modelMax) budget);
    eexists _, _; (split; [reflexivity|]); lia.
Qed.

Lemma adjustMaxTokensForThinking_bounds_witness :
  ∃ maxTokens thinkingBudget,
    adjustMaxTokensForThinking 32000 8192 XHigh None = Tokens maxTokens thinkingBudget
    ∧ maxTokens = Z.min (32000 + 16384) 8192
    ∧ (0 ≤ thinkingBudget < maxTokens)%Z
    ∧ (maxTokens ≤ 8192)%Z
    ∧ (thinkingBudget ≤ 16384)%Z.
Proof.
  apply (adjustMaxTokensForThinking_bounds 32000 8192 XHigh None 16384);
    [lia | unfold MAX_SAFE_INTEGER; lia | reflexivity | lia | unfold MAX_SAFE_INTEGER; lia].
Defined.

(** Where [adjustMaxTokensForThinking] returns numbers: when the limit cuts
    into the thinking budget ([maxTokens <= budget]) and is at least 1024,
    exactly [minOutputTokens = 1024] tokens are left for output; when it
    does not, the budget is granted in full and the output room is what
    remains of the limit. *)
Theorem adjustMaxTokensForThinking_reserve base modelMax level customBudgets budget
    maxTokens thinkingBudget :
  requestedBudget level customBudgets = Value budget →
  adjustMaxTokensForThinking base modelMax level customBudgets
  = Tokens maxTokens thinkingBudget →
  ((maxTokens ≤ budget)%Z → (1024 ≤ maxTokens)%Z → (maxTokens - thinkingBudget = 1024)%Z)
  ∧ ((budget < maxTokens)%Z →
     thinkingBudget = budget
     ∧ (maxTokens - thinkingBudget = Z.min base (modelMax - budget))%Z).
Proof.
  intros Hreq. unfold adjustMaxTokensForThinking. unfold requestedBudget in Hreq.
  rewrite Hreq.
  destruct (_ && _); [|done].
  destruct (Z.leb_spec (Z.min (base + budget) modelMax) budget); intros [= <- <-]; lia.
Qed.

Lemma adjustMaxTokensForThinking_reserve_witness :
  ((8192 ≤ 16384)%Z → (1024 ≤ 8192)%Z → (8192 - 7168 = 1024)%Z)
  ∧ ((16384 < 8192)%Z →
     7168%Z = 16384%Z ∧ (8192 - 7168 = Z.min 32000 (8192 - 16384))%Z).
Proof.
  apply (adjustMaxTokensForThinking_reserve 32000 8192 High None 16384 8192 7168);
    reflexivity.
Defined.

(** A budget key that the caller passes with the value [undefined]
    replaces the default: the result is then not a number. *)
Lemma adjustMaxTokensForThinking_undefined_budget base modelMax level customBudgets :
  requestedBudget level customBudgets = Undefined →
  adjustMaxTokensForThinking base modelMax level customBudgets = NotANumber.
Proof.
  intros Hreq. unfold adjustMaxTokensForThinking. unfold requestedBudget in Hreq.
  by rewrite Hreq.
Qed.

End SimpleOptionsProofs.

Module ApiRegistryProofs.
Import Ai ApiRegistry Fixtures.

Section Registry.
Context {C O OS S : Type}.
Implicit Types (p : @ApiProvider C O OS S) (reg : gmap string (@RegisteredApiProvider C O OS S)).

(** Looking up the api of a provider just registered finds the wrapped
    provider. *)
Lemma register_then_lookup p sid reg :
  getApiProvider (api p) (registerApiProvider p sid reg)
  = Some {| i_api := api p;
            i_stream := wrapStream (api p) (stream p);
            i_streamSimple := wrapStreamSimple (api p) (streamSimple p) |}.
Proof. unfold getApiProvider, registerApiProvider. by rewrite lookup_insert_eq. Qed.

(** Every entry of the registry was put there by a registration for its
    key, with the functions of that provider wrapped. *)
Lemma calls_entries (history : list (@RegistryCall C O OS S)) name e :
  calls history !! name = Some e →
  ∃ p, Register p (sourceId e) ∈ history ∧ api p = name
       ∧ provider e = {| i_api := api p;
                         i_stream := wrapStream (api p) (stream p);
                         i_streamSimple := wrapStreamSimple (api p) (streamSimple p) |}.
Proof.
  revert name e. induction history as [|c history IH] using rev_ind; intros name e.
  - unfold calls. cbn. by rewrite lookup_empty.
  - unfold calls. rewrite foldl_app. cbn [foldl]. fold (calls history).
    destruct c as [p sid|id|]; cbn [call].
    + unfold registerApiProvider. destruct (decide (api p = name)) as [<-|Hne].
      * rewrite lookup_insert_eq. intros [= <-]. exists p. cbn.
        split; [apply elem_of_app; right; apply list_elem_of_singleton; reflexivity|done].
      * rewrite lookup_insert_ne by done. intros H.
        destruct (IH _ _ H) as (p' & Hin & Hapi & Hp). exists p'.
        split; [apply elem_of_app; by left|done].
    + unfold unregisterApiProviders. intros H.
      apply map_lookup_filter_Some in H as [H _].
      destruct (IH _ _ H) as (p' & Hin & Hapi & Hp). exists p'.
      split; [apply elem_of_app; by left|done].
    + unfold clearApiProviders. by rewrite lookup_empty.
Qed.

(** Whatever the history of registrations, removals and clearings, a
    provider found under an api name carries that name and guards the model:
    called with a model of another api its functions throw the error
    "Mismatched api: <model.api> expected <api>" without calling anything, and
    called with a model of that api they return what the function of a
    provider registered for that api returns. *)
Theorem registered_provider_guards_api (history : list (@RegistryCall C O OS S)) name q :
  getApiProvider name (calls history) = Some q →
  i_api q = name
  ∧ ∃ p sid,
      Register p sid ∈ history ∧ api p = name
      ∧ ∀ model context,
          (m_api model ≠ name →
           (∀ options, i_stream q model context options
                       = inl (String.append "Mismatched api: "
                                (String.append (m_api model)
                                   (String.append " expected " name))))
           ∧ ∀ options, i_streamSimple q model context options
                        = inl (String.append "Mismatched api: "
                                 (String.append (m_api model)
                                    (String.append " expected " name))))
          ∧ (m_api model = name →
             (∀ options, i_stream q model context options
                         = inr (stream p model context options))
             ∧ ∀ options, i_streamSimple q model context options
                          = inr (streamSimple p model context options)).
Proof.
  unfold getApiProvider. intros H.
  apply fmap_Some in H as (e & He & ->).
  destruct (calls_entries _ _ _ He) as (p & Hin & Hapi & Hp). rewrite Hp. subst name.
  split; [reflexivity|]. exists p, (sourceId e). split; [done|]. split; [done|].
  intros model context; split; intros H; cbn; unfold wrapStream, wrapStreamSimple.
  - apply String.eqb_neq in H. rewrite H. done.
  - apply String.eqb_eq in H. rewrite H. done.
Qed.

(** Registration touches one key only, and a later registration for the
    same api replaces the earlier one whatever its source. *)
Theorem register_overwrites p1 p2 sid1 sid2 reg :
  api p1 = api p2 →
  registerApiProvider p2 sid2 (registerApiProvider p1 sid1 reg)
  = registerApiProvider p2 sid2 reg
  ∧ ∀ other, other ≠ api p2 →
      getApiProvider other (registerApiProvider p2 sid2 (registerApiProvider p1 sid1 reg))
      = getApiProvider other reg.
Proof.
  intros Heq. unfold registerApiProvider, getApiProvider. rewrite Heq. split.
  - by rewrite insert_insert_eq.
  - intros other Hne. by rewrite !lookup_insert_ne.
Qed.

(** [unregisterApiProviders] removes exactly the entries registered under
    the given source: their apis are no longer found, every other api is
    found as before. *)
Theorem unregister_spec id api reg :
  getApiProvider api (unregisterApiProviders id reg)
  = match reg !! api with
    | Some entry => if fromSource id entry then None else Some (provider entry)
    | None => None
    end.
Proof.
  unfold getApiProvider, unregisterApiProviders.
  destruct (reg !! api) as [entry|] eqn:Hl.
  - destruct (fromSource id entry) eqn:Hs.
    + rewrite (map_lookup_filter_None_2 _ reg api); [done|].
      right. intros x Hx. rewrite Hl in Hx. injection Hx as <-. cbn. congruence.
    + rewrite (map_lookup_filter_Some_2 _ reg api entry); done.
  - rewrite (map_lookup_filter_None_2 _ reg api); [done|]. by left.
Qed.

(** Registering under a source and unregistering that source does not bring
    back what the registration replaced: the api is then unknown, whatever
    the registry held for it before. *)
Theorem unregister_does_not_restore p id reg :
  getApiProvider (api p) (unregisterApiProviders id (registerApiProvider p (Some id) reg))
  = None.
Proof.
  unfold getApiProvider, unregisterApiProviders, registerApiProvider.
  rewrite map_lookup_filter_None_2; [done|]. right. intros entry Hentry.
  rewrite lookup_insert_eq in Hentry. injection Hentry as <-.
  unfold fromSource. cbn. by rewrite String.eqb_refl.
Qed.

Section BuiltIn.
Variables streamAnthropic streamOpenAICompletions streamOpenAIResponses
  streamAzureOpenAIResponses streamOpenAICodexResponses streamGoogle
  streamGoogleGeminiCli streamGoogleVertex streamBedrock : Model → C → option O → S.
Variables streamSimpleAnthropic streamSimpleOpenAICompletions streamSimpleOpenAIResponses
  streamSimpleAzureOpenAIResponses streamSimpleOpenAICodexResponses streamSimpleGoogle
  streamSimpleGoogleGeminiCli streamSimpleGoogleVertex streamSimpleBedrock
  : Model → C → option OS → S.

(** After [resetApiProviders] the registry holds the nine built-in apis and
    nothing else, whatever it held before; the built-ins carry no source id,
    so no [unregisterApiProviders] removes them. *)
Theorem reset_is_builtins reg api id :
  (is_Some (getApiProvider api
     (resetApiProviders streamAnthropic streamOpenAICompletions streamOpenAIResponses
       streamAzureOpenAIResponses streamOpenAICodexResponses streamGoogle
       streamGoogleGeminiCli streamGoogleVertex streamBedrock
       streamSimpleAnthropic streamSimpleOpenAICompletions streamSimpleOpenAIResponses
       streamSimpleAzureOpenAIResponses streamSimpleOpenAICodexResponses streamSimpleGoogle
       streamSimpleGoogleGeminiCli streamSimpleGoogleVertex streamSimpleBedrock reg))
   ↔ api ∈ builtInApis)
  ∧ (resetApiProviders streamAnthropic streamOpenAICompletions streamOpenAIResponses
       streamAzureOpenAIResponses streamOpenAICodexResponses streamGoogle
       streamGoogleGeminiCli streamGoogleVertex streamBedrock
       streamSimpleAnthropic streamSimpleOpenAICompletions streamSimpleOpenAIResponses
       streamSimpleAzureOpenAIResponses streamSimpleOpenAICodexResponses streamSimpleGoogle
       streamSimpleGoogleGeminiCli streamSimpleGoogleVertex streamSimpleBedrock reg)
    = (resetApiProviders streamAnthropic streamOpenAICompletions streamOpenAIResponses
       streamAzureOpenAIResponses streamOpenAICodexResponses streamGoogle
       streamGoogleGeminiCli streamGoogleVertex streamBedrock
       streamSimpleAnthropic streamSimpleOpenAICompletions streamSimpleOpenAIResponses
       streamSimpleAzureOpenAIResponses streamSimpleOpenAICodexResponses streamSimpleGoogle
       streamSimpleGoogleGeminiCli streamSimpleGoogleVertex streamSimpleBedrock ∅)
  ∧ unregisterApiProviders id
      (resetApiProviders streamAnthropic streamOpenAICompletions streamOpenAIResponses
       streamAzureOpenAIResponses streamOpenAICodexResponses streamGoogle
       streamGoogleGeminiCli streamGoogleVertex streamBedrock
       streamSimpleAnthropic streamSimpleOpenAICompletions streamSimpleOpenAIResponses
       streamSimpleAzureOpenAIResponses streamSimpleOpenAICodexResponses streamSimpleGoogle
       streamSimpleGoogleGeminiCli streamSimpleGoogleVertex streamSimpleBedrock reg)
    = (resetApiProviders streamAnthropic streamOpenAICompletions streamOpenAIResponses
       streamAzureOpenAIResponses streamOpenAICodexResponses streamGoogle
       streamGoogleGeminiCli streamGoogleVertex streamBedrock
       streamSimpleAnthropic streamSimpleOpenAICompletions streamSimpleOpenAIResponses
       streamSimpleAzureOpenAIResponses streamSimpleOpenAICodexResponses streamSimpleGoogle
       streamSimpleGoogleGeminiCli streamSimpleGoogleVertex streamSimpleBedrock reg).
Proof.
  split; [|split].
  - unfold resetApiProviders, registerBuiltInApiProviders, clearApiProviders,
      getApiProvider, registerApiProvider, builtInApis. cbn.
    rewrite fmap_is_Some.
    repeat (rewrite lookup_insert_is_Some; rewrite ?lookup_empty).
    rewrite !elem_of_cons, elem_of_nil.
    split.
    + intros H. repeat (destruct H as [H|[_ H]]; [subst; tauto|]).
      by destruct H as [? ?].
    + intros H.
      destruct (decide (api = "bedrock-converse-stream")) as [->|?]; [by left|right; split; [done|]].
      destruct (decide (api = "google-vertex")) as [->|?]; [by left|right; split; [done|]].
      destruct (decide (api = "google-gemini-cli")) as [->|?]; [by left|right; split; [done|]].
      destruct (decide (api = "google-generative-ai")) as [->|?]; [by left|right; split; [done|]].
      destruct (decide (api = "openai-codex-responses")) as [->|?]; [by left|right; split; [done|]].
      destruct (decide (api = "azure-openai-responses")) as [->|?]; [by left|right; split; [done|]].
      destruct (decide (api = "openai-responses")) as [->|?]; [by left|right; split; [done|]].
      destruct (decide (api = "openai-completions")) as [->|?]; [by left|right; split; [done|]].
      destruct (decide (api = "anthropic-messages")) as [->|?]; [by left|right; split; [done|]].
      exfalso. naive_solver.
  - reflexivity.
  - unfold unregisterApiProviders. apply map_filter_id.
    intros k entry Hl. cbn.
    unfold resetApiProviders, registerBuiltInApiProviders, clearApiProviders,
      registerApiProvider in Hl. cbn in Hl.
    repeat (apply lookup_insert_Some in Hl; destruct Hl as [[_ <-]|[_ Hl]]; [done|]).
    by rewrite lookup_empty in Hl.
Qed.

End BuiltIn.
End Registry.

Lemma registered_provider_guards_api_witness :
  i_api (Build_ApiProviderInternal "custom"
           (wrapStream "custom" (stream (numberedProvider "custom" 2)))
           (wrapStreamSimple "custom" (streamSimple (numberedProvider "custom" 2))))
  = "custom"
  ∧ ∃ p sid,
      Register p sid ∈ [Register (numberedProvider "custom" 1) (Some "ext");
                        Unregister "other";
                        Register (numberedProvider "custom" 2) None]
      ∧ api p = "custom"
      ∧ ∀ model context,
          (m_api model ≠ "custom" →
           (∀ options,
              wrapStream "custom" (stream (numberedProvider "custom" 2)) model context options
              = inl (String.append "Mismatched api: "
                       (String.append (m_api model) (String.append " expected " "custom"))))
           ∧ ∀ options,
               wrapStreamSimple "custom" (streamSimple (numberedProvider "custom" 2))
                 model context options
               = inl (String.append "Mismatched api: "
                        (String.append (m_api model) (String.append " expected " "custom"))))
          ∧ (m_api model = "custom" →
             (∀ options,
                wrapStream "custom" (stream (numberedProvider "custom" 2)) model context options
                = inr (stream p model context options))
             ∧ ∀ options,
                 wrapStreamSimple "custom" (streamSimple (numberedProvider "custom" 2))
                   model context options
                 = inr (streamSimple p model context options)).
Proof.
  apply (registered_provider_guards_api
           [Register (numberedProvider "custom" 1) (Some "ext");
            Unregister "other";
            Register (numberedProvider "custom" 2) None]
           "custom"
           (Build_ApiProviderInternal "custom"
              (wrapStream "custom" (stream (numberedProvider "custom" 2)))
              (wrapStreamSimple "custom" (streamSimple (numberedProvider "custom" 2))))).
  reflexivity.
Defined.

Lemma register_overwrites_witness :
  registerApiProvider (numberedProvider "custom" 2) None
    (registerApiProvider (numberedProvider "custom" 1) (Some "ext") ∅)
  = registerApiProvider (numberedProvider "custom" 2) None ∅
  ∧ ∀ other, other ≠ api (numberedProvider "custom" 2) →
      getApiProvider other
        (registerApiProvider (numberedProvider "custom" 2) None
           (registerApiProvider (numberedProvider "custom" 1) (Some "ext") ∅))
      = getApiProvider other ∅.
Proof.
  apply (register_overwrites (numberedProvider "custom" 1) (numberedProvider "custom" 2)).
  reflexivity.
Defined.

End ApiRegistryProofs.

Module CompactionPrepareProofs.
Import Ai Compaction CompactionPrepare Scenarios Fixtures.

Section Usage.
Variable JSON_stringify : Json → string.

Lemma sumEstimates_foldl messages : ∀ acc,
  foldl (λ estimated message, (estimated + estimateTokens JSON_stringify message)%Z) acc messages
  = (acc + totalEstimate JSON_stringify messages)%Z.
Proof.
  induction messages as [|m messages IH]; intros acc; cbn; [lia|].
  rewrite IH. unfold totalEstimate. cbn. lia.
Qed.

Lemma sumEstimates_total messages :
  sumEstimates JSON_stringify messages = totalEstimate JSON_stringify messages.
Proof. unfold sumEstimates. rewrite sumEstimates_foldl. lia. Qed.

Lemma usageInfoLoop_none messages :
  Forall (λ m, getAssistantUsage m = None) messages →
  ∀ steps, getLastAssistantUsageInfoLoop messages steps = None.
Proof.
  intros Hall steps. induction steps as [|i IH]; [done|]. cbn.
  destruct (messages !! i) as [m|] eqn:Hm; cbn; [|done].
  rewrite Forall_lookup in Hall. by rewrite (Hall _ _ Hm).
Qed.

Lemma usageInfoLoop_found pre a tail usage :
  getAssistantUsage a = Some usage →
  Forall (λ m, getAssistantUsage m = None) tail →
  ∀ steps, length pre < steps ≤ length (pre ++ a :: tail) →
    getLastAssistantUsageInfoLoop (pre ++ a :: tail) steps = Some (usage, length pre).
Proof.
  intros Ha Htail steps. induction steps as [|i IH]; intros Hr; [lia|]. cbn.
  destruct (decide (i = length pre)) as [->|Hne].
  - rewrite list_lookup_middle by done. cbn. by rewrite Ha.
  - rewrite length_app in Hr. cbn in Hr.
    rewrite lookup_app_r by lia.
    replace (i - length pre) with (S (i - length pre - 1)) by lia. cbn.
    destruct (tail !! (i - length pre - 1)) as [m|] eqn:Hm.
    + rewrite Forall_lookup in Htail. cbn. rewrite (Htail _ _ Hm).
      apply IH. rewrite length_app. cbn. lia.
    + apply lookup_ge_None in Hm. lia.
Qed.

(** The estimate of a context that holds a usable assistant usage is the
    usage reported by the last such message plus the estimates of the
    messages after it; what precedes that message does not matter. *)
Theorem estimateContextTokens_from_last_usage pre a tail usage :
  getAssistantUsage a = Some usage →
  Forall (λ m, getAssistantUsage m = None) tail →
  estimateContextTokens JSON_stringify (pre ++ a :: tail)
  = {| tokens := (calculateContextTokens usage + totalEstimate JSON_stringify tail)%Z;
       usageTokens := calculateContextTokens usage;
       trailingTokens := totalEstimate JSON_stringify tail;
       lastUsageIndex := Some (length pre) |}.
Proof.
  intros Ha Htail. unfold estimateContextTokens, getLastAssistantUsageInfo.
  rewrite (usageInfoLoop_found pre a tail usage Ha Htail)
    by (rewrite length_app; cbn; lia).
  rewrite sumEstimates_total.
  replace (drop (S (length pre)) (pre ++ a :: tail)) with tail; [done|].
  rewrite (cons_middle a pre tail), app_assoc.
  rewrite drop_app_length'; [done|]. rewrite length_app. cbn. lia.
Qed.

(** Without a usable assistant usage every message is estimated, no
    usage index is reported, and the whole estimate counts as trailing. *)
Theorem estimateContextTokens_no_usage messages :
  Forall (λ m, getAssistantUsage m = None) messages →
  estimateContextTokens JSON_stringify messages
  = {| tokens := totalEstimate JSON_stringify messages;
       usageTokens := 0;
       trailingTokens := totalEstimate JSON_stringify messages;
       lastUsageIndex := None |}.
Proof.
  intros Hall. unfold estimateContextTokens, getLastAssistantUsageInfo.
  rewrite (usageInfoLoop_none _ Hall). by rewrite sumEstimates_total.
Qed.

End Usage.

Lemma estimateContextTokens_from_last_usage_witness :
  estimateContextTokens stringifyStub
    ([userSays "hello"] ++ assistantSays "hi" StopStop usage8 :: [userSays "12345678"])
  = {| tokens := (calculateContextTokens usage8 + totalEstimate stringifyStub [userSays "12345678"])%Z;
       usageTokens := calculateContextTokens usage8;
       trailingTokens := totalEstimate stringifyStub [userSays "12345678"];
       lastUsageIndex := Some (length [userSays "hello"]) |}.
Proof.
  apply (estimateContextTokens_from_last_usage stringifyStub [userSays "hello"]).
  - reflexivity.
  - repeat constructor.
Defined.

Lemma estimateContextTokens_no_usage_witness :
  estimateContextTokens stringifyStub
    [userSays "hello"; assistantSays "hi" StopError usage8]
  = {| tokens := totalEstimate stringifyStub
         [userSays "hello"; assistantSays "hi" StopError usage8];
       usageTokens := 0;
       trailingTokens := totalEstimate stringifyStub
         [userSays "hello"; assistantSays "hi" StopError usage8];
       lastUsageIndex := None |}.
Proof.
  apply (estimateContextTokens_no_usage stringifyStub). repeat constructor.
Defined.

(** [shouldCompact] never fires when compaction is disabled, and once it
    fires it keeps firing as the context grows. *)
Theorem shouldCompact_monotone c1 c2 w settings :
  shouldCompact c1 w settings = true → (c1 ≤ c2)%Z →
  enabled settings = true
  ∧ (w - reserveTokens settings < c1)%Z
  ∧ shouldCompact c2 w settings = true.
Proof.
  unfold shouldCompact. destruct (enabled settings); cbn; [|done].
  intros H Hle. apply Z.ltb_lt in H. repeat split; [lia|]. apply Z.ltb_lt. lia.
Qed.

Lemma shouldCompact_monotone_witness :
  enabled DEFAULT_COMPACTION_SETTINGS = true
  ∧ (200000 - reserveTokens DEFAULT_COMPACTION_SETTINGS < 190000)%Z
  ∧ shouldCompact 195000 200000 DEFAULT_COMPACTION_SETTINGS = true.
Proof.
  apply (shouldCompact_monotone 190000 195000 200000 DEFAULT_COMPACTION_SETTINGS);
    [reflexivity | lia].
Defined.

End CompactionPrepareProofs.

Module PreparationProofs.
Import Ai Compaction CompactionPrepare Scenarios Fixtures.

Section TurnStart.
Variable entries : list SessionEntry.

Lemma findTurnStartLoop_spec s steps : ∀ t,
  findTurnStartLoop entries s steps = Some t →
  (t = (-1)%Z
   ∧ ∀ j, s ≤ j < s + steps → ∃ entry, entries !! j = Some entry ∧ startsTurn entry = false)
  ∨ ∃ i, t = Z.of_nat i ∧ s ≤ i < s + steps
         ∧ (∃ entry, entries !! i = Some entry ∧ startsTurn entry = true)
         ∧ ∀ j, i < j < s + steps →
             ∃ entry, entries !! j = Some entry ∧ startsTurn entry = false.
Proof.
  induction steps as [|steps IH]; intros t; cbn.
  - intros [= <-]. left. split; [done|]. intros j Hj. lia.
  - destruct (entries !! (s + steps)) as [entry|] eqn:He; cbn; [|done].
    destruct (startsTurn entry) eqn:Hst.
    + intros [= <-]. right. exists (s + steps).
      split; [done|]. split; [lia|]. split; [eauto|]. intros; lia.
    + intros H. destruct (IH _ H) as [[-> Hall]|(i & -> & Hr & Hi & Hall)].
      * left. split; [done|]. intros j Hj.
        destruct (decide (j = s + steps)) as [->|]; [eauto|]. apply Hall. lia.
      * right. exists i.
        split; [done|]. split; [lia|]. split; [done|]. intros j Hj.
        destruct (decide (j = s + steps)) as [->|]; [eauto|]. apply Hall. lia.
Qed.

End TurnStart.

(** What a result of [findCutPoint] is made of. *)
Lemma findCutPoint_inv str entries s e k r :
  findCutPoint str entries s e k = Some r →
  (r = {| firstKeptEntryIndex := s; turnStartIndex := (-1)%Z; isSplitTurn := false |}
   ∧ findValidCutPoints entries s e = Some [])
  ∨ ∃ cutEntry,
      s ≤ firstKeptEntryIndex r < e
      ∧ entries !! firstKeptEntryIndex r = Some cutEntry
      ∧ ((isUserMessageEntry cutEntry = true
          ∧ turnStartIndex r = (-1)%Z ∧ isSplitTurn r = false)
         ∨ (isUserMessageEntry cutEntry = false
            ∧ findTurnStartIndex entries (firstKeptEntryIndex r) s = Some (turnStartIndex r)
            ∧ isSplitTurn r = negb (turnStartIndex r =? -1)%Z)).
Proof.
  unfold findCutPoint. intros H.
  destruct (findValidCutPoints entries s e) as [[|first cps]|] eqn:Hcp; cbn in H; [| |done].
  { injection H as <-. by left. }
  right.
  destruct (budgetWalk str entries k s (e - s) 0) as [stop|] eqn:Hbw; cbn in H; [|done].
  match type of H with
  | context [absorbMetadata ?a ?b ?c] =>
      remember c as cut0 eqn:Hcut0; destruct (absorbMetadata a b cut0) as [cut|] eqn:Hab
  end; cbn in H; [|done].
  destruct (entries !! cut) as [cutEntry|] eqn:Hce; cbn in H; [|done].
  assert (Hrange : s ≤ cut < e).
  { unfold findValidCutPoints in Hcp.
    destruct (CompactionProofs.findValidCutPointsLoop_spec entries _ _ _ Hcp)
      as (_ & _ & Hin).
    assert (Hmem : cut0 ∈ first :: cps).
    { assert (cut0 = match stop with
                     | Some i => closestCutPoint (first :: cps) i first
                     | None => first
                     end) as -> by (subst cut0; by destruct stop).
      destruct stop as [i|]; [|by left].
      apply CompactionProofs.closestCutPoint_elem. by left. }
    destruct (Hin _ Hmem) as [Hc _].
    destruct (CompactionProofs.absorbMetadata_spec entries _ _ _ Hab) as (Hle & Hge & _).
    lia. }
  exists cutEntry.
  destruct (isUserMessageEntry cutEntry) eqn:Hu; cbn in H.
  - injection H as <-. cbn. split; [done|]. split; [done|]. by left.
  - destruct (findTurnStartIndex entries cut s) as [t|] eqn:Ht; cbn in H; [|done].
    injection H as <-. cbn. split; [done|]. split; [done|]. by right.
Qed.

Lemma findCutPoint_defined str entries s e k :
  s ≤ e ≤ length entries → is_Some (findCutPoint str entries s e k).
Proof.
  intros Hr. unfold findCutPoint.
  destruct (CompactionProofs.findValidCutPointsLoop_total entries (e - s) s) as [cps Hcp];
    [lia|].
  unfold findValidCutPoints. rewrite Hcp. cbn.
  destruct cps as [|first cps]; [eauto|].
  destruct (CompactionProofs.budgetWalk_total str entries k s (e - s) 0%Z) as [stop Hbw];
    [lia|].
  rewrite Hbw. cbn -[closestCutPoint].
  destruct (CompactionProofs.findValidCutPointsLoop_spec entries _ _ _ Hcp) as (_ & _ & Hin).
  set (cut0 := match stop with
               | Some i => closestCutPoint (first :: cps) i first
               | None => first
               end).
  assert (Hmem : cut0 ∈ first :: cps).
  { subst cut0. destruct stop as [i|]; [|by left].
    apply CompactionProofs.closestCutPoint_elem. by left. }
  destruct (Hin _ Hmem) as [Hc _].
  destruct (CompactionProofs.absorbMetadata_total entries s cut0) as [cut Hab]; [lia|].
  rewrite Hab. cbn.
  destruct (CompactionProofs.absorbMetadata_spec entries _ _ _ Hab) as (Hle & Hge & _).
  destruct (lookup_lt_is_Some_2 entries cut) as [cutEntry Hce]; [lia|].
  rewrite Hce. cbn.
  destruct (isUserMessageEntry cutEntry); cbn; [eauto|].
  destruct (CompactionProofs.findTurnStartLoop_total entries s (S cut - s)) as [t Ht]; [lia|].
  unfold findTurnStartIndex. rewrite Ht. cbn. eauto.
Qed.

(** The turn start reported with a cut point.  [isSplitTurn] holds exactly
    when a turn start was found; the turn start then lies between the start
    of the range and the first kept entry (both included), the entry there
    starts a turn, no entry after it up to the first kept one does, and the
    first kept entry is not a user message. *)
Theorem split_turn_start str entries s e k r :
  findCutPoint str entries s e k = Some r →
  isSplitTurn r = negb (turnStartIndex r =? -1)%Z
  ∧ (isSplitTurn r = true →
     ∃ t cutEntry,
       turnStartIndex r = Z.of_nat t ∧ s ≤ t ≤ firstKeptEntryIndex r
       ∧ entries !! firstKeptEntryIndex r = Some cutEntry
       ∧ isUserMessageEntry cutEntry = false
       ∧ (∃ entry, entries !! t = Some entry ∧ startsTurn entry = true)
       ∧ ∀ j, t < j ≤ firstKeptEntryIndex r →
           ∃ entry, entries !! j = Some entry ∧ startsTurn entry = false).
Proof.
  intros H. destruct (findCutPoint_inv _ _ _ _ _ _ H)
    as [[-> _]|(cutEntry & Hrange & Hce & [(Hu & Ht & Hs)|(Hu & Ht & Hs)])].
  - cbn. split; done.
  - rewrite Hs, Ht. split; done.
  - split; [done|]. intros Hsplit. rewrite Hsplit in Hs.
    apply findTurnStartLoop_spec in Ht.
    destruct Ht as [[Hm _]|(i & Hi & Hr & Hent & Hall)].
    + rewrite Hm in Hs. done.
    + exists i, cutEntry. repeat split; try done; try lia.
      intros j Hj. apply Hall. lia.
Qed.

Lemma split_turn_start_witness :
  true = negb (0 =? -1)%Z
  ∧ (true = true →
     ∃ t cutEntry,
       0%Z = Z.of_nat t ∧ 0 ≤ t ≤ 1
       ∧ [userEntry "aaaa"; assistantEntry "bbbb"; toolResultEntry "cccc"] !! 1 = Some cutEntry
       ∧ isUserMessageEntry cutEntry = false
       ∧ (∃ entry, [userEntry "aaaa"; assistantEntry "bbbb"; toolResultEntry "cccc"] !! t
                   = Some entry ∧ startsTurn entry = true)
       ∧ ∀ j, t < j ≤ 1 →
           ∃ entry, [userEntry "aaaa"; assistantEntry "bbbb"; toolResultEntry "cccc"] !! j
                    = Some entry ∧ startsTurn entry = false).
Proof.
  apply (split_turn_start stringifyStub
           [userEntry "aaaa"; assistantEntry "bbbb"; toolResultEntry "cccc"] 0 3 2
           {| firstKeptEntryIndex := 1; turnStartIndex := 0; isSplitTurn := true |}).
  reflexivity.
Defined.

Section Prepare.
Variable JSON_stringify : Json → string.
Context {FileOperations : Type}.
Variable extractFileOperations : list AgentMessage → list PathEntry → Z → FileOperations.
Variable extractFileOpsFromMessage : AgentMessage → FileOperations → FileOperations.

Lemma collectMessagesLoop_spec pathEntries steps : ∀ i l,
  collectMessagesLoop pathEntries i steps = Some l →
  l = messagesBetween pathEntries i (i + steps).
Proof.
  unfold messagesBetween.
  induction steps as [|steps IH]; intros i l; cbn.
  - intros [= <-]. by replace (i + 0 - i) with 0 by lia.
  - destruct (pathEntries !! i) as [e|] eqn:He; cbn; [|done].
    destruct (collectMessagesLoop pathEntries (S i) steps) as [rest|] eqn:Hrest; cbn; [|done].
    intros [= <-]. apply IH in Hrest.
    replace (i + S steps - i) with (S steps) by lia.
    replace (S i + steps - S i) with steps in Hrest by lia.
    rewrite (drop_S _ _ _ He). cbn. by rewrite Hrest.
Qed.

Lemma collectMessagesLoop_total pathEntries steps : ∀ i,
  i + steps ≤ length pathEntries → is_Some (collectMessagesLoop pathEntries i steps).
Proof.
  induction steps as [|steps IH]; intros i Hr; cbn; [eauto|].
  destruct (lookup_lt_is_Some_2 pathEntries i) as [e He]; [lia|]. rewrite He. cbn.
  destruct (IH (S i)) as [rest Hrest]; [lia|]. rewrite Hrest. cbn. eauto.
Qed.

Lemma collectMessages_spec pathEntries (a b : nat) l :
  collectMessages pathEntries (Z.of_nat a) (Z.of_nat b) = Some l →
  l = messagesBetween pathEntries a b.
Proof.
  unfold collectMessages.
  destruct (Z.leb_spec (Z.of_nat b) (Z.of_nat a)).
  - intros [= <-]. unfold messagesBetween. by replace (b - a) with 0 by lia.
  - destruct (Z.ltb_spec (Z.of_nat a) 0); [lia|].
    intros Hl. apply collectMessagesLoop_spec in Hl.
    rewrite Nat2Z.id in Hl. by replace (a + Z.to_nat (Z.of_nat b - Z.of_nat a)) with b in Hl by lia.
Qed.

Lemma collectMessages_total pathEntries (a b : nat) :
  b ≤ length pathEntries →
  is_Some (collectMessages pathEntries (Z.of_nat a) (Z.of_nat b)).
Proof.
  intros Hb. unfold collectMessages.
  destruct (Z.leb_spec (Z.of_nat b) (Z.of_nat a)); [eauto|].
  destruct (Z.ltb_spec (Z.of_nat a) 0); [lia|].
  apply collectMessagesLoop_total. lia.
Qed.

Lemma messagesBetween_app pathEntries a b c :
  a ≤ b ≤ c →
  messagesBetween pathEntries a b ++ messagesBetween pathEntries b c
  = messagesBetween pathEntries a c.
Proof.
  intros Hr. unfold messagesBetween. rewrite <- omap_app. f_equal.
  replace (drop b pathEntries) with (drop (b - a) (drop a pathEntries))
    by (rewrite drop_drop; f_equal; lia).
  rewrite take_take_drop. f_equal. lia.
Qed.

Lemma findPrevCompactionIndex_spec pathEntries steps :
  (findPrevCompactionIndex pathEntries steps = (-1)%Z
   ∧ ∀ j e, j < steps → pathEntries !! j = Some e → isCompactionEntry (entry e) = false)
  ∨ ∃ i, findPrevCompactionIndex pathEntries steps = Z.of_nat i ∧ i < steps
         ∧ (∃ e, pathEntries !! i = Some e ∧ isCompactionEntry (entry e) = true)
         ∧ ∀ j e, i < j < steps → pathEntries !! j = Some e →
             isCompactionEntry (entry e) = false.
Proof.
  induction steps as [|steps IH]; cbn.
  - left. split; [done|]. intros; lia.
  - destruct (pathEntries !! steps) as [e|] eqn:He.
    + destruct (isCompactionEntry (entry e)) eqn:Hc.
      * right. exists steps. repeat split; [lia|eauto|]. intros; lia.
      * destruct IH as [[-> Hall]|(i & -> & Hi & Hent & Hall)].
        -- left. split; [done|]. intros j e' Hj Hl.
           destruct (decide (j = steps)) as [->|]; [congruence|]. eapply Hall; [|done]. lia.
        -- right. exists i. repeat split; [lia|done|]. intros j e' Hj Hl.
           destruct (decide (j = steps)) as [->|]; [congruence|]. eapply Hall; [|done]. lia.
    + destruct IH as [[-> Hall]|(i & -> & Hi & Hent & Hall)].
      * left. split; [done|]. intros j e' Hj Hl.
        destruct (decide (j = steps)) as [->|]; [congruence|]. eapply Hall; [|done]. lia.
      * right. exists i. repeat split; [lia|done|]. intros j e' Hj Hl.
        destruct (decide (j = steps)) as [->|]; [congruence|]. eapply Hall; [|done]. lia.
Qed.

(** What a preparation is made of.  The range starts right after the
    last compaction entry of the path (at 0 when there is none), the first
    kept entry lies in it and carries the reported id, and the messages to
    summarise followed by the turn-prefix messages are exactly the messages
    of the entries from the start of the range up to the first kept entry:
    nothing before the kept tail is dropped or summarised twice. *)
Theorem prepareCompaction_partition pathEntries settings p :
  prepareCompaction JSON_stringify extractFileOperations extractFileOpsFromMessage
    pathEntries settings = Some p →
  ∃ b k firstKept,
    (b = 0 ∨ ∃ e, pathEntries !! (b - 1) = Some e ∧ isCompactionEntry (entry e) = true)
    ∧ (∀ j e, b ≤ j → pathEntries !! j = Some e → isCompactionEntry (entry e) = false)
    ∧ b ≤ k
    ∧ pathEntries !! k = Some firstKept
    ∧ id firstKept = Some (cp_firstKeptEntryId p)
    ∧ cp_messagesToSummarize p ++ cp_turnPrefixMessages p = messagesBetween pathEntries b k
    ∧ (cp_isSplitTurn p = false → cp_turnPrefixMessages p = [])
    ∧ cp_settings p = settings.
Proof.
  unfold prepareCompaction. intros H.
  destruct (match last pathEntries with Some e => isCompactionEntry (entry e) | None => false end);
    [done|].
  set (prev := findPrevCompactionIndex pathEntries (length pathEntries)) in *.
  set (b := Z.to_nat (prev + 1)) in *.
  destruct (collectMessages pathEntries _ (Z.of_nat (length pathEntries))) as [usageMessages|];
    cbn in H; [|done].
  destruct (findCutPoint JSON_stringify (map entry pathEntries) b (length pathEntries)
              (keepRecentTokens settings)) as [cutPoint|] eqn:Hcut; cbn in H; [|done].
  destruct (pathEntries !! firstKeptEntryIndex cutPoint) as [firstKept|] eqn:Hfk; cbn in H;
    [|done].
  destruct (truthy (id firstKept)); cbn in H; [|done].
  destruct (id firstKept) as [firstKeptEntryId|] eqn:Hid; cbn in H; [|done].
  match type of H with
  | context [collectMessages pathEntries (Z.of_nat b) ?h] =>
      destruct (collectMessages pathEntries (Z.of_nat b) h) as [toSummarize|] eqn:Hsum
  end; cbn in H; [|done].
  match type of H with
  | context [mbind _ ?c] => destruct c as [turnPrefix|] eqn:Hpre
  end; cbn in H; [|done].
  injection H as <-. cbn.
  exists b, (firstKeptEntryIndex cutPoint), firstKept.
  assert (Hb : (b = 0 ∨ ∃ e, pathEntries !! (b - 1) = Some e
                             ∧ isCompactionEntry (entry e) = true)
               ∧ ∀ j e, b ≤ j → pathEntries !! j = Some e →
                   isCompactionEntry (entry e) = false).
  { destruct (findPrevCompactionIndex_spec pathEntries (length pathEntries))
      as [[Hp Hall]|(i & Hp & Hi & Hent & Hall)]; fold prev in Hp.
    - split; [left; lia|]. intros j e Hj Hl. eapply Hall; [|done].
      by eapply lookup_lt_Some.
    - split.
      + right. replace (b - 1) with i by lia. done.
      + intros j e Hj Hl. eapply Hall; [|done]. split; [lia|]. by eapply lookup_lt_Some. }
  destruct Hb as [Hb1 Hb2].
  assert (Hinv := findCutPoint_inv _ _ _ _ _ _ Hcut).
  assert (Hbk : b ≤ firstKeptEntryIndex cutPoint).
  { destruct Hinv as [[-> _]|(? & ? & _)]; cbn; lia. }
  repeat (split; [done|]).
  split; [|split; [|done]].
  - destruct (isSplitTurn cutPoint) eqn:Hsplit.
    + destruct Hinv as [[-> _]|(cutEntry & Hrange & Hce & [(Hu & Ht & Hs)|(Hu & Ht & Hs)])];
        [done|congruence|].
      apply findTurnStartLoop_spec in Ht.
      destruct Ht as [[Hm _]|(t & Ht & Hr & _)]; [rewrite Hm in Hs; done|].
      rewrite Ht in Hsum, Hpre.
      apply collectMessages_spec in Hsum, Hpre. subst.
      apply messagesBetween_app. lia.
    + injection Hpre as <-. rewrite app_nil_r.
      by apply collectMessages_spec in Hsum.
  - intros Hsplit. rewrite Hsplit in Hpre. by injection Hpre as <-.
Qed.

(** When every entry carries an id, a preparation exists exactly for a
    non-empty path whose last entry is not a compaction: the function
    returns [undefined] on an empty path and right after a compaction, and
    no index it computes falls outside the path. *)
Theorem prepareCompaction_defined pathEntries settings :
  Forall (λ e, truthy (id e) = true) pathEntries →
  is_Some (prepareCompaction JSON_stringify extractFileOperations extractFileOpsFromMessage
             pathEntries settings)
  ↔ ∃ e, last pathEntries = Some e ∧ isCompactionEntry (entry e) = false.
Proof.
  intros Hids. split.
  - intros [p Hp]. unfold prepareCompaction in Hp.
    destruct (last pathEntries) as [e|] eqn:Hlast.
    + destruct (isCompactionEntry (entry e)) eqn:Hc; [done|]. eauto.
    + apply last_None in Hlast. subst pathEntries. cbn in Hp.
      unfold collectMessages in Hp. cbn in Hp. done.
  - intros (e & Hlast & Hc). unfold prepareCompaction. rewrite Hlast, Hc.
    set (prev := findPrevCompactionIndex pathEntries (length pathEntries)).
    assert (Hlen : 0 < length pathEntries).
    { destruct pathEntries; [done|]. cbn. lia. }
    assert (Hprev : (-1 ≤ prev)%Z ∧ Z.to_nat (prev + 1) < length pathEntries).
    { destruct (findPrevCompactionIndex_spec pathEntries (length pathEntries))
        as [[Hp Hall]|(i & Hp & Hi & (e' & He' & Hc') & Hall)]; fold prev in Hp.
      - lia.
      - split; [lia|].
        destruct (decide (i = length pathEntries - 1)) as [->|Hne]; [|lia].
        rewrite last_lookup in Hlast.
        replace (pred (length pathEntries)) with (length pathEntries - 1) in Hlast by lia.
        congruence. }
    destruct Hprev as [Hp1 Hp2].
    set (usageStart := if (0 <=? prev)%Z then prev else 0%Z).
    assert (Hus : usageStart = Z.of_nat (Z.to_nat usageStart)).
    { subst usageStart. destruct (Z.leb_spec 0 prev); lia. }
    rewrite Hus.
    destruct (collectMessages_total pathEntries (Z.to_nat usageStart) (length pathEntries))
      as [usageMessages ->]; [lia|]. cbn.
    destruct (findCutPoint_defined JSON_stringify (map entry pathEntries)
                (Z.to_nat (prev + 1)) (length pathEntries) (keepRecentTokens settings))
      as [cutPoint Hcut]; [rewrite length_map; lia|].
    rewrite Hcut. cbn.
    assert (Hinv := findCutPoint_inv _ _ _ _ _ _ Hcut).
    assert (Hk : Z.to_nat (prev + 1) ≤ firstKeptEntryIndex cutPoint < length pathEntries).
    { destruct Hinv as [[-> _]|(? & ? & _)]; cbn; lia. }
    destruct (lookup_lt_is_Some_2 pathEntries (firstKeptEntryIndex cutPoint))
      as [firstKept Hfk]; [lia|].
    rewrite Hfk. cbn.
    rewrite Forall_lookup in Hids. rewrite (Hids _ _ Hfk). cbn.
    destruct (id firstKept) as [fid|] eqn:Hid; [|by specialize (Hids _ _ Hfk); rewrite Hid in Hids].
    cbn.
    destruct (isSplitTurn cutPoint) eqn:Hsplit.
    + destruct Hinv as [[-> _]|(cutEntry & Hrange & Hce & [(Hu & Ht & Hs)|(Hu & Ht & Hs)])];
        [done|congruence|].
      apply findTurnStartLoop_spec in Ht.
      destruct Ht as [[Hm _]|(t & Ht & Hr & _)]; [rewrite Hm in Hs; done|].
      rewrite Ht.
      destruct (collectMessages_total pathEntries (Z.to_nat (prev + 1)) t) as [l1 ->]; [lia|].
      cbn.
      destruct (collectMessages_total pathEntries t (firstKeptEntryIndex cutPoint))
        as [l2 ->]; [lia|].
      cbn. eauto.
    + destruct (collectMessages_total pathEntries (Z.to_nat (prev + 1))
                  (firstKeptEntryIndex cutPoint)) as [l1 ->]; [lia|].
      cbn. eauto.
Qed.

End Prepare.

Lemma prepareCompaction_partition_witness :
  ∃ b k firstKept,
    (b = 0 ∨ ∃ e, turnPath !! (b - 1) = Some e ∧ isCompactionEntry (entry e) = true)
    ∧ (∀ j e, b ≤ j → turnPath !! j = Some e → isCompactionEntry (entry e) = false)
    ∧ b ≤ k
    ∧ turnPath !! k = Some firstKept
    ∧ id firstKept = Some (cp_firstKeptEntryId turnPathPrepared)
    ∧ cp_messagesToSummarize turnPathPrepared ++ cp_turnPrefixMessages turnPathPrepared
      = messagesBetween turnPath b k
    ∧ (cp_isSplitTurn turnPathPrepared = false → cp_turnPrefixMessages turnPathPrepared = [])
    ∧ cp_settings turnPathPrepared = keepTwo.
Proof.
  apply (prepareCompaction_partition stringifyStub countOperations countOperation
           turnPath keepTwo turnPathPrepared).
  reflexivity.
Defined.

Lemma prepareCompaction_defined_witness :
  is_Some (prepareCompaction stringifyStub countOperations countOperation turnPath keepTwo)
  ↔ ∃ e, last turnPath = Some e ∧ isCompactionEntry (entry e) = false.
Proof.
  apply (prepareCompaction_defined stringifyStub countOperations countOperation
           turnPath keepTwo).
  repeat constructor.
Defined.

End PreparationProofs.

Module MessagesProofs.
Import Ai Messages.

Section Convert.
Variable numberToString : Z → string.

Lemma convertToLlm_omap messages :
  convertToLlm numberToString messages = omap (convertMessage numberToString) messages.
Proof.
  unfold convertToLlm. induction messages as [|m messages IH]; [done|]. cbn.
  destruct (convertMessage numberToString m); cbn; by rewrite IH.
Qed.

(** A history that holds LM messages only is returned as it is. *)
Theorem convertToLlm_llm_identity (messages : list Message) :
  convertToLlm numberToString (map Llm messages) = messages.
Proof.
  rewrite convertToLlm_omap.
  induction messages as [|m messages IH]; [done|]. cbn. by rewrite IH.
Qed.

(** The conversion never touches the model's side of the conversation.
    The assistant and tool-result messages of the output are those of the
    input, unchanged and in the same order, so every other message that
    reaches the model is a user message; and the only messages left out are
    the bash executions excluded from the context. *)
Theorem convertToLlm_preserves_model_turns messages :
  omap modelTurn (convertToLlm numberToString messages) = omap modelTurnOf messages
  ∧ length (convertToLlm numberToString messages) + length (List.filter isExcluded messages)
    = length messages.
Proof.
  rewrite convertToLlm_omap.
  induction messages as [|m messages [IH1 IH2]]; [done|].
  destruct m as [[u|a|r]|b|c|b|c]; cbn; rewrite ?IH1; try (split; [done|lia]).
  destruct (excludeFromContext b) as [[|]|]; cbn; split; try done; lia.
Qed.

End Convert.

End MessagesProofs.

Module ResourceLoaderProofs.
Import Ai Js ResourceLoader.

Lemma mapGet_Some {V} key (m : list (string * V)) v :
  mapGet key m = Some v → (key, v) ∈ m.
Proof.
  induction m as [|[k v'] m IH]; cbn; [done|].
  destruct (String.eqb_spec k key) as [->|Hne].
  - intros [= ->]. by left.
  - intros H. right. by apply IH.
Qed.

Lemma mapGet_None {V} key (m : list (string * V)) :
  mapGet key m = None → key ∉ map fst m.
Proof.
  induction m as [|[k v'] m IH]; cbn; [intros _; by apply not_elem_of_nil|].
  destruct (String.eqb_spec k key) as [->|Hne]; [done|].
  intros H. apply not_elem_of_cons. split; [done|]. by apply IH.
Qed.

Section Merge.
Variables cwd homedir : string.
Variables join resolve : string → string → string.

Lemma mergeStep_foldl paths : ∀ st,
  NoDup (merged st) → (∀ x, x ∈ merged st ↔ x ∈ seen st) →
  NoDup (merged (foldl (mergeStep cwd homedir join resolve) st paths))
  ∧ (∀ x, x ∈ merged (foldl (mergeStep cwd homedir join resolve) st paths)
          ↔ x ∈ merged st ∨ x ∈ map (resolveResourcePath cwd homedir join resolve) paths)
  ∧ merged st `prefix_of` merged (foldl (mergeStep cwd homedir join resolve) st paths)
  ∧ (∀ x, x ∈ merged (foldl (mergeStep cwd homedir join resolve) st paths)
          ↔ x ∈ seen (foldl (mergeStep cwd homedir join resolve) st paths)).
Proof.
  induction paths as [|p paths IH]; intros st Hnd Hseen; cbn.
  - split; [done|]. split; [|done]. intros x. rewrite elem_of_nil. tauto.
  - set (r := resolveResourcePath cwd homedir join resolve p).
    assert (Hstep : NoDup (merged (mergeStep cwd homedir join resolve st p))
                    ∧ (∀ x, x ∈ merged (mergeStep cwd homedir join resolve st p)
                            ↔ x ∈ seen (mergeStep cwd homedir join resolve st p))
                    ∧ (∀ x, x ∈ merged (mergeStep cwd homedir join resolve st p)
                            ↔ x ∈ merged st ∨ x = r)
                    ∧ merged st `prefix_of` merged (mergeStep cwd homedir join resolve st p)).
    { unfold mergeStep. fold r. destruct (decide (r ∈ seen st)) as [Hin|Hnin]; cbn.
      - split; [done|]. split; [done|]. split; [|done].
        intros x. split; [tauto|]. intros [?| ->]; [done|]. by apply Hseen.
      - split.
        { apply NoDup_app. split; [done|]. split; [|apply NoDup_singleton].
          intros x Hx Hx'. apply list_elem_of_singleton in Hx'. subst.
          apply Hnin. by apply Hseen. }
        split.
        { intros x. rewrite elem_of_app, list_elem_of_singleton, elem_of_union, elem_of_singleton.
          rewrite Hseen. tauto. }
        split.
        { intros x. by rewrite elem_of_app, list_elem_of_singleton. }
        by apply prefix_app_r. }
    destruct Hstep as (Hnd' & Hseen' & Hel & Hpre).
    destruct (IH _ Hnd' Hseen') as (H1 & H2 & H3 & H4).
    split; [done|]. split; [|split; [|done]].
    + intros x. rewrite H2, Hel, elem_of_cons. tauto.
    + by etrans.
Qed.

(** [mergePaths] returns every resolved path once: the result has no
    duplicates, holds exactly the resolved forms of the given paths, and the
    primary paths come first, in the order and at the positions they have
    when merged alone. *)
Theorem mergePaths_spec primary additional :
  NoDup (mergePaths cwd homedir join resolve primary additional)
  ∧ (∀ x, x ∈ mergePaths cwd homedir join resolve primary additional
          ↔ x ∈ map (resolveResourcePath cwd homedir join resolve) (primary ++ additional))
  ∧ mergePaths cwd homedir join resolve primary []
    `prefix_of` mergePaths cwd homedir join resolve primary additional.
Proof.
  unfold mergePaths.
  destruct (mergeStep_foldl (primary ++ additional) {| merged := []; seen := ∅ |})
    as (H1 & H2 & _); [apply NoDup_nil_2|by intros x; cbn; rewrite elem_of_nil, elem_of_empty|].
  split; [done|]. split.
  - intros x. rewrite H2. cbn. rewrite elem_of_nil. tauto.
  - rewrite app_nil_r, foldl_app.
    destruct (mergeStep_foldl primary {| merged := []; seen := ∅ |})
      as (H1' & H2' & _ & Hseen);
      [apply NoDup_nil_2|by intros x; cbn; rewrite elem_of_nil, elem_of_empty|].
    set (st := foldl _ _ primary) in *.
    destruct (mergeStep_foldl additional st H1' Hseen) as (_ & _ & H3 & _). done.
Qed.

End Merge.

Section Prompts.
Context {PromptTemplate : Type}.
Variable name : PromptTemplate → string.
Variable filePath : PromptTemplate → string.

Lemma dedupeInv_step processed st prompt :
  dedupeInv name filePath processed st →
  dedupeInv name filePath (processed ++ [prompt]) (dedupeStep name filePath st prompt).
Proof.
  intros (I1 & I2 & I3 & I4 & I5 & I6). unfold dedupeStep.
  assert (Hfirst : ∀ w, w ∈ map snd (seenPrompts st) →
            ∃ pre post, processed ++ [prompt] = pre ++ w :: post
                        ∧ Forall (λ q, name q ≠ name w) pre).
  { intros w Hw. destruct (I3 w Hw) as (pre & post & -> & Hpre).
    exists pre, (post ++ [prompt]). split; [|done]. by rewrite <- app_assoc. }
  destruct (mapGet (name prompt) (seenPrompts st)) as [existing|] eqn:Hget.
  - apply mapGet_Some in Hget.
    assert (Hex : existing ∈ map snd (seenPrompts st)).
    { apply list_elem_of_fmap. by exists (name prompt, existing). }
    assert (Hname : name existing = name prompt).
    { pose proof (proj1 (Forall_forall _ _) I1 _ Hget) as E. cbn in E. congruence. }
    unfold dedupeInv. cbn.
    split; [done|]. split; [done|]. split; [done|]. split; [|split].
    + intros p Hp. apply elem_of_app in Hp as [Hp|Hp]; [by apply I4|].
      apply list_elem_of_singleton in Hp as ->. eauto.
    + rewrite !length_app. cbn. lia.
    + intros d Hd. apply elem_of_app in Hd as [Hd|Hd].
      * destruct (I6 d Hd) as (w & l & Hw & Hl & Hn & Hp & Hc).
        exists w, l. repeat split; try done. apply elem_of_app. by left.
      * apply list_elem_of_singleton in Hd as ->. cbn.
        exists existing, prompt. repeat split; try done.
        apply elem_of_app. right. by apply list_elem_of_singleton.
  - apply mapGet_None in Hget. unfold dedupeInv. cbn.
    split; [|split; [|split; [|split; [|split]]]].
    + apply Forall_app. split; [done|]. by repeat constructor.
    + rewrite map_app. cbn. apply NoDup_app. split; [done|].
      split; [|apply NoDup_singleton].
      intros x Hx Hx'. apply list_elem_of_singleton in Hx'. by subst.
    + intros w Hw. rewrite map_app in Hw. apply elem_of_app in Hw as [Hw|Hw]; [by apply Hfirst|].
      cbn in Hw. apply list_elem_of_singleton in Hw as ->.
      exists processed, []. split; [done|].
      apply Forall_forall. intros q Hq Heq.
      destruct (I4 q Hq) as (w & Hw & Hn).
      apply Hget. apply list_elem_of_fmap in Hw as ([k w'] & -> & Hkw).
      apply list_elem_of_fmap. exists (k, w'). split; [|done]. cbn.
      pose proof (proj1 (Forall_forall _ _) I1 _ Hkw) as E. cbn in *. congruence.
    + intros p Hp. rewrite map_app. apply elem_of_app in Hp as [Hp|Hp].
      * destruct (I4 p Hp) as (w & Hw & Hn). exists w. split; [|done].
        apply elem_of_app. by left.
      * apply list_elem_of_singleton in Hp as ->. exists prompt. split; [|done].
        apply elem_of_app. right. cbn. by apply list_elem_of_singleton.
    + rewrite !length_app. cbn. lia.
    + intros d Hd. destruct (I6 d Hd) as (w & l & Hw & Hl & Hn & Hp & Hc).
      exists w, l. rewrite map_app. repeat split; try done; apply elem_of_app; by left.
Qed.

Lemma dedupeInv_foldl prompts : ∀ processed st,
  dedupeInv name filePath processed st →
  dedupeInv name filePath (processed ++ prompts) (foldl (dedupeStep name filePath) st prompts).
Proof.
  induction prompts as [|p prompts IH]; intros processed st Hinv; cbn.
  - by rewrite app_nil_r.
  - rewrite (cons_middle p processed prompts), app_assoc. apply IH.
    by apply dedupeInv_step.
Qed.

(** [dedupePrompts] keeps one prompt per name, the first one.  The kept
    prompts have pairwise distinct names; each of them is preceded in the
    input by no prompt of its name; every input prompt has its name kept;
    every input prompt is either kept or reported, so the two lists add up
    to the input; and each diagnostic names as winner a kept prompt of the
    same name as the loser. *)
Theorem dedupePrompts_spec prompts :
  NoDup (map name (dedupePrompts name filePath prompts).1)
  ∧ (∀ w, w ∈ (dedupePrompts name filePath prompts).1 →
       ∃ pre post, prompts = pre ++ w :: post ∧ Forall (λ q, name q ≠ name w) pre)
  ∧ (∀ p, p ∈ prompts →
       ∃ w, w ∈ (dedupePrompts name filePath prompts).1 ∧ name w = name p)
  ∧ length (dedupePrompts name filePath prompts).1
    + length (dedupePrompts name filePath prompts).2 = length prompts
  ∧ (∀ d, d ∈ (dedupePrompts name filePath prompts).2 →
       ∃ w l, w ∈ (dedupePrompts name filePath prompts).1 ∧ l ∈ prompts
              ∧ name w = name l ∧ d_path d = filePath l
              ∧ d_collision d = Some {| resourceType := "prompt"; c_name := name l;
                                        winnerPath := filePath w;
                                        loserPath := filePath l |}).
Proof.
  unfold dedupePrompts. cbn.
  destruct (dedupeInv_foldl prompts [] {| seenPrompts := []; diagnostics := [] |})
    as (I1 & I2 & I3 & I4 & I5 & I6).
  { unfold dedupeInv. cbn. split; [done|]. split; [apply NoDup_nil_2|].
    split; [by intros w Hw; apply elem_of_nil in Hw|].
    split; [by intros p Hp; apply elem_of_nil in Hp|].
    split; [done|]. by intros d Hd; apply elem_of_nil in Hd. }
  cbn in *. set (st := foldl _ _ prompts) in *.
  split; [|split; [done|split; [done|split; [by rewrite length_map|done]]]].
  replace (map name (map snd (seenPrompts st))) with (map fst (seenPrompts st)); [done|].
  clear -I1. induction I1 as [|[k v] l Hkv _ IH]; [done|]. cbn in *. by rewrite Hkv, IH.
Qed.

End Prompts.

End ResourceLoaderProofs.

Module SkillsProofs.
Import Ai Js ResourceLoader Skills ResourceLoaderProofs.

Section Load.
Variable realpathSync : string → option string.

Lemma loadInv_addSkill processed st skill :
  loadInv realpathSync processed st →
  loadInv realpathSync (processed ++ [skill]) (addSkill realpathSync st skill).
Proof.
  intros (J1 & J2 & J3 & J4 & J5 & J6). unfold addSkill.
  destruct (decide (realPathOf realpathSync skill ∈ realPathSet st)) as [Hin|Hnin].
  { unfold loadInv. repeat (split; [done|]). split.
    - intros s Hs. apply elem_of_app in Hs as [Hs|Hs]; [by apply J5|].
      apply list_elem_of_singleton in Hs as ->. left. by apply J4.
    - intros d Hd. destruct (J6 d Hd) as (w & l & Hw & Hl & Hn & ->).
      exists w, l. repeat split; try done. apply elem_of_app. by left. }
  destruct (mapGet (sk_name skill) (skillMap st)) as [existing|] eqn:Hget.
  - apply mapGet_Some in Hget.
    assert (Hex : existing ∈ map snd (skillMap st)).
    { apply list_elem_of_fmap. by exists (sk_name skill, existing). }
    assert (Hname : sk_name existing = sk_name skill).
    { pose proof (proj1 (Forall_forall _ _) J1 _ Hget) as E. cbn in E. congruence. }
    unfold loadInv. cbn. repeat (split; [done|]). split.
    + intros s Hs. apply elem_of_app in Hs as [Hs|Hs].
      * destruct (J5 s Hs) as [?|(w & Hw & Hn & Hd)]; [by left|right].
        exists w. repeat split; try done. apply elem_of_app. by left.
      * apply list_elem_of_singleton in Hs as ->. right. exists existing.
        repeat split; try done. apply elem_of_app. right. by apply list_elem_of_singleton.
    + intros d Hd. apply elem_of_app in Hd as [Hd|Hd].
      * destruct (J6 d Hd) as (w & l & Hw & Hl & Hn & ->).
        exists w, l. repeat split; try done. apply elem_of_app. by left.
      * apply list_elem_of_singleton in Hd as ->. exists existing, skill.
        repeat split; try done. apply elem_of_app. right. by apply list_elem_of_singleton.
  - apply mapGet_None in Hget. unfold loadInv. cbn. rewrite !map_app. cbn.
    split; [|split; [|split; [|split; [|split]]]].
    + apply Forall_app. split; [done|]. by repeat constructor.
    + apply NoDup_app. split; [done|]. split; [|apply NoDup_singleton].
      intros x Hx Hx'. apply list_elem_of_singleton in Hx'. by subst.
    + apply NoDup_app. split; [done|]. split; [|apply NoDup_singleton].
      intros x Hx Hx'. apply list_elem_of_singleton in Hx'. subst.
      apply Hnin. by apply J4.
    + intros x. rewrite elem_of_union, elem_of_singleton, elem_of_app, list_elem_of_singleton, J4.
      tauto.
    + intros s Hs. apply elem_of_app in Hs as [Hs|Hs].
      * destruct (J5 s Hs) as [?|(w & Hw & Hn & Hd)].
        -- left. apply elem_of_app. by left.
        -- right. exists w. repeat split; try done. apply elem_of_app. by left.
      * apply list_elem_of_singleton in Hs as ->. left. apply elem_of_app. right.
        by apply list_elem_of_singleton.
    + intros d Hd. destruct (J6 d Hd) as (w & l & Hw & Hl & Hn & ->).
      exists w, l. repeat split; try done; apply elem_of_app; by left.
Qed.

Lemma loadInv_foldl_addSkill skills : ∀ processed st,
  loadInv realpathSync processed st →
  loadInv realpathSync (processed ++ skills) (foldl (addSkill realpathSync) st skills).
Proof.
  induction skills as [|s skills IH]; intros processed st Hinv; cbn.
  - by rewrite app_nil_r.
  - rewrite (cons_middle s processed skills), app_assoc. apply IH.
    by apply loadInv_addSkill.
Qed.

Lemma allDiagnostics_foldl_addSkill skills : ∀ st,
  allDiagnostics (foldl (addSkill realpathSync) st skills) = allDiagnostics st.
Proof.
  induction skills as [|s skills IH]; intros st; cbn; [done|].
  rewrite IH. unfold addSkill.
  destruct (decide _); [done|]. by destruct (mapGet _ _).
Qed.

Lemma loadInv_addSkills processed st result :
  loadInv realpathSync processed st →
  loadInv realpathSync (processed ++ skills result) (addSkills realpathSync st result).
Proof.
  intros Hinv. unfold addSkills. apply loadInv_foldl_addSkill. exact Hinv.
Qed.

Lemma loadInv_foldl_addSkills results : ∀ processed st,
  loadInv realpathSync processed st →
  loadInv realpathSync (processed ++ flat_map skills results)
    (foldl (addSkills realpathSync) st results)
  ∧ allDiagnostics (foldl (addSkills realpathSync) st results)
    = allDiagnostics st ++ flat_map r_diagnostics results.
Proof.
  induction results as [|r results IH]; intros processed st Hinv; cbn.
  - by rewrite !app_nil_r.
  - destruct (IH _ _ (loadInv_addSkills processed st r Hinv)) as [H1 H2].
    rewrite app_assoc. split; [done|]. rewrite H2.
    unfold addSkills at 1. rewrite allDiagnostics_foldl_addSkill. cbn.
    by rewrite app_assoc.
Qed.

(** What [loadSkills] makes of the load results merged by [addSkills].
    The skills returned have pairwise distinct names and pairwise distinct
    real paths; every skill handed in is either present under its real path
    or reported as a collision against a returned skill of the same name;
    and the diagnostics are those of the load results, in order, followed
    by collisions only. *)
Theorem loadSkills_unique results :
  let out := loadResult (foldl (addSkills realpathSync) initialState results) in
  NoDup (map sk_name (skills out))
  ∧ NoDup (map (realPathOf realpathSync) (skills out))
  ∧ (∀ skill, skill ∈ flat_map skills results →
       realPathOf realpathSync skill ∈ map (realPathOf realpathSync) (skills out)
       ∨ ∃ winner, winner ∈ skills out ∧ sk_name winner = sk_name skill
                   ∧ collisionOf winner skill ∈ r_diagnostics out)
  ∧ ∃ collisions,
      r_diagnostics out = flat_map r_diagnostics results ++ collisions
      ∧ ∀ d, d ∈ collisions →
          ∃ winner skill, winner ∈ skills out ∧ skill ∈ flat_map skills results
                          ∧ sk_name winner = sk_name skill ∧ d = collisionOf winner skill.
Proof.
  cbn.
  destruct (loadInv_foldl_addSkills results [] initialState)
    as [(J1 & J2 & J3 & J4 & J5 & J6) Hall].
  { unfold loadInv, initialState. cbn. split; [done|]. split; [apply NoDup_nil_2|].
    split; [apply NoDup_nil_2|]. split; [by intros x; rewrite elem_of_nil, elem_of_empty|].
    split; [by intros s Hs; apply elem_of_nil in Hs|].
    by intros d Hd; apply elem_of_nil in Hd. }
  cbn in *. set (st := foldl _ _ results) in *.
  split; [|split; [done|split]].
  - replace (map sk_name (map snd (skillMap st))) with (map fst (skillMap st)); [done|].
    clear -J1. induction J1 as [|[k v] l Hkv _ IH]; [done|]. cbn in *. by rewrite Hkv, IH.
  - intros skill Hs. destruct (J5 skill Hs) as [?|(w & Hw & Hn & Hd)]; [by left|right].
    exists w. repeat split; try done. apply elem_of_app. by right.
  - exists (collisionDiagnostics st). by rewrite Hall.
Qed.

End Load.

Lemma chars_app s1 s2 : chars (String.append s1 s2) = chars s1 ++ chars s2.
Proof.
  unfold chars. induction s1 as [|c s1 IH]; [done|].
  change (String c s1 +:+ s2) with (String c (s1 +:+ s2)). cbn. by rewrite IH.
Qed.

Lemma escapeXml_cons a rest :
  escapeXml (String a rest) = String.append (escapeChar a) (escapeXml rest).
Proof.
  unfold escapeXml, escapeChar. cbn [replaceAll].
  destruct (Ascii.eqb a "&") eqn:E1; [apply Ascii.eqb_eq in E1; subst; reflexivity|].
  cbn [replaceAll].
  destruct (Ascii.eqb a "<") eqn:E2; [apply Ascii.eqb_eq in E2; subst; reflexivity|].
  cbn [replaceAll].
  destruct (Ascii.eqb a ">") eqn:E3; [apply Ascii.eqb_eq in E3; subst; reflexivity|].
  cbn [replaceAll].
  destruct (Ascii.eqb a quote) eqn:E4; [apply Ascii.eqb_eq in E4; subst; reflexivity|].
  cbn [replaceAll].
  destruct (Ascii.eqb a "'") eqn:E5; [apply Ascii.eqb_eq in E5; subst; reflexivity|].
  reflexivity.
Qed.

(** The text [escapeXml] returns holds none of the characters [<], [>],
    the double quote and the apostrophe, so a name, description or path put
    between tags cannot open or close one. *)
Theorem escapeXml_no_markup str :
  Forall (λ c, isMarkup c = false) (chars (escapeXml str)).
Proof.
  induction str as [|a rest IH]; [constructor|].
  rewrite escapeXml_cons, chars_app. apply Forall_app. split; [|done].
  unfold escapeChar.
  destruct (Ascii.eqb a "&") eqn:E1; [by repeat constructor|].
  destruct (Ascii.eqb a "<") eqn:E2; [by repeat constructor|].
  destruct (Ascii.eqb a ">") eqn:E3; [by repeat constructor|].
  destruct (Ascii.eqb a quote) eqn:E4; [by repeat constructor|].
  destruct (Ascii.eqb a "'") eqn:E5; [by repeat constructor|].
  repeat constructor. unfold isMarkup. by rewrite E2, E3, E4, E5.
Qed.

(** [escapeXml] loses nothing: two texts with the same escaped form are
    the same text. *)
Theorem escapeXml_injective s1 : ∀ s2,
  escapeXml s1 = escapeXml s2 → s1 = s2.
Proof.
  induction s1 as [|a r1 IH]; intros [|b r2] H; [done|..].
  - rewrite escapeXml_cons in H. unfold escapeChar in H. exfalso.
    repeat match type of H with
           | context [Ascii.eqb ?x ?y] => destruct (Ascii.eqb x y)
           end; discriminate H.
  - rewrite escapeXml_cons in H. unfold escapeChar in H. exfalso.
    repeat match type of H with
           | context [Ascii.eqb ?x ?y] => destruct (Ascii.eqb x y)
           end; discriminate H.
  - rewrite !escapeXml_cons in H. unfold escapeChar in H.
    repeat match type of H with
           | context [Ascii.eqb ?x ?y] => destruct (Ascii.eqb_spec x y); subst
           end; cbv [String.append] in H; simplify_eq; try done; f_equal; by apply IH.
Qed.

Lemma escapeXml_injective_witness : "a<b & c" = "a<b & c".
Proof. apply (escapeXml_injective "a<b & c" "a<b & c"). reflexivity. Defined.

Lemma startsWith_cons a p b s :
  startsWith (String a p) (String b s)
  = if Ascii.ascii_dec a b then startsWith p s else false.
Proof. reflexivity. Qed.

Lemma startsWith_nil s : startsWith "" s = true.
Proof. by destruct s. Qed.

Lemma append_cons c s t : String.append (String c s) t = String c (String.append s t).
Proof. reflexivity. Qed.

(** The rule [prefixIgnorePattern] produces under a directory prefix.
    A rule is produced only for a line that is neither blank nor a comment,
    and, the prefix being non-empty and not itself starting with [!], the
    rule is a negation exactly when the line is one. *)
Theorem prefixIgnorePattern_negation line prefix rule :
  prefix ≠ "" → startsWith "!" prefix = false →
  prefixIgnorePattern line prefix = Some rule →
  startsWith "!" rule = startsWith "!" line
  ∧ trim line ≠ "" ∧ startsWith "#" (trim line) = false.
Proof.
  intros Hne Hbang. unfold prefixIgnorePattern.
  destruct (String.eqb_spec (trim line) "") as [|Htrim]; [done|].
  destruct (startsWith "#" (trim line)) eqn:Hhash.
  { assert (startsWith "\#" (trim line) = false) as ->; [|done].
    destruct (trim line) as [|c t]; [done|].
    rewrite startsWith_cons in Hhash |- *.
    destruct (Ascii.ascii_dec "#" c) as [<-|]; [|discriminate].
    by destruct (Ascii.ascii_dec "\" "#"). }
  cbn [andb negb].
  destruct (String.eqb_spec prefix "") as [|_]; [done|]. cbn [negb].
  destruct prefix as [|p prefix]; [done|].
  rewrite startsWith_cons in Hbang.
  destruct (startsWith "!" line) eqn:Hline.
  - intros [= <-]. rewrite append_cons, startsWith_cons.
    destruct (Ascii.ascii_dec "!" "!"); [|done]. by rewrite startsWith_nil.
  - destruct (startsWith "\!" line); intros [= <-];
      rewrite append_cons, startsWith_cons;
      (destruct (Ascii.ascii_dec "!" p); [by rewrite startsWith_nil in Hbang|done]).
Qed.

Lemma prefixIgnorePattern_negation_witness :
  startsWith "!" "!src/build" = startsWith "!" "!/build"
  ∧ trim "!/build" ≠ "" ∧ startsWith "#" (trim "!/build") = false.
Proof.
  apply (prefixIgnorePattern_negation "!/build" "src/" "!src/build");
    [discriminate | reflexivity | reflexivity].
Defined.

End SkillsProofs.

Module ValidateProofs.
Import Ai Js ResourceLoader Skills SkillsProofs.

Lemma hyphen_or_alnum c : isNameChar c = true → c = "-"%char ∨ isAlnum c = true.
Proof.
  unfold isNameChar, isAlnum. intros H. apply orb_true_iff in H as [H|H]; [by right|left].
  apply Nat.eqb_eq in H. by rewrite <- (ascii_nat_embedding c), H.
Qed.

Lemma startsWith_hyphen c r :
  startsWith "-" (String c r) = if Ascii.ascii_dec "-" c then true else false.
Proof. rewrite startsWith_cons. destruct (Ascii.ascii_dec "-" c); [|done]. apply startsWith_nil. Qed.

Lemma joinHyphen_cons c w ws :
  String c (joinHyphen (w :: ws)) = joinHyphen (String c w :: ws).
Proof. by destruct ws. Qed.

Lemma name_shape n : ∀ s,
  String.length s ≤ n → s ≠ "" → allChars isNameChar s = true →
  startsWith "-" s = false → endsWith "-" s = false → includes "--" s = false →
  ∃ w ws, s = joinHyphen (w :: ws) ∧ Forall isWord (w :: ws).
Proof.
  induction n as [|n IH]; intros s Hlen Hne Hall Hstart Hend Hinc.
  - destruct s; [done|cbn in Hlen; lia].
  - destruct s as [|c r]; [done|].
    cbn [allChars] in Hall. apply andb_true_iff in Hall as [Hc Hr].
    rewrite startsWith_hyphen in Hstart.
    assert (Hcal : isAlnum c = true).
    { destruct (hyphen_or_alnum c Hc) as [->|]; [|done].
      by destruct (Ascii.ascii_dec "-" "-"). }
    destruct r as [|d r'].
    { exists (String c ""), []. split; [done|]. constructor; [|constructor].
      split; [done|]. cbn. by rewrite Hcal. }
    cbn [endsWith] in Hend. apply orb_false_iff in Hend as [_ Hend].
    cbn [includes] in Hinc. apply orb_false_iff in Hinc as [_ Hinc].
    cbn [String.length] in Hlen.
    destruct (Ascii.ascii_dec "-" d) as [<-|Hd].
    + cbn [allChars] in Hr. apply andb_true_iff in Hr as [_ Hr'].
      cbn [endsWith] in Hend. apply orb_false_iff in Hend as [Hlast Hend'].
      cbn [includes] in Hinc. apply orb_false_iff in Hinc as [Hdouble Hinc'].
      assert (Hne' : r' ≠ "") by (intros ->; done).
      assert (Hstart' : startsWith "-" r' = false).
      { rewrite startsWith_cons in Hdouble.
        by destruct (Ascii.ascii_dec "-" "-"). }
      destruct (IH r') as (w & ws & -> & Hw); try done; [cbn in Hlen; lia|].
      exists (String c ""), (w :: ws). split; [done|]. constructor; [|done].
      split; [done|]. cbn. by rewrite Hcal.
    + assert (Hstart' : startsWith "-" (String d r') = false).
      { rewrite startsWith_hyphen. by destruct (Ascii.ascii_dec "-" d). }
      destruct (IH (String d r')) as (w & ws & Heq & Hw); try done; [cbn in *; lia|].
      rewrite Heq. exists (String c w), ws. split; [apply joinHyphen_cons|].
      inversion Hw as [|? ? [Hw1 Hw2] Hws]; subst. constructor; [|done].
      split; [done|]. cbn. by rewrite Hcal, Hw2.
Qed.

Section Validate.
Variable numberToString : nat → string.

(** A name that [validateName] reports no error for is the name of its
    parent directory, has at most 64 characters, and is made of one or more
    non-empty runs of lowercase letters and digits joined by single
    hyphens. *)
Theorem validateName_accepts name parentDirName :
  validateName numberToString name parentDirName = [] →
  name = parentDirName
  ∧ String.length name ≤ MAX_NAME_LENGTH
  ∧ ∃ w ws, name = joinHyphen (w :: ws) ∧ Forall isWord (w :: ws).
Proof.
  unfold validateName. intros H.
  apply app_eq_nil in H as [H1 H]. apply app_eq_nil in H as [H2 H].
  apply app_eq_nil in H as [H3 H]. apply app_eq_nil in H as [H4 H5].
  destruct (String.eqb_spec name parentDirName) as [Heq|]; [|done].
  destruct (Nat.ltb_spec MAX_NAME_LENGTH (String.length name)); [done|].
  destruct (matchesNamePattern name) eqn:Hpat; [|done].
  destruct (startsWith "-" name || endsWith "-" name) eqn:Hhy; [done|].
  destruct (includes "--" name) eqn:Hinc; [done|].
  split; [done|]. split; [done|].
  unfold matchesNamePattern in Hpat. apply andb_true_iff in Hpat as [Hne Hall].
  apply orb_false_iff in Hhy as [Hstart Hend].
  apply (name_shape (String.length name)); try done.
  intros ->. done.
Qed.

End Validate.

Lemma validateName_accepts_witness :
  "pdf-tools2" = "pdf-tools2"
  ∧ String.length "pdf-tools2" ≤ MAX_NAME_LENGTH
  ∧ ∃ w ws, "pdf-tools2" = joinHyphen (w :: ws) ∧ Forall isWord (w :: ws).
Proof.
  apply (validateName_accepts (λ _, "") "pdf-tools2" "pdf-tools2"). reflexivity.
Defined.

End ValidateProofs.

Module TransformMoreProofs.
Import Ai Transform Views Scenarios.

Section SecondPass.
Variable now : Z.

Lemma flushPending_views p e :
  omap asUser (flushPending now p e) = []
  ∧ omap asAssistant (flushPending now p e) = [].
Proof.
  unfold flushPending. induction p as [|tc p [IH1 IH2]]; [done|]. cbn.
  destruct (decide (tc_id tc ∈ e)); cbn; by rewrite ?IH1, ?IH2.
Qed.

Lemma repairFrom_users msgs : ∀ p e,
  omap asUser (repairFrom now p e msgs) = omap asUser msgs.
Proof.
  induction msgs as [|[u|a|r] msgs IH]; intros p e.
  - by rewrite TransformProofs.repairFrom_nil.
  - rewrite TransformProofs.repairFrom_user, omap_app, (proj1 (flushPending_views p e)).
    cbn. by rewrite IH.
  - destruct (isErrored a) eqn:Herr.
    + rewrite TransformProofs.repairFrom_errored, omap_app,
        (proj1 (flushPending_views p e)) by done. cbn. by rewrite IH.
    + destruct (decide (toolCallsOf (am_content a) = [])) as [Hc|Hc].
      * rewrite TransformProofs.repairFrom_plain, omap_app,
          (proj1 (flushPending_views p e)) by done. cbn. by rewrite IH.
      * rewrite TransformProofs.repairFrom_calls, omap_app,
          (proj1 (flushPending_views p e)) by done. cbn. by rewrite IH.
  - rewrite TransformProofs.repairFrom_toolResult. cbn. by rewrite IH.
Qed.

Lemma repairFrom_assistants msgs : ∀ p e,
  omap asAssistant (repairFrom now p e msgs)
  = List.filter (λ a, negb (isErrored a)) (omap asAssistant msgs).
Proof.
  induction msgs as [|[u|a|r] msgs IH]; intros p e.
  - by rewrite TransformProofs.repairFrom_nil.
  - rewrite TransformProofs.repairFrom_user, omap_app, (proj2 (flushPending_views p e)).
    cbn. by rewrite IH.
  - cbn [omap asAssistant List.filter]. destruct (isErrored a) eqn:Herr.
    + rewrite TransformProofs.repairFrom_errored, omap_app,
        (proj2 (flushPending_views p e)) by done. cbn. by rewrite IH, Herr.
    + destruct (decide (toolCallsOf (am_content a) = [])) as [Hc|Hc].
      * rewrite TransformProofs.repairFrom_plain, omap_app,
          (proj2 (flushPending_views p e)) by done. cbn. by rewrite IH, Herr.
      * rewrite TransformProofs.repairFrom_calls, omap_app,
          (proj2 (flushPending_views p e)) by done. cbn. by rewrite IH, Herr.
  - rewrite TransformProofs.repairFrom_toolResult. cbn. by rewrite IH.
Qed.

Lemma repairFrom_toolResults_kept msgs : ∀ p e,
  omap asToolResult msgs `sublist_of` omap asToolResult (repairFrom now p e msgs).
Proof.
  induction msgs as [|[u|a|r] msgs IH]; intros p e.
  - by rewrite TransformProofs.repairFrom_nil.
  - rewrite TransformProofs.repairFrom_user, omap_app. cbn.
    apply sublist_inserts_l, IH.
  - destruct (isErrored a) eqn:Herr.
    + rewrite TransformProofs.repairFrom_errored, omap_app by done. cbn.
      apply sublist_inserts_l, IH.
    + destruct (decide (toolCallsOf (am_content a) = [])) as [Hc|Hc].
      * rewrite TransformProofs.repairFrom_plain, omap_app by done. cbn.
        apply sublist_inserts_l, IH.
      * rewrite TransformProofs.repairFrom_calls, omap_app by done. cbn.
        apply sublist_inserts_l, IH.
  - rewrite TransformProofs.repairFrom_toolResult. cbn. apply sublist_skip, IH.
Qed.

Lemma repairFrom_no_assistants msgs : ∀ e,
  Forall (λ m, asAssistant m = None) msgs →
  repairFrom now [] e msgs = msgs.
Proof.
  induction msgs as [|[u|a|r] msgs IH]; intros e Hall.
  - by rewrite TransformProofs.repairFrom_nil.
  - rewrite TransformProofs.repairFrom_user. cbn. f_equal. apply IH.
    by inversion Hall.
  - by inversion Hall.
  - rewrite TransformProofs.repairFrom_toolResult. f_equal. apply IH. by inversion Hall.
Qed.

End SecondPass.

Section FirstPass.
Variable model : Model.
Variable norm : option Normalizer.

Lemma omap_cons_match {A B} (f : A → option B) x l :
  omap f (x :: l) = match f x with Some y => y :: omap f l | None => omap f l end.
Proof. reflexivity. Qed.

Lemma firstPassFrom_users msgs : ∀ idMap,
  omap asUser (firstPassFrom model norm idMap msgs).2 = omap asUser msgs.
Proof.
  induction msgs as [|m msgs IH]; intros idMap; [done|].
  rewrite TransformProofs.firstPassFrom_cons. cbn [snd].
  assert (asUser (transformMessage model norm idMap m).2 = asUser m) as Hm.
  { destruct m as [u|a|r]; cbn; [done| |done].
    by destruct (transformAssistant model norm idMap a). }
  by rewrite !omap_cons_match, Hm, IH.
Qed.

Lemma firstPassFrom_no_assistants msgs :
  Forall (λ m, asAssistant m = None) msgs →
  firstPassFrom model norm ∅ msgs = (∅, msgs).
Proof.
  induction 1 as [|m msgs Hm _ IH]; [done|].
  rewrite TransformProofs.firstPassFrom_cons.
  destruct m as [u|a|r]; [|done|]; cbn; rewrite IH; cbn; [done|].
  by rewrite TransformProofs.normalizeToolResult_empty.
Qed.

End FirstPass.

(** [transformMessages] keeps the conversation: the user messages of the
    output are those of the input, unchanged and in order; its assistant
    messages are those the first pass produced, in order, without the ones
    that stopped with error or aborted; and no tool result of the first
    pass is dropped, the second pass only adds to them. *)
Theorem transform_keeps_conversation now messages model norm :
  omap asUser (transformMessages now messages model norm) = omap asUser messages
  ∧ omap asAssistant (transformMessages now messages model norm)
    = List.filter (λ a, negb (isErrored a))
        (omap asAssistant (firstPass model norm messages).2)
  ∧ omap asToolResult (firstPass model norm messages).2
    `sublist_of` omap asToolResult (transformMessages now messages model norm).
Proof.
  unfold transformMessages. rewrite TransformProofs.secondPass_repairFrom.
  split; [|split].
  - rewrite repairFrom_users. apply firstPassFrom_users.
  - apply repairFrom_assistants.
  - apply repairFrom_toolResults_kept.
Qed.

(** A history without assistant messages comes back as it is, whatever the
    target model and the normalizer: user messages and tool results are
    never rewritten on their own, and a tool result whose call is not in
    the history is not removed. *)
Theorem transform_without_assistants now messages model norm :
  Forall (λ m, asAssistant m = None) messages →
  transformMessages now messages model norm = messages.
Proof.
  intros Hall. unfold transformMessages, firstPass.
  rewrite firstPassFrom_no_assistants by done. cbn.
  rewrite TransformProofs.secondPass_repairFrom. by apply repairFrom_no_assistants.
Qed.

Lemma transform_without_assistants_witness :
  transformMessages 7 [userOf "list files"; resultOf "call_9"; userOf "stop"] modelA (Some appendX)
  = [userOf "list files"; resultOf "call_9"; userOf "stop"].
Proof.
  apply (transform_without_assistants 7 [userOf "list files"; resultOf "call_9"; userOf "stop"]).
  repeat constructor.
Defined.

End TransformMoreProofs.

Module AgentLoopMoreProofs.
Import Ai AgentLoop Scenarios AgentLoopProofs.

Section Loop.
Variable now : Z.
Variable validateToolArguments : AgentTool → ToolCall → Validation.
Variable tools : option (list AgentTool).

Lemma loop_pairs getSteeringMessages toolCalls : ∀ w results,
  ∃ added,
    (executeToolCallsLoop now validateToolArguments tools getSteeringMessages
       toolCalls w results).1.2 = results ++ added
    ∧ map tr_toolCallId added = map tc_id toolCalls
    ∧ map tr_toolName added = map tc_name toolCalls
    ∧ ∀ batch,
        (executeToolCallsLoop now validateToolArguments tools getSteeringMessages
           toolCalls w results).2 = Some batch → batch ≠ [].
Proof.
  induction toolCalls as [|tc rest IH]; intros w results.
  - exists []. cbn. by rewrite app_nil_r.
  - cbn [executeToolCallsLoop].
    destruct (invokeTool validateToolArguments tools tc _) as [[w2 result] isError].
    destruct getSteeringMessages as [poll|].
    + match goal with
      | |- context [isNonEmpty ?b] => destruct b as [|m batch] eqn:Hpoll
      end; cbn [isNonEmpty].
      * match goal with
        | |- context [executeToolCallsLoop _ _ _ _ rest ?w' ?rs'] =>
            destruct (IH w' rs') as (added & H1 & H2 & H3 & H4)
        end.
        exists (toolResultMessageOf now tc result isError :: added).
        rewrite H1. split; [by rewrite <- app_assoc|]. cbn. by rewrite H2, H3.
      * rewrite skipRemaining_spec. cbn [fst snd].
        exists (toolResultMessageOf now tc result isError :: map (skippedMessage now) rest).
        split; [by rewrite <- app_assoc|]. cbn. rewrite !map_map. cbn.
        split; [done|]. split; [done|]. by intros batch' [= <-].
    + match goal with
      | |- context [executeToolCallsLoop _ _ _ _ rest ?w' ?rs'] =>
          destruct (IH w' rs') as (added & H1 & H2 & H3 & H4)
      end.
      exists (toolResultMessageOf now tc result isError :: added).
      rewrite H1. split; [by rewrite <- app_assoc|]. cbn. by rewrite H2, H3.
Qed.

(** Every tool call of an assistant message gets exactly one tool result,
    in the order of the calls and carrying the call's id and tool name,
    whether the call was executed, failed or was skipped; and steering
    messages, when returned, are a non-empty batch. *)
Theorem every_call_gets_a_result getSteeringMessages assistantMessage w :
  map tr_toolCallId
    (executeToolCalls now validateToolArguments tools getSteeringMessages assistantMessage w).1.2
  = map tc_id (toolCallsOf (am_content assistantMessage))
  ∧ map tr_toolName
      (executeToolCalls now validateToolArguments tools getSteeringMessages assistantMessage w).1.2
    = map tc_name (toolCallsOf (am_content assistantMessage))
  ∧ ∀ batch,
      (executeToolCalls now validateToolArguments tools getSteeringMessages assistantMessage w).2
      = Some batch → batch ≠ [].
Proof.
  unfold executeToolCalls.
  destruct (loop_pairs getSteeringMessages (toolCallsOf (am_content assistantMessage)) w [])
    as (added & H1 & H2 & H3 & H4).
  rewrite H1. cbn. done.
Qed.

Lemma loop_unsteered getSteeringMessages toolCalls : ∀ w results,
  (∀ poll j, getSteeringMessages = Some poll → j < length toolCalls →
     poll (steeringPolls w + j) = []) →
  executeToolCallsLoop now validateToolArguments tools getSteeringMessages toolCalls w results
  = ({| events := events w ++ flat_map (callEvents now validateToolArguments tools) toolCalls;
        executed := executed w ++ flat_map (callExecuted validateToolArguments tools) toolCalls;
        steeringPolls := steeringPolls w
                         + match getSteeringMessages with
                           | Some _ => length toolCalls
                           | None => 0
                           end |},
     results ++ map (callResult now validateToolArguments tools) toolCalls,
     None).
Proof.
  induction toolCalls as [|tc rest IH]; intros w results Hquiet.
  - cbn. destruct w; cbn. rewrite !app_nil_r.
    by destruct getSteeringMessages; rewrite Nat.add_0_r.
  - cbn [executeToolCallsLoop length].
    rewrite invokeTool_frame. cbn [pushEvent events executed steeringPolls].
    destruct getSteeringMessages as [poll|] eqn:Hsteer.
    + pose proof (Hquiet poll 0 eq_refl ltac:(simpl; lia)) as H0.
      rewrite Nat.add_0_r in H0. rewrite H0. cbn [isNonEmpty].
      rewrite IH; cbn [events executed steeringPolls].
      * cbn [flat_map map app].
        generalize (flat_map (callEvents now validateToolArguments tools) rest)
                   (map (callResult now validateToolArguments tools) rest)
                   (flat_map (callExecuted validateToolArguments tools) rest).
        intros evs rs ids.
        unfold callEvents, callResult, callExecuted.
        destruct (invokeTool validateToolArguments tools tc emptyWorld)
          as [[w0 result] isError]. cbn [fst snd].
        apply outcome_eq; [apply world_eq|]; normalize_app.
      * intros poll' j [= <-] Hj.
        rewrite <- (Hquiet poll (S j) eq_refl) by (simpl; lia). f_equal. lia.
    + rewrite IH; cbn [events executed steeringPolls]; [|done].
      cbn [flat_map map app].
      generalize (flat_map (callEvents now validateToolArguments tools) rest)
                 (map (callResult now validateToolArguments tools) rest)
                 (flat_map (callExecuted validateToolArguments tools) rest).
      intros evs rs ids.
      unfold callEvents, callResult, callExecuted.
      destruct (invokeTool validateToolArguments tools tc emptyWorld)
        as [[w0 result] isError]. cbn [fst snd].
      apply outcome_eq; [apply world_eq|];
        unfold pushEvent; cbn [events executed steeringPolls]; normalize_app.
Qed.

(** Without steering, that is with no steering source or with one that
    returns nothing after each call, every tool call of the message is
    carried out in order: the events and results are those of the calls one
    after the other, nothing is skipped, no steering messages are returned,
    and the source has been polled once per call. *)
Theorem all_calls_run_without_steering getSteeringMessages assistantMessage w :
  (∀ poll j, getSteeringMessages = Some poll →
     j < length (toolCallsOf (am_content assistantMessage)) →
     poll (steeringPolls w + j) = []) →
  executeToolCalls now validateToolArguments tools getSteeringMessages assistantMessage w
  = ({| events := events w
          ++ flat_map (callEvents now validateToolArguments tools)
               (toolCallsOf (am_content assistantMessage));
        executed := executed w
          ++ flat_map (callExecuted validateToolArguments tools)
               (toolCallsOf (am_content assistantMessage));
        steeringPolls := steeringPolls w
          + match getSteeringMessages with
            | Some _ => length (toolCallsOf (am_content assistantMessage))
            | None => 0
            end |},
     map (callResult now validateToolArguments tools)
       (toolCallsOf (am_content assistantMessage)),
     None).
Proof.
  intros Hquiet. unfold executeToolCalls. by rewrite loop_unsteered.
Qed.

End Loop.

Lemma all_calls_run_without_steering_witness :
  executeToolCalls 0%Z (λ _ t, Valid (tc_arguments t)) (Some [lsTool]) None threeCalls emptyWorld
  = ({| events := events emptyWorld
          ++ flat_map (callEvents 0%Z (λ _ t, Valid (tc_arguments t)) (Some [lsTool]))
               (toolCallsOf (am_content threeCalls));
        executed := executed emptyWorld
          ++ flat_map (callExecuted (λ _ t, Valid (tc_arguments t)) (Some [lsTool]))
               (toolCallsOf (am_content threeCalls));
        steeringPolls := steeringPolls emptyWorld + 0 |},
     map (callResult 0%Z (λ _ t, Valid (tc_arguments t)) (Some [lsTool]))
       (toolCallsOf (am_content threeCalls)),
     None).
Proof.
  apply (all_calls_run_without_steering 0%Z (λ _ t, Valid (tc_arguments t)) (Some [lsTool])
           None threeCalls emptyWorld).
  intros poll j H. discriminate H.
Defined.

End AgentLoopMoreProofs.

Module EventStreamMoreProofs.
Import EventStream Views EventStreamProofs.

Section Stream.
Context {T R : Type}.
Variable isComplete : T → bool.
Variable extractResult : T → R.

Lemma count_finished consumer (l : list nat) :
  length (List.filter (λ d : nat * @IteratorResult T, Nat.eqb d.1 consumer)
            (map (λ waiter, (waiter, Finished)) l))
  = length (List.filter (λ w, Nat.eqb w consumer) l).
Proof.
  induction l as [|w l IH]; [done|]. cbn. destruct (Nat.eqb w consumer); cbn; by rewrite IH.
Qed.

Lemma suspended_pending c (s : @Stream T R) :
  suspended c s = false → c ∉ waiting s ∧ pendingOf c s = 0.
Proof.
  unfold suspended, pendingOf. induction (waiting s) as [|w l IH]; cbn.
  - intros _. split; [apply not_elem_of_nil|done].
  - intros H. apply orb_false_iff in H as [Hw Hl].
    destruct (IH Hl) as [Hn Hp]. apply Nat.eqb_neq in Hw.
    split; [apply not_elem_of_cons; split; [done|done]|].
    destruct (Nat.eqb_spec w c) as [->|_]; [done|exact Hp].
Qed.

Lemma requests_step consumer (s : @Stream T R) op :
  NoDup (waiting s) →
  NoDup (waiting (step isComplete extractResult s op))
  ∧ answersTo consumer (step isComplete extractResult s op)
    + pendingOf consumer (step isComplete extractResult s op)
    = answersTo consumer s + pendingOf consumer s
      + turnsOf isComplete extractResult consumer [op] s.
Proof.
  intros Hnd. unfold answersTo, pendingOf.
  destruct op as [event|result|c]; cbn [step turnsOf].
  - unfold push. destruct (done s); [split; [done|lia]|].
    destruct (waiting s) as [|waiter rest]; cbn [delivered waiting]; [split; [done|cbn; lia]|].
    split; [by apply NoDup_cons in Hnd as [_ ?]|].
    rewrite List.filter_app, length_app. cbn.
    destruct (Nat.eqb waiter consumer); cbn; lia.
  - unfold finish. cbn [delivered waiting]. split; [apply NoDup_nil_2|].
    rewrite List.filter_app, length_app, count_finished. cbn. lia.
  - unfold next. destruct (suspended c s) eqn:Hs;
      [split; [done|rewrite andb_false_r; lia]|].
    destruct (suspended_pending _ _ Hs) as [Hnot Hpend]. rewrite andb_true_r.
    destruct (queue s) as [|event rest]; [destruct (done s)|];
      cbn [delivered waiting]; rewrite ?List.filter_app, ?length_app; cbn;
      (split; [try done|destruct (Nat.eqb c consumer); cbn; lia]).
    apply NoDup_app. split; [done|]. split; [|apply NoDup_singleton].
    intros x Hx Hc. apply list_elem_of_singleton in Hc. by subst x.
Qed.

Lemma requests_run consumer ops : ∀ s : @Stream T R,
  NoDup (waiting s) →
  NoDup (waiting (run isComplete extractResult ops s))
  ∧ answersTo consumer (run isComplete extractResult ops s)
    + pendingOf consumer (run isComplete extractResult ops s)
    = answersTo consumer s + pendingOf consumer s
      + turnsOf isComplete extractResult consumer ops s.
Proof.
  induction ops as [|op ops IH]; intros s Hnd; [cbn; split; [done|lia]|].
  cbn [run foldl]. fold (run isComplete extractResult ops (step isComplete extractResult s op)).
  destruct (requests_step consumer s op Hnd) as [Hnd' Hstep].
  destruct (IH _ Hnd') as [Hnd'' Hrun]. split; [done|].
  rewrite Hrun, Hstep. cbn [turnsOf]. lia.
Qed.

(** No turn of an iterator is lost or answered twice: on a stream driven
    from its creation by any pushes, ends and turns of iterators, no
    consumer has more than one resolver waiting, and the answers a consumer
    has received (events or the end of the stream) plus its resolver, if it
    is waiting, equal the turns its iterator has run. *)
Theorem requests_are_conserved consumer (ops : list (@Op T R)) :
  NoDup (waiting (run isComplete extractResult ops create))
  ∧ pendingOf consumer (run isComplete extractResult ops create) ≤ 1
  ∧ answersTo consumer (run isComplete extractResult ops create)
    + pendingOf consumer (run isComplete extractResult ops create)
    = turnsOf isComplete extractResult consumer ops create.
Proof.
  destruct (requests_run consumer ops create) as [Hnd Hrun]; [apply NoDup_nil_2|].
  split; [done|]. split; [|rewrite Hrun; cbn; lia].
  unfold pendingOf. revert Hnd. generalize (waiting (run isComplete extractResult ops create)).
  induction l as [|w l IH]; intros Hnd; [cbn; lia|].
  apply NoDup_cons in Hnd as [Hw Hnd]. cbn.
  destruct (Nat.eqb_spec w consumer) as [->|_]; [|by apply IH].
  cbn. assert (List.filter (λ w, w =? consumer) l = []) as ->; [|cbn; lia].
  clear IH Hnd. induction l as [|x l IH]; [done|]. cbn.
  apply not_elem_of_cons in Hw as [Hx Hl].
  destruct (Nat.eqb_spec x consumer) as [->|_]; [done|by apply IH].
Qed.

Lemma finalResult_step (s : @Stream T R) op r :
  finalResult s = Some r → finalResult (step isComplete extractResult s op) = Some r.
Proof.
  intros Hr. destruct op as [event|result|c]; cbn [step].
  - unfold push. destruct (done s); [done|].
    destruct (waiting s); cbn [finalResult]; destruct (isComplete event);
      rewrite ?Hr; done.
  - unfold finish. cbn [finalResult]. destruct result; rewrite ?Hr; done.
  - unfold next. destruct (suspended c s); [done|].
    destruct (queue s); [destruct (done s)|]; done.
Qed.

Lemma finalResult_run later : ∀ (s : @Stream T R) r,
  finalResult s = Some r → finalResult (run isComplete extractResult later s) = Some r.
Proof.
  induction later as [|op later IH]; intros s r Hr; [done|].
  cbn [run foldl]. apply IH. by apply finalResult_step.
Qed.

(** The result of a stream is settled once: when the result promise of a
    stream driven from its creation is resolved with [r], the stream has
    ended, and no later push or end, with or without a result, changes the
    result. *)
Theorem result_resolves_once (ops later : list (@Op T R)) r :
  finalResult (run isComplete extractResult ops create) = Some r →
  done (run isComplete extractResult ops create) = true
  ∧ finalResult (run isComplete extractResult later
                   (run isComplete extractResult ops create)) = Some r.
Proof.
  intros Hr. split; [|by apply finalResult_run].
  destruct (wellFormed_run isComplete extractResult ops create (wellFormed_create))
    as [_ Hlive].
  destruct (done (run isComplete extractResult ops create)); [done|].
  rewrite Hlive in Hr; done.
Qed.

End Stream.

Lemma result_resolves_once_witness :
  done (run (Nat.eqb 0) id [Push 5; Push 0] create) = true
  ∧ finalResult (run (Nat.eqb 0) id [End (Some 9); Push 0; Next 1]
                   (run (Nat.eqb 0) id [Push 5; Push 0] create)) = Some 0.
Proof.
  apply (result_resolves_once (Nat.eqb 0) id [Push 5; Push 0] [End (Some 9); Push 0; Next 1] 0).
  reflexivity.
Defined.

End EventStreamMoreProofs.

Module ProxyMoreProofs.
Import Ai Proxy Views Scenarios Fixtures.

Section Client.
Variable parseStreamingJson : string → Json.

Lemma assignIndex_frame {A} (l : list (option A)) i v :
  length l ≤ length (assignIndex l i v)
  ∧ ∀ j, j < length l → j ≠ i → assignIndex l i v !! j = l !! j.
Proof.
  unfold assignIndex. destruct (decide (i < length l)).
  - rewrite length_insert. split; [done|]. intros j Hj Hne.
    by rewrite list_lookup_insert_ne.
  - rewrite length_app. split; [lia|]. intros j Hj _. by rewrite lookup_app_l.
Qed.

Lemma insert_frame {A} (l : list A) i v :
  length l ≤ length (<[i := v]> l)
  ∧ ∀ j, j < length l → j ≠ i → <[i := v]> l !! j = l !! j.
Proof.
  rewrite length_insert. split; [done|]. intros j Hj Hne. by rewrite list_lookup_insert_ne.
Qed.

Lemma processProxyEvent_frame proxyEvent partial :
  match processProxyEvent parseStreamingJson proxyEvent partial with
  | Emitted _ partial' | Ignored partial' =>
      length (p_content partial) ≤ length (p_content partial')
      ∧ (∀ j, j < length (p_content partial) → contentIndexOf proxyEvent ≠ Some j →
           p_content partial' !! j = p_content partial !! j)
      ∧ p_api partial' = p_api partial ∧ p_provider partial' = p_provider partial
      ∧ p_model partial' = p_model partial ∧ p_timestamp partial' = p_timestamp partial
  | Thrown _ => True
  end.
Proof.
  destruct proxyEvent; cbn [processProxyEvent contentIndexOf];
    try (destruct (p_content partial !! contentIndex) as [[[?|?|? ?]|]|]); try done;
    cbn [p_content withClientContent p_api p_provider p_model p_timestamp];
    (split; [first [apply assignIndex_frame | apply insert_frame | done]|]);
    (split; [|done]); intros j Hj Hne;
    first [ apply assignIndex_frame; [done|congruence]
          | apply insert_frame; [done|congruence]
          | done ].
Qed.

(** Rebuilding never disturbs what it is not told about: over any sequence
    of wire events that is processed without an exception, the content array
    of the partial message does not shrink, a slot that no event addresses
    keeps its block, and the api, provider, model and timestamp of the
    message stay as they were. *)
Theorem rebuild_frame proxyEvents : ∀ partial partial',
  rebuild parseStreamingJson proxyEvents partial = Some partial' →
  length (p_content partial) ≤ length (p_content partial')
  ∧ (∀ j, j < length (p_content partial) →
       Forall (λ e, contentIndexOf e ≠ Some j) proxyEvents →
       p_content partial' !! j = p_content partial !! j)
  ∧ p_api partial' = p_api partial ∧ p_provider partial' = p_provider partial
  ∧ p_model partial' = p_model partial ∧ p_timestamp partial' = p_timestamp partial.
Proof.
  induction proxyEvents as [|e proxyEvents IH]; intros partial partial' H.
  - injection H as <-. done.
  - cbn [rebuild] in H.
    destruct (processProxyEvent parseStreamingJson e partial) as [ev p1|p1|msg] eqn:Hstep;
      [| |done].
    + pose proof (processProxyEvent_frame e partial) as Hf. rewrite Hstep in Hf.
      destruct Hf as (L1 & S1 & A1 & B1 & C1 & D1).
      destruct (IH _ _ H) as (L2 & S2 & A2 & B2 & C2 & D2).
      split; [lia|]. split; [|by rewrite A2, B2, C2, D2].
      intros j Hj Hall. inversion Hall; subst. rewrite S2; [by apply S1|lia|done].
    + pose proof (processProxyEvent_frame e partial) as Hf. rewrite Hstep in Hf.
      destruct Hf as (L1 & S1 & A1 & B1 & C1 & D1).
      destruct (IH _ _ H) as (L2 & S2 & A2 & B2 & C2 & D2).
      split; [lia|]. split; [|by rewrite A2, B2, C2, D2].
      intros j Hj Hall. inversion Hall; subst. rewrite S2; [by apply S1|lia|done].
Qed.

End Client.

Lemma rebuild_frame_witness :
  length (p_content (initialPartial modelB 0)) ≤ length (p_content wireReplyRebuilt)
  ∧ (∀ j, j < length (p_content (initialPartial modelB 0)) →
       Forall (λ e, contentIndexOf e ≠ Some j) wireReply →
       p_content wireReplyRebuilt !! j = p_content (initialPartial modelB 0) !! j)
  ∧ p_api wireReplyRebuilt = p_api (initialPartial modelB 0)
  ∧ p_provider wireReplyRebuilt = p_provider (initialPartial modelB 0)
  ∧ p_model wireReplyRebuilt = p_model (initialPartial modelB 0)
  ∧ p_timestamp wireReplyRebuilt = p_timestamp (initialPartial modelB 0).
Proof.
  apply (rebuild_frame parseStub wireReply (initialPartial modelB 0) wireReplyRebuilt).
  reflexivity.
Defined.

End ProxyMoreProofs.
